(** * A shallow embedding of the parse-utils lexer ([lexer.hpp])

    The development follows the C++ source: [lexer::token] (text, category,
    flag bits, lazily computed and cached numeric value), the process-wide
    punctuation tables built by [lexer::set_punctuation_tables], and the
    scanner itself ([lexer::next_token] and its [internal_read_*] helpers,
    the [check_*] / [peek_*] operations and the error counters).

    Conventions of the embedding.
    - [char] is an 8-bit byte ([ascii]); comparisons such as [c <= ' '] go
      through [char_val], the value of the byte as a signed [char].
    - Pointers into the script are offsets ([nat]) from [m_buffer_head_ptr];
      reading at or beyond the end of the buffer yields the terminating NUL.
    - Unsigned integers wrap ([u32], [u64]); [int] arithmetic is reduced to
      32 bits in two's complement ([i32]).
    - [double] is IEEE-754 binary64, round to nearest even, through the
      specification floats of the standard library. *)

From Stdlib Require Import ZArith List Ascii String Lia Bool SpecFloat Sorted.
From stdpp Require Import base list.
Import ListNotations.
Local Open Scope Z_scope.

(** ** Characters and machine integers *)

Definition NUL : ascii := Ascii.zero.

(** The value of a [char] once promoted to [int] (signed [char]). *)
Definition char_val (c : ascii) : Z :=
  let n := Z.of_N (N_of_ascii c) in
  if n <? 128 then n else n - 256.

(** [static_cast<char>(z)] for an [int] z. *)
Definition char_of_int (z : Z) : ascii := ascii_of_N (Z.to_N (z mod 256)).

Definition chars (s : String.string) : list ascii := list_ascii_of_string s.

Definition u32 (z : Z) : Z := z mod 2 ^ 32.
Definition u64 (z : Z) : Z := z mod 2 ^ 64.
Definition i32 (z : Z) : Z := (z + 2 ^ 31) mod 2 ^ 32 - 2 ^ 31.
Definition i64 (z : Z) : Z := (z + 2 ^ 63) mod 2 ^ 64 - 2 ^ 63.

(** [flags & bit] used as a condition. *)
Definition has_flag (flags bit : Z) : bool := negb (Z.land flags bit =? 0).

(** The characters of a C string: everything before the first NUL. *)
Fixpoint c_str (s : list ascii) : list ascii :=
  match s with
  | [] => []
  | c :: s' => if Ascii.eqb c NUL then [] else c :: c_str s'
  end.

Definition is_digit (c : ascii) : bool := (48 <=? char_val c) && (char_val c <=? 57).
Definition is_lower (c : ascii) : bool := (97 <=? char_val c) && (char_val c <=? 122).
Definition is_upper (c : ascii) : bool := (65 <=? char_val c) && (char_val c <=? 90).

(** ** IEEE-754 doubles *)

Module dbl.

Definition double := spec_float.

Definition prec : Z := 53.
Definition emax : Z := 1024.

(** Conversion of an integer to [double]. *)
Definition of_Z (z : Z) : double := binary_normalize prec emax z 0 false.

Definition add (x y : double) : double := SFadd prec emax x y.
Definition mul (x y : double) : double := SFmul prec emax x y.
Definition div (x y : double) : double := SFdiv prec emax x y.

Definition zero : double := S754_zero false.
Definition one : double := of_Z 1.
Definition ten : double := of_Z 10.
(** The literal [0.1]: the double nearest to one tenth. *)
Definition tenth : double := div one ten.

(** Truncation toward zero; undefined on infinities and NaN. *)
Definition trunc (d : double) : option Z :=
  match d with
  | S754_zero _ => Some 0
  | S754_finite s m e =>
      let a := if 0 <=? e then Z.pos m * 2 ^ e else Z.pos m / 2 ^ (- e) in
      Some (if s then - a else a)
  | S754_infinity _ | S754_nan => None
  end.

(** [static_cast<std::uint64_t>(d)]: truncation toward zero when the
    truncated value fits the type; undefined behaviour ([None]) otherwise. *)
Definition to_u64 (d : double) : option Z :=
  match trunc d with
  | Some z => if (0 <=? z) && (z <? 2 ^ 64) then Some z else None
  | None => None
  end.

End dbl.

Abbreviation double := dbl.double.

(** ** [lexer::token] *)

Module token.

(** Main token category. *)
Inductive type := none | number | string | literal | identifier | punctuation.

Definition type_eqb (a b : type) : bool :=
  match a, b with
  | none, none | number, number | string, string | literal, literal
  | identifier, identifier | punctuation, punctuation => true
  | _, _ => false
  end.

(** Subtypes and flags. *)
Module flags.
Definition integer            : Z := Z.shiftl 1 0.
Definition signed_integer     : Z := Z.shiftl 1 1.
Definition unsigned_integer   : Z := Z.shiftl 1 2.
Definition binary             : Z := Z.shiftl 1 3.
Definition octal              : Z := Z.shiftl 1 4.
Definition decimal            : Z := Z.shiftl 1 5.
Definition hexadecimal        : Z := Z.shiftl 1 6.
Definition floating_point     : Z := Z.shiftl 1 7.
Definition single_precision   : Z := Z.shiftl 1 8.
Definition double_precision   : Z := Z.shiftl 1 9.
Definition extended_precision : Z := Z.shiftl 1 10.
Definition infinite           : Z := Z.shiftl 1 11.
Definition indefinite         : Z := Z.shiftl 1 12.
Definition nan                : Z := Z.shiftl 1 13.
Definition ip_address         : Z := Z.shiftl 1 14.
Definition ip_port            : Z := Z.shiftl 1 15.
Definition boolean            : Z := Z.shiftl 1 16.
End flags.

Record t := mk {
  m_string        : list ascii;
  m_flags         : Z;
  m_line_num      : Z;
  m_lines_crossed : Z;
  m_type          : type;
  m_values_valid  : bool;      (* mutable *)
  m_u64_value     : Z;         (* mutable *)
  m_double_value  : double     (* mutable *)
}.

(** [token() = default]. *)
Definition default : t :=
  {| m_string := []; m_flags := 0; m_line_num := 0; m_lines_crossed := 0;
     m_type := none; m_values_valid := true; m_u64_value := 0;
     m_double_value := dbl.zero |}.

(** *** Queries *)

Definition is_number (tk : t) : bool := type_eqb (m_type tk) number.
Definition is_integer (tk : t) : bool := has_flag (m_flags tk) flags.integer.
Definition is_float (tk : t) : bool := has_flag (m_flags tk) flags.floating_point.
Definition is_boolean (tk : t) : bool := has_flag (m_flags tk) flags.boolean.
Definition is_string (tk : t) : bool := type_eqb (m_type tk) string.
Definition is_literal (tk : t) : bool := type_eqb (m_type tk) literal.
Definition is_identifier (tk : t) : bool := type_eqb (m_type tk) identifier.
Definition is_punctuation (tk : t) : bool := type_eqb (m_type tk) punctuation.
Definition get_length (tk : t) : nat := length (m_string tk).
Definition get_flags (tk : t) : Z := m_flags tk.
Definition get_line_number (tk : t) : Z := m_line_num tk.
Definition get_lines_crossed (tk : t) : Z := m_lines_crossed tk.
Definition get_type (tk : t) : type := m_type tk.
Definition as_string (tk : t) : list ascii := m_string tk.

(** *** Comparison with characters and strings *)

Fixpoint list_ascii_eqb (a b : list ascii) : bool :=
  match a, b with
  | [], [] => true
  | x :: a', y :: b' => Ascii.eqb x y && list_ascii_eqb a' b'
  | _, _ => false
  end.

(** [operator == (char c)]. *)
Definition eq_char (tk : t) (c : ascii) : bool :=
  (length (m_string tk) =? 1)%nat && Ascii.eqb (nth 0 (m_string tk) NUL) c.

(** [operator != (char c)]. *)
Definition neq_char (tk : t) (c : ascii) : bool :=
  (length (m_string tk) =? 1)%nat && negb (Ascii.eqb (nth 0 (m_string tk) NUL) c).

(** [operator == (const char * str)]: [str] is a C string. *)
Definition eq_str (tk : t) (str : list ascii) : bool :=
  list_ascii_eqb (m_string tk) (c_str str).

(** [operator != (const char * str)]. *)
Definition neq_str (tk : t) (str : list ascii) : bool :=
  negb (list_ascii_eqb (m_string tk) (c_str str)).

(** *** Setters *)

Definition set_string (new_text : list ascii) (tk : t) : t :=
  {| m_string := new_text; m_flags := m_flags tk; m_line_num := m_line_num tk;
     m_lines_crossed := m_lines_crossed tk; m_type := m_type tk;
     m_values_valid := false; m_u64_value := m_u64_value tk;
     m_double_value := m_double_value tk |}.

Definition set_flags (new_flags : Z) (tk : t) : t :=
  {| m_string := m_string tk; m_flags := new_flags; m_line_num := m_line_num tk;
     m_lines_crossed := m_lines_crossed tk; m_type := m_type tk;
     m_values_valid := false; m_u64_value := m_u64_value tk;
     m_double_value := m_double_value tk |}.

Definition set_line_number (new_line_num : Z) (tk : t) : t :=
  {| m_string := m_string tk; m_flags := m_flags tk; m_line_num := new_line_num;
     m_lines_crossed := m_lines_crossed tk; m_type := m_type tk;
     m_values_valid := m_values_valid tk; m_u64_value := m_u64_value tk;
     m_double_value := m_double_value tk |}.

Definition set_lines_crossed (new_lines_crossed : Z) (tk : t) : t :=
  {| m_string := m_string tk; m_flags := m_flags tk; m_line_num := m_line_num tk;
     m_lines_crossed := new_lines_crossed; m_type := m_type tk;
     m_values_valid := m_values_valid tk; m_u64_value := m_u64_value tk;
     m_double_value := m_double_value tk |}.

Definition set_type (new_type : type) (tk : t) : t :=
  {| m_string := m_string tk; m_flags := m_flags tk; m_line_num := m_line_num tk;
     m_lines_crossed := m_lines_crossed tk; m_type := new_type;
     m_values_valid := false; m_u64_value := m_u64_value tk;
     m_double_value := m_double_value tk |}.

(** Writes [m_string] without touching the cache flag (used where the
    source assigns the member directly). *)
Definition with_string (s : list ascii) (tk : t) : t :=
  {| m_string := s; m_flags := m_flags tk; m_line_num := m_line_num tk;
     m_lines_crossed := m_lines_crossed tk; m_type := m_type tk;
     m_values_valid := m_values_valid tk; m_u64_value := m_u64_value tk;
     m_double_value := m_double_value tk |}.

(** [append(char c)]: a NUL is ignored. *)
Definition append (c : ascii) (tk : t) : t :=
  if Ascii.eqb c NUL then tk
  else
    {| m_string := m_string tk ++ [c]; m_flags := m_flags tk;
       m_line_num := m_line_num tk; m_lines_crossed := m_lines_crossed tk;
       m_type := m_type tk; m_values_valid := false;
       m_u64_value := m_u64_value tk; m_double_value := m_double_value tk |}.

(** [append(const char * str)]: [None] is the null pointer. *)
Definition append_str (str : option (list ascii)) (tk : t) : t :=
  match str with
  | None => tk
  | Some s =>
      match c_str s with
      | [] => tk
      | cs =>
          {| m_string := m_string tk ++ cs; m_flags := m_flags tk;
             m_line_num := m_line_num tk; m_lines_crossed := m_lines_crossed tk;
             m_type := m_type tk; m_values_valid := false;
             m_u64_value := m_u64_value tk; m_double_value := m_double_value tk |}
      end
  end.

Definition clear (tk : t) : t := default.

(** [move_to(dest)]: returns the moved string and the cleared token. *)
Definition move_to (tk : t) : list ascii * t := (m_string tk, clear tk).

(** *** Lazily computed numeric value *)

(** [while ( *p && *p != '.' && *p != 'e') v = v * 10.0 + double( *p - '0')]. *)
Fixpoint scan_float_integral (p : list ascii) (v : double) : double * list ascii :=
  match p with
  | [] => (v, [])
  | c :: p' =>
      if (c =? ".")%char || (c =? "e")%char then (v, p)
      else scan_float_integral p'
             (dbl.add (dbl.mul v dbl.ten) (dbl.of_Z (char_val c - 48)))
  end.

(** [for (m = 0.1; *p && *p != 'e'; ++p) { v = v + double( *p - '0') * m; m *= 0.1; }]. *)
Fixpoint scan_float_fraction (p : list ascii) (v m : double) : double * list ascii :=
  match p with
  | [] => (v, [])
  | c :: p' =>
      if (c =? "e")%char then (v, p)
      else scan_float_fraction p'
             (dbl.add v (dbl.mul (dbl.of_Z (char_val c - 48)) m))
             (dbl.mul m dbl.tenth)
  end.

(** [for (pow = 0; *p; ++p) pow = pow * 10 + int( *p - '0')]. *)
Fixpoint scan_float_pow (p : list ascii) (pow : Z) : Z :=
  match p with
  | [] => pow
  | c :: p' => scan_float_pow p' (i32 (pow * 10 + (char_val c - 48)))
  end.

(** The exponent part, entered with [p] just after the ['e']. *)
Definition scan_float_exponent (p : list ascii) (v : double) : double :=
  let '(div, p1) :=
    match p with
    | c :: p' =>
        if (c =? "-")%char then (true, p')
        else if (c =? "+")%char then (false, p')
        else (false, p)
    | [] => (false, p)
    end in
  let pow := scan_float_pow p1 0 in
  let m := Z.iter pow (fun m => dbl.mul m dbl.ten) dbl.one in
  if div then dbl.div v m else dbl.mul v m.

Definition scan_float (p : list ascii) : double :=
  let '(v1, p1) := scan_float_integral p dbl.zero in
  let '(v2, p2) :=
    match p1 with
    | c :: p' => if (c =? ".")%char then scan_float_fraction p' v1 dbl.tenth else (v1, p1)
    | [] => (v1, p1)
    end in
  match p2 with
  | c :: p' => if (c =? "e")%char then scan_float_exponent p' v2 else v2
  | [] => v2
  end.

(** [while ( *p != '\0') v = v * 10 + ( *p - '0')] on [std::uint64_t]. *)
Fixpoint scan_decimal (p : list ascii) (v : Z) : Z :=
  match p with
  | [] => v
  | c :: p' => scan_decimal p' (u64 (v * 10 + (char_val c - 48)))
  end.

(** [v = (v << 3) + ( *p - '0')]. *)
Fixpoint scan_octal (p : list ascii) (v : Z) : Z :=
  match p with
  | [] => v
  | c :: p' => scan_octal p' (u64 (u64 (Z.shiftl v 3) + (char_val c - 48)))
  end.

Definition hex_digit_value (c : ascii) : Z :=
  if (97 <=? char_val c) && (char_val c <=? 102) then char_val c - 97 + 10
  else if (65 <=? char_val c) && (char_val c <=? 70) then char_val c - 65 + 10
  else char_val c - 48.

(** [v <<= 4; v += digit]. *)
Fixpoint scan_hexadecimal (p : list ascii) (v : Z) : Z :=
  match p with
  | [] => v
  | c :: p' => scan_hexadecimal p' (u64 (u64 (Z.shiftl v 4) + hex_digit_value c))
  end.

(** [v = (v << 1) + ( *p - '0')]. *)
Fixpoint scan_binary (p : list ascii) (v : Z) : Z :=
  match p with
  | [] => v
  | c :: p' => scan_binary p' (u64 (u64 (Z.shiftl v 1) + (char_val c - 48)))
  end.

(** The loop over [std::uint32_t ip[5]]; an index beyond the array leaves
    it unchanged here (the source would write out of bounds). *)
Fixpoint scan_ip (p : list ascii) (i : nat) (ip : list Z) : list Z :=
  match p with
  | [] => ip
  | c :: p' =>
      if (c =? ".")%char || (c =? ":")%char then scan_ip p' (S i) ip
      else scan_ip p' i (<[i := u32 (nth i ip 0 * 10 + (char_val c - 48))]> ip)
  end.

Definition ip_value (p : list ascii) : Z :=
  let ip := scan_ip p 0%nat [0; 0; 0; 0; 0] in
  let ip_word :=
    Z.lor (Z.lor (Z.lor (u32 (Z.shiftl (nth 0 ip 0) 24)) (u32 (Z.shiftl (nth 1 ip 0) 16)))
                 (u32 (Z.shiftl (nth 2 ip 0) 8)))
          (nth 3 ip 0) in
  let port_word := nth 4 ip 0 in
  Z.lor (u64 (Z.shiftl port_word 32)) ip_word.

(** The values [new_u64_val] and [new_double_val] that
    [update_cached_values] computes from the text and the flags; [None]
    when the conversion of the double to [std::uint64_t] is undefined. *)
Definition compute_values (text : list ascii) (fl : Z) : option (Z * double) :=
  let p := c_str text in
  if has_flag fl flags.floating_point then
    let d :=
      if has_flag fl (Z.lor (Z.lor flags.infinite flags.indefinite) flags.nan) then
        if has_flag fl flags.infinite then S754_infinity false        (* 0x7F800000 *)
        else if has_flag fl flags.indefinite then S754_nan            (* 0xFFC00000 *)
        else if has_flag fl flags.nan then S754_nan                   (* 0x7FC00000 *)
        else dbl.zero
      else scan_float p in
    match dbl.to_u64 d with
    | Some u => Some (u, d)
    | None => None
    end
  else if has_flag fl flags.decimal then
    let u := scan_decimal p 0 in Some (u, dbl.of_Z u)
  else if has_flag fl flags.octal then
    let u := scan_octal (skipn 1 p) 0 in Some (u, dbl.of_Z u)
  else if has_flag fl flags.hexadecimal then
    let u := scan_hexadecimal (skipn 2 p) 0 in Some (u, dbl.of_Z u)
  else if has_flag fl flags.binary then
    let u := scan_binary (skipn 2 p) 0 in Some (u, dbl.of_Z u)
  else if has_flag fl flags.ip_address then
    let u := ip_value p in Some (u, dbl.of_Z u)
  else if has_flag fl flags.boolean then
    let u := if list_ascii_eqb p (chars "true") then 1 else 0 in Some (u, dbl.of_Z u)
  else Some (0, dbl.zero).

Definition update_cached_values (tk : t) : option t :=
  match compute_values (m_string tk) (m_flags tk) with
  | Some (u, d) =>
      Some {| m_string := m_string tk; m_flags := m_flags tk;
              m_line_num := m_line_num tk; m_lines_crossed := m_lines_crossed tk;
              m_type := m_type tk; m_values_valid := true;
              m_u64_value := u; m_double_value := d |}
  | None => None
  end.

(** The accessors are [const] but refresh the mutable cache: they return
    the value together with the token as it is after the call. *)
Definition get_value_u64 (tk : t) : option (Z * t) :=
  if negb (is_number tk) && negb (is_boolean tk) then Some (0, tk)
  else if negb (m_values_valid tk) then
    match update_cached_values tk with
    | Some tk' => Some (m_u64_value tk', tk')
    | None => None
    end
  else Some (m_u64_value tk, tk).

Definition get_value_double (tk : t) : option (double * t) :=
  if negb (is_number tk) && negb (is_boolean tk) then Some (dbl.zero, tk)
  else if negb (m_values_valid tk) then
    match update_cached_values tk with
    | Some tk' => Some (m_double_value tk', tk')
    | None => None
    end
  else Some (m_double_value tk, tk).

Definition as_bool (tk : t) : option (bool * t) :=
  match get_value_u64 tk with
  | Some (v, tk') => Some (negb (v =? 0), tk')
  | None => None
  end.

Definition as_double (tk : t) : option (double * t) := get_value_double tk.

Definition as_int32 (tk : t) : option (Z * t) :=
  match get_value_u64 tk with Some (v, tk') => Some (i32 v, tk') | None => None end.

Definition as_int64 (tk : t) : option (Z * t) :=
  match get_value_u64 tk with Some (v, tk') => Some (i64 v, tk') | None => None end.

Definition as_uint32 (tk : t) : option (Z * t) :=
  match get_value_u64 tk with Some (v, tk') => Some (u32 v, tk') | None => None end.

Definition as_uint64 (tk : t) : option (Z * t) := get_value_u64 tk.

(** *** Trimming *)

Definition is_blank (c : ascii) : bool :=
  (c =? " ")%char || (c =? "009")%char || (c =? "013")%char ||
  (c =? "010")%char || (c =? "011")%char || (c =? "012")%char.

Fixpoint drop_blank (s : list ascii) : list ascii :=
  match s with
  | [] => []
  | c :: s' => if is_blank c then drop_blank s' else s
  end.

(** [lexer::ltrim_string], [lexer::rtrim_string], [lexer::trim_string]. *)
Definition ltrim_string (s : list ascii) : list ascii := drop_blank s.
Definition rtrim_string (s : list ascii) : list ascii := rev (drop_blank (rev s)).
Definition trim_string (s : list ascii) : list ascii := ltrim_string (rtrim_string s).

(** [token trim() const]: a copy of the token whose [m_string] member is
    trimmed in place. *)
Definition trim (tk : t) : t := with_string (trim_string (m_string tk)) tk.

End token.

Abbreviation token := token.t.


(** ** [lexer] *)

Module lexer.

(** Miscellaneous lexing flags. *)
Module flags.
Definition no_errors                     : Z := Z.shiftl 1 0.
Definition no_warnings                   : Z := Z.shiftl 1 1.
Definition no_fatal_errors               : Z := Z.shiftl 1 2.
Definition no_string_concat              : Z := Z.shiftl 1 3.
Definition no_string_escape_chars        : Z := Z.shiftl 1 4.
Definition allow_path_names              : Z := Z.shiftl 1 5.
Definition allow_number_names            : Z := Z.shiftl 1 6.
Definition allow_ip_addresses            : Z := Z.shiftl 1 7.
Definition allow_float_exceptions        : Z := Z.shiftl 1 8.
Definition allow_multi_char_literals     : Z := Z.shiftl 1 9.
Definition allow_backslash_string_concat : Z := Z.shiftl 1 10.
Definition only_strings                  : Z := Z.shiftl 1 11.
End flags.

(** *** Punctuation tables *)

(** Tags for the C/C++ punctuation set ([enum class punctuation_id]). *)
Module punctuation_id.
Definition none : Z := 0.
Definition assign : Z := 1.
Definition add : Z := 2.
Definition sub : Z := 3.
Definition mul : Z := 4.
Definition div : Z := 5.
Definition mod_ : Z := 6. (* [mod] is reserved *)
Definition rshift : Z := 7.
Definition lshift : Z := 8.
Definition add_assign : Z := 9.
Definition sub_assign : Z := 10.
Definition mul_assign : Z := 11.
Definition div_assign : Z := 12.
Definition mod_assign : Z := 13.
Definition rshift_assign : Z := 14.
Definition lshift_assign : Z := 15.
Definition logic_and : Z := 16.
Definition logic_or : Z := 17.
Definition logic_not : Z := 18.
Definition logic_eq : Z := 19.
Definition logic_not_eq : Z := 20.
Definition logic_greater : Z := 21.
Definition logic_less : Z := 22.
Definition logic_greater_eq : Z := 23.
Definition logic_less_eq : Z := 24.
Definition plus_plus : Z := 25.
Definition minus_minus : Z := 26.
Definition bitwise_and : Z := 27.
Definition bitwise_or : Z := 28.
Definition bitwise_xor : Z := 29.
Definition bitwise_not : Z := 30.
Definition bitwise_and_assign : Z := 31.
Definition bitwise_or_assign : Z := 32.
Definition bitwise_xor_assign : Z := 33.
Definition dot : Z := 34.
Definition arrow : Z := 35.
Definition colon_colon : Z := 36.
Definition dot_star : Z := 37.
Definition comma : Z := 38.
Definition semicolon : Z := 39.
Definition colon : Z := 40.
Definition question_mark : Z := 41.
Definition ellipsis : Z := 42.
Definition backslash : Z := 43.
Definition open_parentheses : Z := 44.
Definition close_parentheses : Z := 45.
Definition open_bracket : Z := 46.
Definition close_bracket : Z := 47.
Definition open_curly_bracket : Z := 48.
Definition close_curly_bracket : Z := 49.
Definition preprocessor : Z := 50.
Definition preprocessor_merge : Z := 51.
Definition dollar_sign : Z := 52.
End punctuation_id.

(** [punctuation_def]: [str = None] is the null pointer of the
    [punctuation_id::none] entry. *)
Record punctuation_def := mk_punct {
  str : option (list ascii);
  id  : Z
}.

(** [std::strlen(punct.str)]. *)
Definition strlen (d : punctuation_def) : nat :=
  match str d with
  | Some s => length (c_str s)
  | None => 0%nat
  end.

(** [static_cast<unsigned>(c)] used as an array index. *)
Definition char_index (c : ascii) : nat := Z.to_nat (u32 (char_val c)).

(** [str[0]] of a C string. *)
Definition first_char (s : list ascii) : ascii := nth 0 (c_str s) NUL.

(** The shared table pointers; [punct_table_index_type] entries are
    [int16_t], with [-1] marking free entries. Reading outside an array is
    undefined in the source and yields [-1] here; writing outside leaves
    the array unchanged. *)
Record punct_tables := mk_tables {
  m_punctuations       : list punctuation_def;
  m_punctuations_table : list Z;
  m_punctuations_next  : list Z;
  m_punctuations_size  : nat
}.

Definition rd (a : list Z) (i : nat) : Z := nth i a (-1).

Definition punct_at (ps : list punctuation_def) (n : Z) : punctuation_def :=
  nth (Z.to_nat n) ps (mk_punct None 0).

(** The chain walk of [set_punctuation_tables]:
    [for (n = ...; n >= 0; n = next[n]) { if (strlen(punct[n]) < strlen(new)) break; last = n; }].
    Returns [n] and [last_punct_id] at the exit of the loop. *)
Fixpoint find_shorter (fuel : nat) (ps : list punctuation_def) (next : list Z)
    (new_len : nat) (n last_punct_id : Z) : option (Z * Z) :=
  if n <? 0 then Some (n, last_punct_id)
  else
    match fuel with
    | O => None
    | S fuel' =>
        if (strlen (punct_at ps n) <? new_len)%nat then Some (n, last_punct_id)
        else find_shorter fuel' ps next new_len (rd next (Z.to_nat n)) n
    end.

(** One iteration of the outer loop, for entry [i]. *)
Definition insert_punct (ps : list punctuation_def) (i : nat)
    (tabs : list Z * list Z) : option (list Z * list Z) :=
  let '(table, next) := tabs in
  let new_punct := nth i ps (mk_punct None 0) in
  match str new_punct with
  | None => Some (table, next)
  | Some s =>
      let c := char_index (first_char s) in
      match find_shorter (length ps) ps next (strlen new_punct) (rd table c) (-1) with
      | None => None
      | Some (n, last_punct_id) =>
          (* [n >= 0]: left the walk by [break], in front of entry [n];
             [n < 0]: reached the tail. *)
          let next1 := if 0 <=? n then <[i := n]> next else <[i := -1]> next in
          if 0 <=? last_punct_id
          then Some (table, <[Z.to_nat last_punct_id := Z.of_nat i]> next1)
          else Some (<[c := Z.of_nat i]> table, next1)
      end
  end.

Fixpoint insert_puncts (ps : list punctuation_def) (idxs : list nat)
    (tabs : list Z * list Z) : option (list Z * list Z) :=
  match idxs with
  | [] => Some tabs
  | i :: idxs' =>
      match insert_punct ps i tabs with
      | Some tabs' => insert_puncts ps idxs' tabs'
      | None => None
      end
  end.

(** [lexer::set_punctuation_tables]: [None] only if a chain walk does not
    end within [punctuations_size] steps. *)
Definition set_punctuation_tables (punctuations : list punctuation_def)
    : option punct_tables :=
  let size := length punctuations in
  match insert_puncts punctuations (seq 0 size)
          (replicate 256 (-1), replicate size (-1)) with
  | Some (table, next) =>
      Some {| m_punctuations := punctuations; m_punctuations_table := table;
              m_punctuations_next := next; m_punctuations_size := size |}
  | None => None
  end.

Definition default_punctuations : list punctuation_def :=
  [ mk_punct None                 punctuation_id.none;
    mk_punct (Some (chars "="))   punctuation_id.assign;
    mk_punct (Some (chars "+"))   punctuation_id.add;
    mk_punct (Some (chars "-"))   punctuation_id.sub;
    mk_punct (Some (chars "*"))   punctuation_id.mul;
    mk_punct (Some (chars "/"))   punctuation_id.div;
    mk_punct (Some (chars "%"))   punctuation_id.mod_;
    mk_punct (Some (chars ">>"))  punctuation_id.rshift;
    mk_punct (Some (chars "<<"))  punctuation_id.lshift;
    mk_punct (Some (chars "+="))  punctuation_id.add_assign;
    mk_punct (Some (chars "-="))  punctuation_id.sub_assign;
    mk_punct (Some (chars "*="))  punctuation_id.mul_assign;
    mk_punct (Some (chars "/="))  punctuation_id.div_assign;
    mk_punct (Some (chars "%="))  punctuation_id.mod_assign;
    mk_punct (Some (chars ">>=")) punctuation_id.rshift_assign;
    mk_punct (Some (chars "<<=")) punctuation_id.lshift_assign;
    mk_punct (Some (chars "&&"))  punctuation_id.logic_and;
    mk_punct (Some (chars "||"))  punctuation_id.logic_or;
    mk_punct (Some (chars "!"))   punctuation_id.logic_not;
    mk_punct (Some (chars "=="))  punctuation_id.logic_eq;
    mk_punct (Some (chars "!="))  punctuation_id.logic_not_eq;
    mk_punct (Some (chars ">"))   punctuation_id.logic_greater;
    mk_punct (Some (chars "<"))   punctuation_id.logic_less;
    mk_punct (Some (chars ">="))  punctuation_id.logic_greater_eq;
    mk_punct (Some (chars "<="))  punctuation_id.logic_less_eq;
    mk_punct (Some (chars "++"))  punctuation_id.plus_plus;
    mk_punct (Some (chars "--"))  punctuation_id.minus_minus;
    mk_punct (Some (chars "&"))   punctuation_id.bitwise_and;
    mk_punct (Some (chars "|"))   punctuation_id.bitwise_or;
    mk_punct (Some (chars "^"))   punctuation_id.bitwise_xor;
    mk_punct (Some (chars "~"))   punctuation_id.bitwise_not;
    mk_punct (Some (chars "&="))  punctuation_id.bitwise_and_assign;
    mk_punct (Some (chars "|="))  punctuation_id.bitwise_or_assign;
    mk_punct (Some (chars "^="))  punctuation_id.bitwise_xor_assign;
    mk_punct (Some (chars "."))   punctuation_id.dot;
    mk_punct (Some (chars "->"))  punctuation_id.arrow;
    mk_punct (Some (chars "::"))  punctuation_id.colon_colon;
    mk_punct (Some (chars ".*"))  punctuation_id.dot_star;
    mk_punct (Some (chars ","))   punctuation_id.comma;
    mk_punct (Some (chars ";"))   punctuation_id.semicolon;
    mk_punct (Some (chars ":"))   punctuation_id.colon;
    mk_punct (Some (chars "?"))   punctuation_id.question_mark;
    mk_punct (Some (chars "...")) punctuation_id.ellipsis;
    mk_punct (Some (chars "\"))   punctuation_id.backslash;
    mk_punct (Some (chars "("))   punctuation_id.open_parentheses;
    mk_punct (Some (chars ")"))   punctuation_id.close_parentheses;
    mk_punct (Some (chars "["))   punctuation_id.open_bracket;
    mk_punct (Some (chars "]"))   punctuation_id.close_bracket;
    mk_punct (Some (chars "{"))   punctuation_id.open_curly_bracket;
    mk_punct (Some (chars "}"))   punctuation_id.close_curly_bracket;
    mk_punct (Some (chars "#"))   punctuation_id.preprocessor;
    mk_punct (Some (chars "##"))  punctuation_id.preprocessor_merge;
    mk_punct (Some (chars "$"))   punctuation_id.dollar_sign ].

(** Walking a chain: the indices met from the head [n] on. *)
Fixpoint chain_from (fuel : nat) (next : list Z) (n : Z) : list Z :=
  if n <? 0 then []
  else
    match fuel with
    | O => []
    | S fuel' => n :: chain_from fuel' next (rd next (Z.to_nat n))
    end.

(** The chain of candidate punctuations for the first character [c]. *)
Definition chain (pt : punct_tables) (c : ascii) : list Z :=
  chain_from (m_punctuations_size pt) (m_punctuations_next pt)
    (rd (m_punctuations_table pt) (char_index c)).


(** *** Scanner state *)

(** A call of [error_callbacks::error] or [error_callbacks::warning]: the
    message with the file name and line it is tagged with. *)
Record report := mk_report {
  r_is_error : bool;
  r_file     : String.string;
  r_line     : Z;
  r_message  : String.string;
  r_fatal    : bool
}.

(** Instance data. Pointers are offsets from [m_buffer_head_ptr]; the two
    white space pointers may be null ([None]). *)
Record t := mk {
  m_buffer               : list ascii;  (* contents at [m_buffer_head_ptr], without the final NUL *)
  m_script_ptr           : nat;  (* current pointer in the script *)
  m_end_ptr              : nat;  (* pointer to the end of the script *)
  m_last_script_ptr      : nat;  (* script pointer before reading the last token *)
  m_whitespace_start_ptr : option nat;  (* start of last white space *)
  m_whitespace_end_ptr   : option nat;  (* end of last white space *)
  m_flags                : Z;  (* lexer::flags ORed together or zero *)
  m_last_line_num        : Z;  (* line number before reading a token *)
  m_line_num             : Z;  (* current line in script *)
  m_script_length        : Z;  (* length of the script in characters *)
  m_error_count          : Z;  (* bumped by error(), even if errors are suppressed *)
  m_warn_count           : Z;  (* bumped by warning(), even if warnings are suppressed *)
  m_leftover_token       : token;  (* available token from unget_token() *)
  m_filename             : String.string;  (* filename of the script being scanned *)
  m_token_available      : bool;  (* set by unget_token() *)
  m_initialized          : bool;  (* set when a script is loaded *)
  m_allocated            : bool;  (* true if dynamic memory was allocated *)
  m_reports              : list report  (* what the error callbacks have received, latest first *)
}.

(** Field updates. *)
Definition with_script_ptr (v : nat) (L : t) : t :=
  {| m_buffer := m_buffer L;
     m_script_ptr := v;
     m_end_ptr := m_end_ptr L;
     m_last_script_ptr := m_last_script_ptr L;
     m_whitespace_start_ptr := m_whitespace_start_ptr L;
     m_whitespace_end_ptr := m_whitespace_end_ptr L;
     m_flags := m_flags L;
     m_last_line_num := m_last_line_num L;
     m_line_num := m_line_num L;
     m_script_length := m_script_length L;
     m_error_count := m_error_count L;
     m_warn_count := m_warn_count L;
     m_leftover_token := m_leftover_token L;
     m_filename := m_filename L;
     m_token_available := m_token_available L;
     m_initialized := m_initialized L;
     m_allocated := m_allocated L;
     m_reports := m_reports L |}.

Definition with_last_script_ptr (v : nat) (L : t) : t :=
  {| m_buffer := m_buffer L;
     m_script_ptr := m_script_ptr L;
     m_end_ptr := m_end_ptr L;
     m_last_script_ptr := v;
     m_whitespace_start_ptr := m_whitespace_start_ptr L;
     m_whitespace_end_ptr := m_whitespace_end_ptr L;
     m_flags := m_flags L;
     m_last_line_num := m_last_line_num L;
     m_line_num := m_line_num L;
     m_script_length := m_script_length L;
     m_error_count := m_error_count L;
     m_warn_count := m_warn_count L;
     m_leftover_token := m_leftover_token L;
     m_filename := m_filename L;
     m_token_available := m_token_available L;
     m_initialized := m_initialized L;
     m_allocated := m_allocated L;
     m_reports := m_reports L |}.

Definition with_whitespace_start_ptr (v : option nat) (L : t) : t :=
  {| m_buffer := m_buffer L;
     m_script_ptr := m_script_ptr L;
     m_end_ptr := m_end_ptr L;
     m_last_script_ptr := m_last_script_ptr L;
     m_whitespace_start_ptr := v;
     m_whitespace_end_ptr := m_whitespace_end_ptr L;
     m_flags := m_flags L;
     m_last_line_num := m_last_line_num L;
     m_line_num := m_line_num L;
     m_script_length := m_script_length L;
     m_error_count := m_error_count L;
     m_warn_count := m_warn_count L;
     m_leftover_token := m_leftover_token L;
     m_filename := m_filename L;
     m_token_available := m_token_available L;
     m_initialized := m_initialized L;
     m_allocated := m_allocated L;
     m_reports := m_reports L |}.

Definition with_whitespace_end_ptr (v : option nat) (L : t) : t :=
  {| m_buffer := m_buffer L;
     m_script_ptr := m_script_ptr L;
     m_end_ptr := m_end_ptr L;
     m_last_script_ptr := m_last_script_ptr L;
     m_whitespace_start_ptr := m_whitespace_start_ptr L;
     m_whitespace_end_ptr := v;
     m_flags := m_flags L;
     m_last_line_num := m_last_line_num L;
     m_line_num := m_line_num L;
     m_script_length := m_script_length L;
     m_error_count := m_error_count L;
     m_warn_count := m_warn_count L;
     m_leftover_token := m_leftover_token L;
     m_filename := m_filename L;
     m_token_available := m_token_available L;
     m_initialized := m_initialized L;
     m_allocated := m_allocated L;
     m_reports := m_reports L |}.

Definition with_flags (v : Z) (L : t) : t :=
  {| m_buffer := m_buffer L;
     m_script_ptr := m_script_ptr L;
     m_end_ptr := m_end_ptr L;
     m_last_script_ptr := m_last_script_ptr L;
     m_whitespace_start_ptr := m_whitespace_start_ptr L;
     m_whitespace_end_ptr := m_whitespace_end_ptr L;
     m_flags := v;
     m_last_line_num := m_last_line_num L;
     m_line_num := m_line_num L;
     m_script_length := m_script_length L;
     m_error_count := m_error_count L;
     m_warn_count := m_warn_count L;
     m_leftover_token := m_leftover_token L;
     m_filename := m_filename L;
     m_token_available := m_token_available L;
     m_initialized := m_initialized L;
     m_allocated := m_allocated L;
     m_reports := m_reports L |}.

Definition with_last_line_num (v : Z) (L : t) : t :=
  {| m_buffer := m_buffer L;
     m_script_ptr := m_script_ptr L;
     m_end_ptr := m_end_ptr L;
     m_last_script_ptr := m_last_script_ptr L;
     m_whitespace_start_ptr := m_whitespace_start_ptr L;
     m_whitespace_end_ptr := m_whitespace_end_ptr L;
     m_flags := m_flags L;
     m_last_line_num := v;
     m_line_num := m_line_num L;
     m_script_length := m_script_length L;
     m_error_count := m_error_count L;
     m_warn_count := m_warn_count L;
     m_leftover_token := m_leftover_token L;
     m_filename := m_filename L;
     m_token_available := m_token_available L;
     m_initialized := m_initialized L;
     m_allocated := m_allocated L;
     m_reports := m_reports L |}.

Definition with_line_num (v : Z) (L : t) : t :=
  {| m_buffer := m_buffer L;
     m_script_ptr := m_script_ptr L;
     m_end_ptr := m_end_ptr L;
     m_last_script_ptr := m_last_script_ptr L;
     m_whitespace_start_ptr := m_whitespace_start_ptr L;
     m_whitespace_end_ptr := m_whitespace_end_ptr L;
     m_flags := m_flags L;
     m_last_line_num := m_last_line_num L;
     m_line_num := v;
     m_script_length := m_script_length L;
     m_error_count := m_error_count L;
     m_warn_count := m_warn_count L;
     m_leftover_token := m_leftover_token L;
     m_filename := m_filename L;
     m_token_available := m_token_available L;
     m_initialized := m_initialized L;
     m_allocated := m_allocated L;
     m_reports := m_reports L |}.

Definition with_error_count (v : Z) (L : t) : t :=
  {| m_buffer := m_buffer L;
     m_script_ptr := m_script_ptr L;
     m_end_ptr := m_end_ptr L;
     m_last_script_ptr := m_last_script_ptr L;
     m_whitespace_start_ptr := m_whitespace_start_ptr L;
     m_whitespace_end_ptr := m_whitespace_end_ptr L;
     m_flags := m_flags L;
     m_last_line_num := m_last_line_num L;
     m_line_num := m_line_num L;
     m_script_length := m_script_length L;
     m_error_count := v;
     m_warn_count := m_warn_count L;
     m_leftover_token := m_leftover_token L;
     m_filename := m_filename L;
     m_token_available := m_token_available L;
     m_initialized := m_initialized L;
     m_allocated := m_allocated L;
     m_reports := m_reports L |}.

Definition with_warn_count (v : Z) (L : t) : t :=
  {| m_buffer := m_buffer L;
     m_script_ptr := m_script_ptr L;
     m_end_ptr := m_end_ptr L;
     m_last_script_ptr := m_last_script_ptr L;
     m_whitespace_start_ptr := m_whitespace_start_ptr L;
     m_whitespace_end_ptr := m_whitespace_end_ptr L;
     m_flags := m_flags L;
     m_last_line_num := m_last_line_num L;
     m_line_num := m_line_num L;
     m_script_length := m_script_length L;
     m_error_count := m_error_count L;
     m_warn_count := v;
     m_leftover_token := m_leftover_token L;
     m_filename := m_filename L;
     m_token_available := m_token_available L;
     m_initialized := m_initialized L;
     m_allocated := m_allocated L;
     m_reports := m_reports L |}.

Definition with_leftover_token (v : token) (L : t) : t :=
  {| m_buffer := m_buffer L;
     m_script_ptr := m_script_ptr L;
     m_end_ptr := m_end_ptr L;
     m_last_script_ptr := m_last_script_ptr L;
     m_whitespace_start_ptr := m_whitespace_start_ptr L;
     m_whitespace_end_ptr := m_whitespace_end_ptr L;
     m_flags := m_flags L;
     m_last_line_num := m_last_line_num L;
     m_line_num := m_line_num L;
     m_script_length := m_script_length L;
     m_error_count := m_error_count L;
     m_warn_count := m_warn_count L;
     m_leftover_token := v;
     m_filename := m_filename L;
     m_token_available := m_token_available L;
     m_initialized := m_initialized L;
     m_allocated := m_allocated L;
     m_reports := m_reports L |}.

Definition with_token_available (v : bool) (L : t) : t :=
  {| m_buffer := m_buffer L;
     m_script_ptr := m_script_ptr L;
     m_end_ptr := m_end_ptr L;
     m_last_script_ptr := m_last_script_ptr L;
     m_whitespace_start_ptr := m_whitespace_start_ptr L;
     m_whitespace_end_ptr := m_whitespace_end_ptr L;
     m_flags := m_flags L;
     m_last_line_num := m_last_line_num L;
     m_line_num := m_line_num L;
     m_script_length := m_script_length L;
     m_error_count := m_error_count L;
     m_warn_count := m_warn_count L;
     m_leftover_token := m_leftover_token L;
     m_filename := m_filename L;
     m_token_available := v;
     m_initialized := m_initialized L;
     m_allocated := m_allocated L;
     m_reports := m_reports L |}.

Definition with_reports (v : list report) (L : t) : t :=
  {| m_buffer := m_buffer L;
     m_script_ptr := m_script_ptr L;
     m_end_ptr := m_end_ptr L;
     m_last_script_ptr := m_last_script_ptr L;
     m_whitespace_start_ptr := m_whitespace_start_ptr L;
     m_whitespace_end_ptr := m_whitespace_end_ptr L;
     m_flags := m_flags L;
     m_last_line_num := m_last_line_num L;
     m_line_num := m_line_num L;
     m_script_length := m_script_length L;
     m_error_count := m_error_count L;
     m_warn_count := m_warn_count L;
     m_leftover_token := m_leftover_token L;
     m_filename := m_filename L;
     m_token_available := m_token_available L;
     m_initialized := m_initialized L;
     m_allocated := m_allocated L;
     m_reports := v |}.

(** *** Calls as state transformers *)

(** How a call ends: it returns, or the default error callback throws
    [lexer::exception] (on a fatal error), or a loop of the model ran out
    of its iteration bound. *)
Inductive outcome (A : Type) : Type :=
| Ret (a : A)
| Thrown
| OutOfFuel.
Arguments Ret {A} a.
Arguments Thrown {A}.
Arguments OutOfFuel {A}.

Definition M (A : Type) : Type := t -> outcome A * t.

Definition ret {A} (a : A) : M A := fun L => (Ret a, L).

Definition bind {A B} (m : M A) (k : A -> M B) : M B :=
  fun L =>
    match m L with
    | (Ret a, L') => k a L'
    | (Thrown, L') => (Thrown, L')
    | (OutOfFuel, L') => (OutOfFuel, L')
    end.

Definition gets {A} (f : t -> A) : M A := fun L => (Ret (f L), L).
Definition modify (f : t -> t) : M unit := fun L => (Ret tt, f L).
Definition out_of_fuel {A} : M A := fun L => (OutOfFuel, L).

Notation "'let*' x ':=' m 'in' k" := (bind m (fun x => k))
  (at level 10, x pattern, m at level 100, k at level 200).

(** [m_script_ptr[k]]. *)
Definition cur (L : t) (k : nat) : ascii := nth (m_script_ptr L + k) (m_buffer L) NUL.
Definition peek (k : nat) : M ascii := gets (fun L => cur L k).
(** [*(m_script_ptr - 1)]. *)
Definition peek_prev : M ascii :=
  gets (fun L => nth (m_script_ptr L - 1) (m_buffer L) NUL).
(** The characters from [m_script_ptr] up to the end of the buffer. *)
Definition remaining : M (list ascii) :=
  gets (fun L => skipn (m_script_ptr L) (m_buffer L)).
(** [m_script_ptr += k]. *)
Definition advance (k : nat) : M unit :=
  modify (fun L => with_script_ptr (m_script_ptr L + k) L).
(** [--m_script_ptr]. *)
Definition retreat : M unit :=
  modify (fun L => with_script_ptr (m_script_ptr L - 1) L).
(** [++m_line_num]. *)
Definition next_line : M unit :=
  modify (fun L => with_line_num (u32 (m_line_num L + 1)) L).
(** [m_flags & bit]. *)
Definition flag (bit : Z) : M bool := gets (fun L => has_flag (m_flags L) bit).
(** Iteration bound for the loops over the script. *)
Definition script_fuel : M nat := gets (fun L => S (length (m_buffer L))).

(** *** Error handling *)

(** [lexer::error] with the default callbacks: the counter is bumped first;
    unless suppressed the message reaches the callback, which throws when
    the error is fatal. *)
Definition error (message : String.string) : M bool :=
  fun L =>
    let L1 := with_error_count (u32 (m_error_count L + 1)) L in
    if has_flag (m_flags L1) flags.no_errors then (Ret false, L1)
    else
      let is_fatal_error := negb (has_flag (m_flags L1) flags.no_fatal_errors) in
      let L2 := with_reports
                  (mk_report true (m_filename L1) (m_last_line_num L1) message is_fatal_error
                     :: m_reports L1) L1 in
      if is_fatal_error then (Thrown, L2) else (Ret false, L2).

(** [lexer::warning]. *)
Definition warning (message : String.string) : M unit :=
  fun L =>
    let L1 := with_warn_count (u32 (m_warn_count L + 1)) L in
    if has_flag (m_flags L1) flags.no_warnings then (Ret tt, L1)
    else
      (Ret tt,
       with_reports
         (mk_report false (m_filename L1) (m_last_line_num L1) message false
            :: m_reports L1) L1).

Definition get_error_count (L : t) : Z := m_error_count L.
Definition get_warning_count (L : t) : Z := m_warn_count L.
Definition get_line_number (L : t) : Z := m_line_num L.
Definition get_script_offset (L : t) : nat := m_script_ptr L.
Definition is_initialized (L : t) : bool := m_initialized L.

(** *** White space and comments *)

Definition newline : ascii := "010"%char.
Definition dquote : ascii := "034"%char.

(** [while ( *p <= ' ') { if (!*p) return false; if ( *p == '\n') ++line; ++p; }];
    [true] when the loop is left at a character above the space. *)
Fixpoint skip_blanks (fuel : nat) : M bool :=
  match fuel with
  | O => out_of_fuel
  | S fuel' =>
      let* c := peek 0 in
      if char_val c <=? 32 then
        if Ascii.eqb c NUL then ret false
        else
          let* _ := (if Ascii.eqb c newline then next_line else ret tt) in
          let* _ := advance 1 in
          skip_blanks fuel'
      else ret true
  end.

(** [do { ++p; if (!*p) return false; } while ( *p != '\n')];
    [true] when the newline was reached. *)
Fixpoint skip_line_comment (fuel : nat) : M bool :=
  match fuel with
  | O => out_of_fuel
  | S fuel' =>
      let* _ := advance 1 in
      let* c := peek 0 in
      if Ascii.eqb c NUL then ret false
      else if Ascii.eqb c newline then ret true
      else skip_line_comment fuel'
  end.

(** The [for (;;)] over a C-style comment; [true] when left by [break]. *)
Fixpoint skip_block_comment (fuel : nat) : M bool :=
  match fuel with
  | O => out_of_fuel
  | S fuel' =>
      let* _ := advance 1 in
      let* c := peek 0 in
      if Ascii.eqb c NUL then ret false
      else if Ascii.eqb c newline then
        let* _ := next_line in skip_block_comment fuel'
      else if Ascii.eqb c "/" then
        let* p := peek_prev in
        if Ascii.eqb p "*" then ret true
        else
          let* n := peek 1 in
          let* _ := (if Ascii.eqb n "*"
                     then warning "nested C-style, multi-line comment!"
                     else ret tt) in
          skip_block_comment fuel'
      else skip_block_comment fuel'
  end.

Fixpoint read_whitespace_loop (fuel : nat) : M bool :=
  match fuel with
  | O => out_of_fuel
  | S fuel' =>
      let* n := script_fuel in
      let* more := skip_blanks n in
      if negb more then ret false
      else
        let* c := peek 0 in
        if Ascii.eqb c "/" then
          let* c1 := peek 1 in
          if Ascii.eqb c1 "/" then
            (* C++-style comments *)
            let* _ := advance 1 in
            let* more := skip_line_comment n in
            if negb more then ret false
            else
              let* _ := next_line in
              let* _ := advance 1 in
              let* c := peek 0 in
              if Ascii.eqb c NUL then ret false
              else read_whitespace_loop fuel'
          else if Ascii.eqb c1 "*" then
            (* C-style/multi-line comments *)
            let* _ := advance 1 in
            let* more := skip_block_comment n in
            if negb more then ret false
            else
              let* _ := advance 1 in
              let* c := peek 0 in
              if Ascii.eqb c NUL then ret false
              else
                let* _ := advance 1 in
                let* c := peek 0 in
                if Ascii.eqb c NUL then ret false
                else read_whitespace_loop fuel'
          else ret true
        else ret true
  end.

(** [lexer::internal_read_whitespace]. *)
Definition internal_read_whitespace : M bool :=
  let* n := script_fuel in read_whitespace_loop n.

(** *** Runs of characters appended to a token *)

(** The longest prefix of [rest] whose characters satisfy [p]. *)
Fixpoint span (p : ascii -> bool) (rest : list ascii) : list ascii :=
  match rest with
  | c :: rest' => if p c then c :: span p rest' else []
  | [] => []
  end.

Definition append_run (run : list ascii) (tok : token) : token :=
  fold_left (fun tk c => token.append c tk) run tok.

(** [while (p(c1)) { out_token->append(c1); c1 = *(++m_script_ptr); }],
    entered with [c1 == *m_script_ptr]; every [p] used rejects the NUL. *)
Definition append_while (p : ascii -> bool) (tok : token) : M token :=
  let* rest := remaining in
  let run := span p rest in
  let* _ := advance (length run) in
  ret (append_run run tok).

(** [out_token->append( *m_script_ptr++)]. *)
Definition append_cur (tok : token) : M token :=
  let* c := peek 0 in
  let* _ := advance 1 in
  ret (token.append c tok).

(** *** Escape characters *)

(** The single-character cases of the [switch]. *)
Definition simple_escape (c : ascii) : option Z :=
  if Ascii.eqb c "0" then Some 0          (* '\0' *)
  else if Ascii.eqb c "n" then Some 10    (* '\n' *)
  else if Ascii.eqb c "r" then Some 13    (* '\r' *)
  else if Ascii.eqb c "t" then Some 9     (* '\t' *)
  else if Ascii.eqb c "v" then Some 11    (* '\v' *)
  else if Ascii.eqb c "b" then Some 8     (* '\b' *)
  else if Ascii.eqb c "f" then Some 12    (* '\f' *)
  else if Ascii.eqb c "a" then Some 7     (* '\a' *)
  else if Ascii.eqb c "\" then Some 92
  else if Ascii.eqb c "'" then Some 39
  else if Ascii.eqb c dquote then Some 34
  else if Ascii.eqb c "?" then Some 63
  else None.

(** The hexadecimal digit loop, [val = (val << 4) + c] on [int]; returns
    [val] and the number of digits stepped over. *)
Fixpoint scan_hex_escape (rest : list ascii) (val : Z) : Z * nat :=
  match rest with
  | [] => (val, 0%nat)
  | c :: rest' =>
      let digit :=
        if is_digit c then Some (char_val c - 48)
        else if is_upper c then Some (char_val c - 65 + 10)
        else if is_lower c then Some (char_val c - 97 + 10)
        else None in
      match digit with
      | Some d =>
          let '(v, n) := scan_hex_escape rest' (i32 (i32 (Z.shiftl val 4) + d)) in
          (v, S n)
      | None => (val, 0%nat)
      end
  end.

(** The decimal digit loop, [val = val * 10 + c] on [int]. *)
Fixpoint scan_dec_escape (rest : list ascii) (val : Z) : Z * nat :=
  match rest with
  | [] => (val, 0%nat)
  | c :: rest' =>
      if is_digit c then
        let '(v, n) := scan_dec_escape rest' (i32 (i32 (val * 10) + (char_val c - 48))) in
        (v, S n)
      else (val, 0%nat)
  end.

(** [lexer::internal_read_escape_character]; the second component is
    [*out_char] (left as NUL when the call fails). *)
Definition internal_read_escape_character : M (bool * ascii) :=
  let* _ := advance 1 in (* Step over the leading '\\' *)
  let* c0 := peek 0 in
  match simple_escape c0 with
  | Some c =>
      let* _ := advance 1 in
      ret (true, char_of_int c)
  | None =>
      if Ascii.eqb c0 "x" then
        let* _ := advance 1 in
        let* rest := remaining in
        let '(val, n) := scan_hex_escape rest 0 in
        let* _ := advance n in
        let* _ := retreat in
        let* val :=
          (if 255 <? val then
             let* _ := warning "hexadecimal value in escape character is too big! Truncating to 0xFF..." in
             ret 255
           else ret val) in
        let* _ := advance 1 in
        ret (true, char_of_int val)
      else
        (* NOTE: decimal ASCII code, NOT octal! *)
        if (char_val c0 <? 48) || (57 <? char_val c0) then
          let* b := error "unknown/invalid escape char!" in
          ret (b, NUL)
        else
          let* rest := remaining in
          let '(val, n) := scan_dec_escape rest 0 in
          let* _ := advance n in
          let* _ := retreat in
          let* val :=
            (if 255 <? val then
               let* _ := warning "value in escape character is too big! Truncating to 0xFF..." in
               ret 255
             else ret val) in
          let* _ := advance 1 in
          ret (true, char_of_int val)
  end.

(** *** Strings and character literals *)

(** How an iteration of the string loop goes on. *)
Inductive control := Go | Break | Fail.

Definition restore (script_ptr : nat) (line_num : Z) : M unit :=
  modify (fun L => with_line_num line_num (with_script_ptr script_ptr L)).

(** The [for (;;)] of [internal_read_string]; the boolean tells whether
    the loop was left by [break] ([true]) or by [return false]. *)
Fixpoint read_string_loop (fuel : nat) (quote : ascii) (tok : token) : M (bool * token) :=
  match fuel with
  | O => out_of_fuel
  | S fuel' =>
      let* c := peek 0 in
      let* no_escape := flag flags.no_string_escape_chars in
      if Ascii.eqb c "\" && negb no_escape then
        (* an escape character, and escape characters are allowed *)
        let* r := internal_read_escape_character in
        if negb (fst r) then ret (false, tok)
        else read_string_loop fuel' quote (token.append (snd r) tok)
      else if Ascii.eqb c quote then
        (* a trailing quote *)
        let* _ := advance 1 in
        let* no_concat := flag flags.no_string_concat in
        let* backslash_concat := flag flags.allow_backslash_string_concat in
        if no_concat && (negb backslash_concat || negb (Ascii.eqb quote dquote))
        then ret (true, tok)
        else
          let* tmp_script_ptr := gets m_script_ptr in
          let* tmp_line_num := gets m_line_num in
          let* ws := internal_read_whitespace in
          if negb ws then
            let* _ := restore tmp_script_ptr tmp_line_num in
            ret (true, tok)
          else
            let* ctl :=
              (if no_concat then
                 let* c := peek 0 in
                 if negb (Ascii.eqb c "\") then
                   let* _ := restore tmp_script_ptr tmp_line_num in
                   ret Break
                 else
                   let* _ := advance 1 in (* Step over the '\\' *)
                   let* ws := internal_read_whitespace in
                   let* c := peek 0 in
                   if negb ws || negb (Ascii.eqb c quote) then
                     let* _ := error "expecting string after '\' terminated line!" in
                     ret Fail
                   else ret Go
               else ret Go) in
            match ctl with
            | Break => ret (true, tok)
            | Fail => ret (false, tok)
            | Go =>
                let* c := peek 0 in
                if negb (Ascii.eqb c quote) then
                  (* no leading quote *)
                  let* _ := restore tmp_script_ptr tmp_line_num in
                  ret (true, tok)
                else
                  let* _ := advance 1 in (* Step over the new leading quote. *)
                  read_string_loop fuel' quote tok
            end
      else
        if Ascii.eqb c NUL then
          let* b := error "missing trailing quote!" in ret (b, tok)
        else if Ascii.eqb c newline then
          let* b := error "newline inside string!" in ret (b, tok)
        else
          let* _ := advance 1 in
          read_string_loop fuel' quote (token.append c tok)
  end.

(** [lexer::internal_read_string]. *)
Definition internal_read_string (quote : ascii) (out_token : token) : M (bool * token) :=
  let tok :=
    if Ascii.eqb quote dquote
    then token.set_type token.string out_token
    else token.set_type token.literal out_token in
  let* _ := advance 1 in (* Skip leading quote *)
  let* n := script_fuel in
  let* r := read_string_loop n quote tok in
  let tok := snd r in
  if negb (fst r) then ret (false, tok)
  else
    let* multi := flag flags.allow_multi_char_literals in
    if token.type_eqb (token.get_type tok) token.literal
       && negb multi && (1 <? token.get_length tok)%nat
    then
      let* b := error "char literal is not one character long! Set 'lexer::flags::allow_multi_char_literals' to allow them." in
      ret (b, tok)
    else ret (true, tok).

(** *** Names and identifiers *)

Definition valid_name_char (c : ascii) : bool :=
  is_lower c || is_upper c || is_digit c || Ascii.eqb c "_".

Definition strings_only (c : ascii) (lex_flags : Z) : bool :=
  has_flag lex_flags flags.only_strings && Ascii.eqb c "-".

Definition allowing_path_names (c : ascii) (lex_flags : Z) : bool :=
  has_flag lex_flags flags.allow_path_names
  && (Ascii.eqb c "/" || Ascii.eqb c "\" || Ascii.eqb c ":" || Ascii.eqb c ".").

Definition name_char (lex_flags : Z) (c : ascii) : bool :=
  valid_name_char c || strings_only c lex_flags || allowing_path_names c lex_flags.

(** [lexer::internal_read_name_ident]: the [do ... while] appends the
    first character whatever it is. *)
Definition internal_read_name_ident (out_token : token) : M (bool * token) :=
  let tok := token.set_type token.identifier out_token in
  let* tok := append_cur tok in
  let* lex_flags := gets m_flags in
  let* tok := append_while (name_char lex_flags) tok in
  if token.eq_str tok (chars "true") || token.eq_str tok (chars "false")
  then ret (true, token.set_flags token.flags.boolean tok)
  else ret (true, token.set_flags 0 tok).

(** *** Numbers *)

(** [lexer::internal_check_string]. *)
Fixpoint check_string_from (L : t) (i : nat) (s : list ascii) : bool :=
  match s with
  | [] => true
  | c :: s' => Ascii.eqb (cur L i) c && check_string_from L (S i) s'
  end.

Definition internal_check_string (s : String.string) : M bool :=
  gets (fun L => check_string_from L 0 (c_str (chars s))).

Definition is_hex_digit (c : ascii) : bool :=
  is_digit c
  || ((97 <=? char_val c) && (char_val c <=? 102))
  || ((65 <=? char_val c) && (char_val c <=? 70)).

Definition is_binary_digit (c : ascii) : bool := Ascii.eqb c "0" || Ascii.eqb c "1".
Definition is_octal_digit (c : ascii) : bool := (48 <=? char_val c) && (char_val c <=? 55).
Definition is_digit_or_dot (c : ascii) : bool := is_digit c || Ascii.eqb c ".".

Definition count_dots (run : list ascii) : Z :=
  Z.of_nat (length (List.filter (fun c => Ascii.eqb c ".") run)).

(** [for (int i = 0; i < k; ++i) { out_token->append(c1); c1 = *(++m_script_ptr); }]. *)
Fixpoint append_count (k : nat) (tok : token) : M token :=
  match k with
  | O => ret tok
  | S k' => let* tok := append_cur tok in append_count k' tok
  end.

(** The "1u, 1l, 1ul, 1lu" loop, at most [k] rounds. *)
Fixpoint int_suffix (k : nat) (int_flag : Z) : M Z :=
  match k with
  | O => ret int_flag
  | S k' =>
      let* c1 := peek 0 in
      if Ascii.eqb c1 "u" || Ascii.eqb c1 "U" then
        let* _ := advance 1 in int_suffix k' token.flags.unsigned_integer
      else if Ascii.eqb c1 "l" || Ascii.eqb c1 "L" then
        let* _ := advance 1 in int_suffix k' int_flag
      else ret int_flag
  end.

(** The first half of [internal_read_number]: the digits, up to the type
    suffix. Returns the flags found so far, or [None] after an error. *)
Definition read_number_digits (tok : token) : M (option Z * token) :=
  let* c1 := peek 0 in
  let* c2 := peek 1 in
  if Ascii.eqb c1 "0" && negb (Ascii.eqb c2 ".") then
    if Ascii.eqb c2 "x" || Ascii.eqb c2 "X" then
      let* tok := append_cur tok in
      let* tok := append_cur tok in
      let* tok := append_while is_hex_digit tok in
      ret (Some (Z.lor token.flags.hexadecimal token.flags.integer), tok)
    else if Ascii.eqb c2 "b" || Ascii.eqb c2 "B" then
      let* tok := append_cur tok in
      let* tok := append_cur tok in
      let* tok := append_while is_binary_digit tok in
      ret (Some (Z.lor token.flags.binary token.flags.integer), tok)
    else
      let* tok := append_cur tok in
      let* tok := append_while is_octal_digit tok in
      ret (Some (Z.lor token.flags.octal token.flags.integer), tok)
  else
    (* Decimal integer or floating point number or even an IP address *)
    let* rest := remaining in
    let dot := count_dots (span is_digit_or_dot rest) in
    let* tok := append_while is_digit_or_dot tok in
    let* c1 := peek 0 in
    let dot := if Ascii.eqb c1 "e" && (dot =? 0) then dot + 1 else dot in
    if dot =? 1 then
      let token_flags := Z.lor token.flags.decimal token.flags.floating_point in
      if Ascii.eqb c1 "e" then
        let* tok := append_cur tok in
        let* c1 := peek 0 in
        let* tok := (if Ascii.eqb c1 "-" || Ascii.eqb c1 "+"
                     then append_cur tok else ret tok) in
        let* tok := append_while is_digit tok in
        ret (Some token_flags, tok)
      else if Ascii.eqb c1 "#" then
        let* inf := internal_check_string "INF" in
        let* ind := internal_check_string "IND" in
        let* nan := internal_check_string "NAN" in
        let* qnan := internal_check_string "QNAN" in
        let* snan := internal_check_string "SNAN" in
        let '(token_flags, c2) :=
          if inf then (Z.lor token_flags token.flags.infinite, 4%nat)
          else if ind then (Z.lor token_flags token.flags.indefinite, 4%nat)
          else if nan then (Z.lor token_flags token.flags.nan, 4%nat)
          else if qnan then (Z.lor token_flags token.flags.nan, 5%nat)
          else if snan then (Z.lor token_flags token.flags.nan, 5%nat)
          else (token_flags, 4%nat) in
        let* tok := append_count c2 tok in
        let* tok := append_while is_digit tok in
        let* allowed := flag flags.allow_float_exceptions in
        if negb allowed then
          let* _ := error (String.append "floating-point exception scanned: "
                             (string_of_list_ascii (token.as_string tok))) in
          ret (None, tok)
        else ret (Some token_flags, tok)
      else ret (Some token_flags, tok)
    else if 1 <? dot then
      let* allowed := flag flags.allow_ip_addresses in
      if negb allowed then
        let* _ := error "more than one dot in number! Set lexer::flags::allow_ip_addresses to parse IP addresses." in
        ret (None, tok)
      else if negb (dot =? 3) then
        let* _ := error "IP address should have three dots!" in
        ret (None, tok)
      else ret (Some token.flags.ip_address, tok)
    else ret (Some (Z.lor token.flags.decimal token.flags.integer), tok).

(** [lexer::internal_read_number]. *)
Definition internal_read_number (out_token : token) : M (bool * token) :=
  let* r := read_number_digits out_token in
  let tok := snd r in
  match fst r with
  | None => ret (false, tok)
  | Some token_flags =>
      let* c1 := peek 0 in
      let* r2 :=
        (if has_flag token_flags token.flags.floating_point then
           if 32 <? char_val c1 then
             if Ascii.eqb c1 "f" || Ascii.eqb c1 "F" then
               let* _ := advance 1 in
               ret (Z.lor token_flags token.flags.single_precision, tok)
             else if Ascii.eqb c1 "l" || Ascii.eqb c1 "L" then
               let* _ := advance 1 in
               ret (Z.lor token_flags token.flags.extended_precision, tok)
             else ret (Z.lor token_flags token.flags.double_precision, tok)
           else ret (Z.lor token_flags token.flags.double_precision, tok)
         else if has_flag token_flags token.flags.integer then
           let* int_flag :=
             (if 32 <? char_val c1
              then int_suffix 2 token.flags.signed_integer
              else ret token.flags.signed_integer) in
           ret (Z.lor token_flags int_flag, tok)
         else if has_flag token_flags token.flags.ip_address then
           if Ascii.eqb c1 ":" then
             let* tok := append_cur tok in
             let* tok := append_while is_digit tok in
             ret (Z.lor token_flags token.flags.ip_port, tok)
           else ret (token_flags, tok)
         else ret (token_flags, tok)) in
      let '(token_flags, tok) := r2 in
      ret (true, token.set_flags token_flags (token.set_type token.number tok))
  end.

(** *** Punctuations *)

(** The comparison loop [for (l = 0; chars[l] && m_script_ptr[l]; ++l)]
    followed by the test [!chars[l]]: the whole of [chars] was found in
    the script. *)
Fixpoint punct_match (chars rest : list ascii) : bool :=
  match chars with
  | [] => true
  | c :: chars' =>
      match rest with
      | [] => false
      | r :: rest' =>
          if Ascii.eqb r NUL then false
          else if Ascii.eqb r c then punct_match chars' rest'
          else false
      end
  end.

(** The walk along the chain in [internal_read_punctuation]: the first
    entry whose text is found at the script pointer. *)
Fixpoint find_punctuation (fuel : nat) (pt : punct_tables) (rest : list ascii) (n : Z)
    : outcome (option punctuation_def) :=
  if n <? 0 then Ret None
  else
    match fuel with
    | O => OutOfFuel
    | S fuel' =>
        let punct := punct_at (m_punctuations pt) n in
        let next_n := rd (m_punctuations_next pt) (Z.to_nat n) in
        match str punct with
        | None => find_punctuation fuel' pt rest next_n (* punctuation_id::none *)
        | Some s =>
            if punct_match (c_str s) rest then Ret (Some punct)
            else find_punctuation fuel' pt rest next_n
        end
    end.

Section with_punctuation_tables.

(** The shared punctuation tables in force. *)
Variable pt : punct_tables.

(** [lexer::internal_read_punctuation]. *)
Definition internal_read_punctuation (out_token : token) : M (bool * token) :=
  let* c := peek 0 in
  let* rest := remaining in
  match find_punctuation (m_punctuations_size pt) pt rest
          (rd (m_punctuations_table pt) (char_index c)) with
  | Ret (Some punct) =>
      let chars := match str punct with Some s => c_str s | None => [] end in
      (* [for (i = 0; i <= l; ++i) append(chars[i])]: the last is the NUL *)
      let tok := append_run (chars ++ [NUL]) out_token in
      let* _ := advance (length chars) in
      ret (true, token.set_flags (u32 (id punct)) (token.set_type token.punctuation tok))
  | Ret None => ret (false, out_token)
  | Thrown => fun L => (Thrown, L)
  | OutOfFuel => out_of_fuel
  end.

Definition is_name_start (c : ascii) : bool :=
  is_lower c || is_upper c || Ascii.eqb c "_".

(** [lexer::next_token]; the second component is [*out_token] after
    the call. *)
Definition next_token (out_token : token) : M (bool * token) :=
  let* initialized := gets m_initialized in
  if negb initialized then
    let* b := error "lexer not properly initialized; no script loaded!" in
    ret (b, out_token)
  else
    let* available := gets m_token_available in
    if available then
      (* a token is available (from unget_token) *)
      let* leftover := gets m_leftover_token in
      let* _ := modify (fun L => with_token_available false
                                   (with_leftover_token (token.clear leftover) L)) in
      ret (true, leftover)
    else
      (* Save script & line pointers *)
      let* _ := modify (fun L =>
                  with_whitespace_start_ptr (Some (m_script_ptr L))
                    (with_last_script_ptr (m_script_ptr L)
                       (with_last_line_num (m_line_num L) L))) in
      let* ws := internal_read_whitespace in
      if negb ws then ret (false, out_token)
      else
        let* _ := modify (fun L => with_whitespace_end_ptr (Some (m_script_ptr L)) L) in
        let* line_num := gets m_line_num in
        let* last_line_num := gets m_last_line_num in
        let tok :=
          token.set_lines_crossed (u32 (line_num - last_line_num))
            (token.set_line_number line_num (token.clear out_token)) in
        let* c := peek 0 in
        let* c_next := peek 1 in
        let* only_strings := flag flags.only_strings in
        let* number_names := flag flags.allow_number_names in
        let* path_names := flag flags.allow_path_names in
        if only_strings then
          (* keeping everything as whitespace delimited strings *)
          if Ascii.eqb c "'" || Ascii.eqb c dquote
          then internal_read_string c tok
          else internal_read_name_ident tok
        else if is_digit c || (Ascii.eqb c "." && is_digit c_next) then
          (* a number *)
          let* r := internal_read_number tok in
          if negb (fst r) then ret r
          else if number_names then
            (* names are allowed to start with a number *)
            let* c := peek 0 in
            if is_name_start c then internal_read_name_ident (snd r)
            else ret r
          else ret r
        else if Ascii.eqb c "'" || Ascii.eqb c dquote then
          internal_read_string c tok
        else if is_name_start c then
          internal_read_name_ident tok
        else if path_names && ((Ascii.eqb c "/" || Ascii.eqb c "\") || Ascii.eqb c ".") then
          internal_read_name_ident tok
        else
          let* r := internal_read_punctuation tok in
          if negb (fst r) then
            let* b := error (String.append "unknown punctuation character '"
                               (String c "'")) in
            ret (b, snd r)
          else ret r.

(** [lexer::unget_token]. *)
Definition unget_token (in_token : token) : M unit :=
  let* available := gets m_token_available in
  let* _ := (if available
             then warning "lexer::unget_token() called twice in a row!"
             else ret tt) in
  modify (fun L => with_token_available true (with_leftover_token in_token L)).

(** "Unread the token": [m_script_ptr = m_last_script_ptr; m_line_num = m_last_line_num]. *)
Definition unread : M unit :=
  modify (fun L => with_line_num (m_last_line_num L)
                     (with_script_ptr (m_last_script_ptr L) L)).

(** [lexer::next_token_on_line]. *)
Definition next_token_on_line (out_token : token) : M (bool * token) :=
  let* r := next_token token.default in
  let tok := snd r in
  if negb (fst r) then
    let* _ := unread in ret (false, out_token)
  else if token.get_lines_crossed tok =? 0 then ret (true, tok)
  else
    let* _ := unread in
    ret (false, token.clear out_token).

(** [lexer::check_token_string(string, out_token)]. *)
Definition check_token_string (string : list ascii) (out_token : token)
    : M (bool * token) :=
  let* r := next_token out_token in
  if negb (fst r) then ret (false, snd r)
  else if token.eq_str (snd r) string then ret (true, snd r)
  else
    let* _ := unread in
    ret (false, snd r).

(** [lexer::check_token_type]. *)
Definition check_token_type (type : token.type) (subtype_flags : Z) (out_token : token)
    : M (bool * token) :=
  let* r := next_token token.default in
  let tok := snd r in
  if negb (fst r) then ret (false, out_token)
  else if token.type_eqb (token.get_type tok) type
          && (Z.land (token.get_flags tok) subtype_flags =? subtype_flags)
  then ret (true, tok)
  else
    let* _ := unread in
    ret (false, out_token).

(** [lexer::peek_token_string]. *)
Definition peek_token_string (string : list ascii) : M bool :=
  let* r := next_token token.default in
  let tok := snd r in
  if negb (fst r) then ret false
  else
    let* _ := unread in
    ret (token.eq_str tok string).

(** [lexer::peek_token_type]. *)
Definition peek_token_type (type : token.type) (subtype_flags : Z) (out_token : token)
    : M (bool * token) :=
  let* r := next_token token.default in
  let tok := snd r in
  if negb (fst r) then ret (false, out_token)
  else
    let* _ := unread in
    if token.type_eqb (token.get_type tok) type
       && (Z.land (token.get_flags tok) subtype_flags =? subtype_flags)
    then ret (true, tok)
    else ret (false, out_token).

(** [lexer::expect_any_token]. *)
Definition expect_any_token (out_token : token) : M (bool * token) :=
  let* r := next_token out_token in
  if negb (fst r) then
    let* b := error "couldn't read expected token!" in ret (b, snd r)
  else ret (true, snd r).

(** [lexer::expect_token_string(string, out_token)]. *)
Definition expect_token_string (string : list ascii) (out_token : token)
    : M (bool * token) :=
  let* r := next_token out_token in
  let tok := snd r in
  if negb (fst r) then
    let* b := error (String.append "couldn't find expected token '"
                       (String.append (string_of_list_ascii (c_str string)) "'")) in
    ret (b, tok)
  else if token.neq_str tok string then
    let* b := error (String.append "expected '"
                       (String.append (string_of_list_ascii (c_str string))
                          (String.append "' but found '"
                             (String.append (string_of_list_ascii (token.as_string tok)) "'")))) in
    ret (b, tok)
  else ret (true, tok).

(** [lexer::expect_token_char(c, out_token)]. *)
Definition expect_token_char (c : ascii) (out_token : token) : M (bool * token) :=
  let* r := next_token out_token in
  let tok := snd r in
  if negb (fst r) then
    let* b := error (String.append "couldn't find expected token '" (String c "'")) in
    ret (b, tok)
  else if token.neq_char tok c then
    let* b := error (String.append "expected '"
                       (String c
                          (String.append "' but found '"
                             (String.append (string_of_list_ascii (token.as_string tok)) "'")))) in
    ret (b, tok)
  else ret (true, tok).

(** [lexer::get_punctuation_from_id]: the text of entry [id], or
    [(unknown punctuation)]; [None] where the source builds a string from
    the null text of an entry, which is undefined. *)
Definition get_punctuation_from_id (id : Z) : option (list ascii) :=
  let index := Z.to_nat (u32 id) in
  if negb (id =? punctuation_id.none) && (index <? m_punctuations_size pt)%nat then
    match str (nth index (m_punctuations pt) (mk_punct None 0)) with
    | Some s => Some (c_str s)
    | None => None
    end
  else Some (chars "(unknown punctuation)").

(** The loop of [lexer::get_punctuation_id_from_str] over the entries
    left; [None] where [std::strcmp] is given the null text of an entry,
    which is undefined. *)
Fixpoint punctuation_id_from_str (entries : list punctuation_def) (s : list ascii)
    : option Z :=
  match entries with
  | [] => Some punctuation_id.none
  | d :: entries' =>
      match str d with
      | None => None
      | Some t =>
          if token.list_ascii_eqb (c_str t) (c_str s) then Some (id d)
          else punctuation_id_from_str entries' s
      end
  end.

(** [lexer::get_punctuation_id_from_str]. *)
Definition get_punctuation_id_from_str (punctuation_string : list ascii) : option Z :=
  punctuation_id_from_str (firstn (m_punctuations_size pt) (m_punctuations pt))
    punctuation_string.

(** *** Loops over the tokens *)

(** Iteration bound for the loops over the tokens: a call that returns a
    pushed-back token, one call for each character at most, and the call
    that finds no token. *)
Definition token_fuel : M nat := gets (fun L => S (S (length (m_buffer L)))).

(** [lexer::is_punctuation_token]. *)
Definition is_punctuation_token (tok : token) (id : Z) : bool :=
  token.is_punctuation tok && (token.get_flags tok =? u32 id).

(** The [while (next_token(&tok))] of [lexer::skip_until_string]; [tok]
    is the local token that each call writes. *)
Fixpoint skip_until_string_loop (fuel : nat) (string : list ascii) (tok : token) : M bool :=
  match fuel with
  | O => out_of_fuel
  | S fuel' =>
      let* r := next_token tok in
      if negb (fst r) then ret false
      else if token.eq_str (snd r) string then ret true
      else skip_until_string_loop fuel' string (snd r)
  end.

(** [lexer::skip_until_string]. *)
Definition skip_until_string (string : list ascii) : M bool :=
  let* n := token_fuel in skip_until_string_loop n string token.default.

(** The [while (next_token(&tok))] of [lexer::skip_rest_of_line]. *)
Fixpoint skip_rest_of_line_loop (fuel : nat) (tok : token) : M bool :=
  match fuel with
  | O => out_of_fuel
  | S fuel' =>
      let* r := next_token tok in
      if negb (fst r) then ret false
      else if negb (token.get_lines_crossed (snd r) =? 0) then
        let* _ := unread in
        ret true
      else skip_rest_of_line_loop fuel' (snd r)
  end.

(** [lexer::skip_rest_of_line]. *)
Definition skip_rest_of_line : M bool :=
  let* n := token_fuel in skip_rest_of_line_loop n token.default.

(** The [do ... while (depth)] of [lexer::skip_bracketed_section], with
    [depth] an [int]. *)
Fixpoint skip_bracketed_section_loop (fuel : nat) (depth : Z) (tok : token) : M bool :=
  match fuel with
  | O => out_of_fuel
  | S fuel' =>
      let* r := next_token tok in
      if negb (fst r) then ret false
      else
        let tok := snd r in
        let depth :=
          if token.type_eqb (token.get_type tok) token.punctuation then
            if is_punctuation_token tok punctuation_id.open_curly_bracket
            then i32 (depth + 1)
            else if is_punctuation_token tok punctuation_id.close_curly_bracket
            then i32 (depth - 1)
            else depth
          else depth in
        if negb (depth =? 0) then skip_bracketed_section_loop fuel' depth tok
        else ret true
  end.

(** [lexer::skip_bracketed_section]. *)
Definition skip_bracketed_section (scan_first_bracket : bool) : M bool :=
  let* n := token_fuel in
  skip_bracketed_section_loop n (if scan_first_bracket then 0 else 1) token.default.

(** The [while (next_token(&tok))] of [lexer::scan_rest_of_line]; [out]
    is the string built so far. *)
Fixpoint scan_rest_of_line_loop (fuel : nat) (tok : token) (out : list ascii)
    : M (list ascii) :=
  match fuel with
  | O => out_of_fuel
  | S fuel' =>
      let* r := next_token tok in
      if negb (fst r) then ret out
      else if negb (token.get_lines_crossed (snd r) =? 0) then
        let* _ := unread in
        ret out
      else
        let out := match out with [] => out | _ :: _ => out ++ [" "%char] end in
        scan_rest_of_line_loop fuel' (snd r) (out ++ token.as_string (snd r))
  end.

(** [lexer::scan_rest_of_line]. *)
Definition scan_rest_of_line : M (list ascii) :=
  let* n := token_fuel in scan_rest_of_line_loop n token.default [].

(** *** Scanning values *)

(** [lexer::scan_bool]; [None] where the value of the token is the
    result of a conversion that is undefined. *)
Definition scan_bool : M (option bool) :=
  let* r := next_token token.default in
  let tok := snd r in
  if negb (fst r) then
    let* b := error "couldn't read expected boolean literal!" in
    ret (Some b)
  else if negb (token.is_boolean tok) && negb (token.is_number tok) then
    let* b := error (String.append "expected boolean literal or number, found '"
                       (String.append (string_of_list_ascii (token.as_string tok)) "'.")) in
    ret (Some b)
  else
    match token.as_uint64 tok with
    | None => ret None
    | Some (v, tok) =>
        let* _ := (if 1 <? v
                   then warning "expected 0 or 1 for numerical boolean literal!"
                   else ret tt) in
        match token.as_bool tok with
        | Some (b, _) => ret (Some b)
        | None => ret None
        end
    end.

(** [lexer::scan_string]. *)
Definition scan_string : M (list ascii) :=
  let* r := next_token token.default in
  let tok := snd r in
  if negb (fst r) then
    let* _ := error "couldn't read expected string!" in
    ret []
  else if negb (token.type_eqb (token.get_type tok) token.string)
          && negb (token.type_eqb (token.get_type tok) token.literal) then
    let* _ := error (String.append "expected string or character literal, found '"
                       (String.append (string_of_list_ascii (token.as_string tok)) "'.")) in
    ret []
  else ret (fst (token.move_to tok)).

End with_punctuation_tables.

(** *** Initialisation and reset *)

(** [lexer() = default]: the empty, uninitialized lexer. *)
Definition empty : t :=
  {| m_buffer := []; m_script_ptr := 0; m_end_ptr := 0; m_last_script_ptr := 0;
     m_whitespace_start_ptr := None; m_whitespace_end_ptr := None;
     m_flags := 0; m_last_line_num := 0; m_line_num := 0; m_script_length := 0;
     m_error_count := 0; m_warn_count := 0; m_leftover_token := token.default;
     m_filename := EmptyString; m_token_available := false;
     m_initialized := false; m_allocated := false; m_reports := [] |}.

(** [lexer::init_from_memory]: [ptr] points at [buffer], with
    [ptr[length] == '\0']. *)
Definition init_from_memory (buffer : list ascii) (filename : String.string)
    (flags starting_line : Z) : M bool :=
  let* initialized := gets m_initialized in
  if initialized then
    error "lexer::init_from_memory() -> another script is already loaded!"
  else
    let* _ := modify (fun L =>
      {| m_buffer := buffer; m_script_ptr := 0; m_end_ptr := length buffer;
         m_last_script_ptr := 0;
         m_whitespace_start_ptr := m_whitespace_start_ptr L;
         m_whitespace_end_ptr := m_whitespace_end_ptr L;
         m_flags := flags; m_last_line_num := starting_line;
         m_line_num := starting_line; m_script_length := Z.of_nat (length buffer);
         m_error_count := m_error_count L; m_warn_count := m_warn_count L;
         m_leftover_token := m_leftover_token L;
         m_filename := if String.eqb filename EmptyString then "(memory)"%string else filename;
         m_token_available := m_token_available L;
         m_initialized := true; m_allocated := false;
         m_reports := m_reports L |}) in
    ret true.

(** The lexer constructed from a memory buffer. *)
Definition from_memory (buffer : list ascii) (flags : Z) : t :=
  snd (init_from_memory buffer EmptyString flags 1 empty).

(** [lexer::reset]. *)
Definition reset : M unit :=
  modify (fun L =>
    {| m_buffer := m_buffer L; m_script_ptr := 0; m_end_ptr := m_end_ptr L;
       m_last_script_ptr := 0;
       m_whitespace_start_ptr := None; m_whitespace_end_ptr := None;
       m_flags := m_flags L; m_last_line_num := 1; m_line_num := 1;
       m_script_length := m_script_length L;
       m_error_count := 0; m_warn_count := 0;
       m_leftover_token := token.clear (m_leftover_token L);
       m_filename := m_filename L; m_token_available := false;
       m_initialized := m_initialized L; m_allocated := m_allocated L;
       m_reports := m_reports L |}).

(** [lexer::free_script_source]. *)
Definition free_script_source : M unit :=
  modify (fun L =>
    {| m_buffer := []; m_script_ptr := 0; m_end_ptr := 0; m_last_script_ptr := 0;
       m_whitespace_start_ptr := None; m_whitespace_end_ptr := None;
       m_flags := m_flags L; m_last_line_num := 0; m_line_num := 0;
       m_script_length := 0;
       m_error_count := m_error_count L; m_warn_count := m_warn_count L;
       m_leftover_token := token.clear (m_leftover_token L);
       m_filename := m_filename L; m_token_available := false;
       m_initialized := false; m_allocated := false;
       m_reports := m_reports L |}).

(** [lexer::clear]. *)
Definition clear : M unit :=
  let* _ := free_script_source in
  modify (fun L =>
    {| m_buffer := m_buffer L; m_script_ptr := m_script_ptr L; m_end_ptr := m_end_ptr L;
       m_last_script_ptr := m_last_script_ptr L;
       m_whitespace_start_ptr := m_whitespace_start_ptr L;
       m_whitespace_end_ptr := m_whitespace_end_ptr L;
       m_flags := m_flags L; m_last_line_num := m_last_line_num L;
       m_line_num := m_line_num L; m_script_length := m_script_length L;
       m_error_count := 0; m_warn_count := 0;
       m_leftover_token := m_leftover_token L;
       m_filename := EmptyString; m_token_available := m_token_available L;
       m_initialized := m_initialized L; m_allocated := m_allocated L;
       m_reports := m_reports L |}).

(** [lexer::set_flags], [lexer::set_line_number]. *)
Definition set_flags (new_flags : Z) : M unit := modify (with_flags new_flags).
Definition set_line_number (new_line_num : Z) : M unit :=
  modify (fun L => with_last_line_num new_line_num (with_line_num new_line_num L)).

(** The loop of [lexer::scan_complete_line] over the characters left:
    the line, and whether it was closed by a newline. *)
Fixpoint complete_line (rest : list ascii) : list ascii * bool :=
  match rest with
  | [] => ([], false)
  | c :: rest' =>
      if Ascii.eqb c NUL then ([], false)
      else if Ascii.eqb c newline then ([c], true)
      else let '(line, closed) := complete_line rest' in (c :: line, closed)
  end.

(** [lexer::scan_complete_line]. *)
Definition scan_complete_line : M (list ascii) :=
  let* rest := remaining in
  let '(line, closed) := complete_line rest in
  let* _ := (if closed then next_line else ret tt) in
  let* _ := advance (length line) in
  ret line.

(** [lexer::get_last_whitespace]: the characters from
    [m_whitespace_start_ptr] up to [m_whitespace_end_ptr], none when the
    end is not after the start or when both pointers are null; [None]
    where the loop compares a pointer with a null pointer. *)
Definition get_last_whitespace (L : t) : option (list ascii) :=
  match m_whitespace_start_ptr L, m_whitespace_end_ptr L with
  | Some s, Some e => Some (firstn (e - s) (skipn s (m_buffer L)))
  | None, None => Some []
  | _, _ => None
  end.

End lexer.

Abbreviation lexer := lexer.t.

(** * Notions used to state the properties *)

(** The tables as [g_global_lex_init] leaves them: built from the default
    C/C++ punctuation set. *)
Definition default_tables : lexer.punct_tables :=
  match lexer.set_punctuation_tables lexer.default_punctuations with
  | Some pt => pt
  | None => lexer.mk_tables lexer.default_punctuations [] [] 0
  end.

(** The cached values of a token agree with what [update_cached_values]
    computes from its present text and flags. *)
Definition cache_consistent (tk : token) : Prop :=
  token.m_values_valid tk = true ->
  token.compute_values (token.m_string tk) (token.m_flags tk)
  = Some (token.m_u64_value tk, token.m_double_value tk).

(** The operations of the token class that write a token or query its
    numeric value. *)
Inductive token_op :=
| Set_string (new_text : list ascii)
| Set_flags (new_flags : Z)
| Set_type (new_type : token.type)
| Set_line_number (n : Z)
| Set_lines_crossed (n : Z)
| Append (c : ascii)
| Append_str (str : option (list ascii))
| Clear
| Get_value_u64
| Get_value_double.

(** One operation; [None] when a query runs into the undefined conversion. *)
Definition token_step (o : token_op) (tk : token) : option token :=
  match o with
  | Set_string s => Some (token.set_string s tk)
  | Set_flags f => Some (token.set_flags f tk)
  | Set_type ty => Some (token.set_type ty tk)
  | Set_line_number n => Some (token.set_line_number n tk)
  | Set_lines_crossed n => Some (token.set_lines_crossed n tk)
  | Append c => Some (token.append c tk)
  | Append_str s => Some (token.append_str s tk)
  | Clear => Some (token.clear tk)
  | Get_value_u64 => option_map snd (token.get_value_u64 tk)
  | Get_value_double => option_map snd (token.get_value_double tk)
  end.

Fixpoint token_steps (os : list token_op) (tk : token) : option token :=
  match os with
  | [] => Some tk
  | o :: os' =>
      match token_step o tk with
      | Some tk' => token_steps os' tk'
      | None => None
      end
  end.

(** The value a query must return for a token: what its text, flags and
    category denote at the time of the query. *)
Definition denoted_values (tk : token) : option (Z * double) :=
  if negb (token.is_number tk) && negb (token.is_boolean tk) then Some (0, dbl.zero)
  else token.compute_values (token.m_string tk) (token.m_flags tk).

(** The number written by a run of decimal digits. *)
Definition digit_value (c : ascii) : Z := char_val c - 48.

Definition dec_value (ds : list ascii) : Z :=
  fold_left (fun v c => v * 10 + digit_value c) ds 0.

(** The text [a.b.c.d], followed by [:p] when a port is given. *)
Definition ip_text (a b c d : list ascii) (port : option (list ascii)) : list ascii :=
  a ++ "."%char :: b ++ "."%char :: c ++ "."%char :: d
    ++ match port with Some p => ":"%char :: p | None => [] end.

Definition port_value (port : option (list ascii)) : Z :=
  match port with Some p => dec_value p | None => 0 end.

(** [(port << 32) | (a<<24 | b<<16 | c<<8 | d)]. *)
Definition ip_word (a b c d port : Z) : Z :=
  Z.lor (Z.shiftl port 32)
    (Z.lor (Z.lor (Z.lor (Z.shiftl a 24) (Z.shiftl b 16)) (Z.shiftl c 8)) d).

(** The character that follows a token is white space, or the token ends
    the script (the character read there is the NUL). *)
Definition delimited (rest : list ascii) : Prop := char_val (nth 0 rest NUL) <= 32.

Definition all_digits (ds : list ascii) : Prop := Forall (fun c => is_digit c = true) ds.

(** The characters left to read: from [m_script_ptr] to the end. *)
Definition rem (L : lexer) : list ascii := skipn (lexer.m_script_ptr L) (lexer.m_buffer L).

(** The dotted part of the text and the port part. *)
Definition ip4 (a b c d : list ascii) : list ascii :=
  a ++ "."%char :: b ++ "."%char :: c ++ "."%char :: d.

Definition port_text (port : option (list ascii)) : list ascii :=
  match port with Some p => ":"%char :: p | None => [] end.

(** The flags [internal_read_number] finds before the type suffix, for a
    number that is not an IP address. *)
Definition plain_number_flags : list Z :=
  [ Z.lor token.flags.hexadecimal token.flags.integer;
    Z.lor token.flags.binary token.flags.integer;
    Z.lor token.flags.octal token.flags.integer;
    Z.lor token.flags.decimal token.flags.integer;
    Z.lor token.flags.decimal token.flags.floating_point;
    Z.lor (Z.lor token.flags.decimal token.flags.floating_point) token.flags.infinite;
    Z.lor (Z.lor token.flags.decimal token.flags.floating_point) token.flags.indefinite;
    Z.lor (Z.lor token.flags.decimal token.flags.floating_point) token.flags.nan ].

(** The value of a run of hexadecimal digits. *)
Definition hex_value (hs : list ascii) : Z :=
  fold_left (fun v c => v * 16 + token.hex_digit_value c) hs 0.

(** The digits of an escape sequence, after the backslash: a decimal run,
    or [x] and a hexadecimal run. *)
Definition escape_text (hex : bool) (ds : list ascii) : list ascii :=
  if hex then "x"%char :: ds else ds.

Definition escape_digit (hex : bool) (c : ascii) : bool :=
  if hex then lexer.is_hex_digit c else is_digit c.

Definition escape_value (hex : bool) (ds : list ascii) : Z :=
  if hex then hex_value ds else dec_value ds.

(** The character after the digits ends the run: not a digit, and after a
    hexadecimal run not a letter either. *)
Definition ends_escape (hex : bool) (c : ascii) : bool :=
  negb (is_digit c) && (negb hex || negb (is_upper c || is_lower c)).

(** ** Punctuation chains *)

Definition punct_len (ps : list lexer.punctuation_def) (i : nat) : nat :=
  lexer.strlen (nth i ps (lexer.mk_punct None 0)).

(** Entry [i] comes before entry [j] in a chain: it is longer, or as long
    and defined earlier. *)
Definition chain_before (ps : list lexer.punctuation_def) (i j : nat) : Prop :=
  (punct_len ps j < punct_len ps i)%nat \/
  (punct_len ps i = punct_len ps j /\ (i < j)%nat).

(** Entry [j] has a text, whose first character has index [ci]. *)
Definition heads (ps : list lexer.punctuation_def) (ci j : nat) : Prop :=
  exists s, lexer.str (nth j ps (lexer.mk_punct None 0)) = Some s /\
            lexer.char_index (lexer.first_char s) = ci.

(** The first characters of the punctuations are 7-bit characters, so that
    [static_cast<unsigned>(str[0])] is an index of the 256-entry table. *)
Definition ascii7 (ps : list lexer.punctuation_def) : Prop :=
  Forall (fun d => match lexer.str d with
                   | Some s => 0 <= char_val (lexer.first_char s)
                   | None => True
                   end) ps.

(** The array [next] holds the list [l] from entry [n] on, closed by -1. *)
Fixpoint linked (next : list Z) (n : Z) (l : list nat) : Prop :=
  match l with
  | [] => n = -1
  | i :: l' => n = Z.of_nat i /\ linked next (lexer.rd next i) l'
  end.

Definition hd_Z (l : list nat) : Z :=
  match l with [] => -1 | j :: _ => Z.of_nat j end.

Fixpoint last_Z (d : Z) (l : list nat) : Z :=
  match l with [] => d | j :: l' => last_Z (Z.of_nat j) l' end.

(** The text of entry [j] is found at the head of [rest]. *)
Definition matches (ps : list lexer.punctuation_def) (rest : list ascii) (j : nat) : bool :=
  match lexer.str (nth j ps (lexer.mk_punct None 0)) with
  | Some s => lexer.punct_match (c_str s) rest
  | None => false
  end.

(** What the tables hold once the entries below [k] are in: for each
    first character the chain of the entries with a text that starts with
    it, in chain order. *)
Definition tables_inv (ps : list lexer.punctuation_def) (k : nat) (table next : list Z)
    : Prop :=
  length table = 256%nat /\ length next = length ps /\
  forall ci, (ci < 256)%nat ->
    exists l, linked next (lexer.rd table ci) l /\
              StronglySorted (chain_before ps) l /\
              forall j, In j l <-> (j < k)%nat /\ heads ps ci j.

(** ** What a call leaves in place *)

(** A counter after some calls: as it was, or advanced by [k > 0] on 32
    bits. *)
Definition count_grows (c c' : Z) : Prop :=
  c' = c \/ exists k, 0 < k /\ c' = u32 (c + k).

(** What the sub-scanners of [next_token] leave in place: they move the
    script pointer and the line number, count errors and warnings and
    report them, and write nothing else. *)
Definition scans (L L' : lexer) : Prop :=
  lexer.m_buffer L' = lexer.m_buffer L /\
  lexer.m_end_ptr L' = lexer.m_end_ptr L /\
  lexer.m_last_script_ptr L' = lexer.m_last_script_ptr L /\
  lexer.m_whitespace_start_ptr L' = lexer.m_whitespace_start_ptr L /\
  lexer.m_whitespace_end_ptr L' = lexer.m_whitespace_end_ptr L /\
  lexer.m_flags L' = lexer.m_flags L /\
  lexer.m_last_line_num L' = lexer.m_last_line_num L /\
  lexer.m_script_length L' = lexer.m_script_length L /\
  lexer.m_leftover_token L' = lexer.m_leftover_token L /\
  lexer.m_filename L' = lexer.m_filename L /\
  lexer.m_token_available L' = lexer.m_token_available L /\
  lexer.m_initialized L' = lexer.m_initialized L /\
  lexer.m_allocated L' = lexer.m_allocated L /\
  count_grows (lexer.m_error_count L) (lexer.m_error_count L') /\
  count_grows (lexer.m_warn_count L) (lexer.m_warn_count L').

(** What the token-level calls leave in place: the script, the flags and
    the file name; the counters only grow. *)
Definition steps (L L' : lexer) : Prop :=
  lexer.m_buffer L' = lexer.m_buffer L /\
  lexer.m_end_ptr L' = lexer.m_end_ptr L /\
  lexer.m_flags L' = lexer.m_flags L /\
  lexer.m_script_length L' = lexer.m_script_length L /\
  lexer.m_filename L' = lexer.m_filename L /\
  lexer.m_initialized L' = lexer.m_initialized L /\
  lexer.m_allocated L' = lexer.m_allocated L /\
  count_grows (lexer.m_error_count L) (lexer.m_error_count L') /\
  count_grows (lexer.m_warn_count L) (lexer.m_warn_count L').

(** Whatever the outcome of the call, the state it leaves is related by
    [R] to the state it started from. *)
Definition keeps {A : Type} (R : lexer -> lexer -> Prop) (m : lexer.M A) : Prop :=
  forall L, R L (snd (m L)).

(** Only the counters: they grow. *)
Definition grows (L L' : lexer) : Prop :=
  count_grows (lexer.m_error_count L) (lexer.m_error_count L') /\
  count_grows (lexer.m_warn_count L) (lexer.m_warn_count L').

(** The calls a user makes on a lexer. *)
Inductive op :=
| Op_next_token (out : token)
| Op_next_token_on_line (out : token)
| Op_unget_token (tk : token)
| Op_check_token_string (s : list ascii) (out : token)
| Op_check_token_type (ty : token.type) (subtype_flags : Z) (out : token)
| Op_peek_token_string (s : list ascii)
| Op_peek_token_type (ty : token.type) (subtype_flags : Z) (out : token)
| Op_expect_any_token (out : token)
| Op_expect_token_string (s : list ascii) (out : token)
| Op_report_error (msg : String.string)
| Op_report_warning (msg : String.string)
| Op_set_flags (new_flags : Z)
| Op_set_line_number (n : Z)
| Op_init_from_memory (buffer : list ascii) (filename : String.string) (flags line : Z)
| Op_free_script_source
| Op_reset
| Op_clear.

(** The state a call leaves, whether it returns or throws. *)
Definition run (pt : lexer.punct_tables) (o : op) (L : lexer) : lexer :=
  match o with
  | Op_next_token out => snd (lexer.next_token pt out L)
  | Op_next_token_on_line out => snd (lexer.next_token_on_line pt out L)
  | Op_unget_token tk => snd (lexer.unget_token tk L)
  | Op_check_token_string s out => snd (lexer.check_token_string pt s out L)
  | Op_check_token_type ty fl out => snd (lexer.check_token_type pt ty fl out L)
  | Op_peek_token_string s => snd (lexer.peek_token_string pt s L)
  | Op_peek_token_type ty fl out => snd (lexer.peek_token_type pt ty fl out L)
  | Op_expect_any_token out => snd (lexer.expect_any_token pt out L)
  | Op_expect_token_string s out => snd (lexer.expect_token_string pt s out L)
  | Op_report_error msg => snd (lexer.error msg L)
  | Op_report_warning msg => snd (lexer.warning msg L)
  | Op_set_flags fl => snd (lexer.set_flags fl L)
  | Op_set_line_number n => snd (lexer.set_line_number n L)
  | Op_init_from_memory buffer filename fl line =>
      snd (lexer.init_from_memory buffer filename fl line L)
  | Op_free_script_source => snd (lexer.free_script_source L)
  | Op_reset => snd (lexer.reset L)
  | Op_clear => snd (lexer.clear L)
  end.

Definition run_all (pt : lexer.punct_tables) (os : list op) (L : lexer) : lexer :=
  fold_left (fun L o => run pt o L) os L.

(** [reset] and [clear] are the calls that write zero to the counters. *)
Definition resets_counts (o : op) : bool :=
  match o with Op_reset | Op_clear => true | _ => false end.

(** The calls that read tokens, push one back or report: they leave the
    script and the flags as they are. *)
Definition reads_tokens (o : op) : bool :=
  match o with
  | Op_set_flags _ | Op_init_from_memory _ _ _ _ | Op_free_script_source | Op_reset | Op_clear => false
  | _ => true
  end.

(** What the scan of a token leaves of the marks set at its start. *)
Definition marks (L L' : lexer) : Prop :=
  lexer.m_last_script_ptr L' = lexer.m_last_script_ptr L /\
  lexer.m_last_line_num L' = lexer.m_last_line_num L /\
  lexer.m_token_available L' = lexer.m_token_available L /\
  lexer.m_leftover_token L' = lexer.m_leftover_token L.

(** The line number after the characters of [run]: one more for each
    newline, on 32 bits. *)
Definition lines_after (run : list ascii) (line : Z) : Z :=
  fold_left (fun l c => if Ascii.eqb c lexer.newline then u32 (l + 1) else l) run line.

(** A character that [internal_read_whitespace] steps over. *)
Definition blank (c : ascii) : Prop := char_val c <= 32 /\ c <> NUL.

(** A character that stands for itself inside a string quoted by [quote]. *)
Definition plain_char (quote c : ascii) : Prop :=
  c <> "\"%char /\ c <> quote /\ c <> NUL /\ c <> lexer.newline.

(** After the closing quote of a string: the script ends, or goes on with
    a character that is neither white space, nor a comment, nor a quote,
    so that there is nothing to concatenate. *)
Definition ends_string (quote : ascii) (rest : list ascii) : Prop :=
  nth 0 rest NUL = NUL \/
  (32 < char_val (nth 0 rest NUL) /\ nth 0 rest NUL <> "/"%char /\ nth 0 rest NUL <> quote).

(** ** What a scan depends on *)

(** Two states that agree on all that the scanners read: the script, the
    position, the line numbers, the flags and the push-back slot. The
    counters, the log of reports and the recorded positions may differ. *)
Definition same_input (L1 L2 : lexer) : Prop :=
  lexer.m_buffer L1 = lexer.m_buffer L2 /\
  lexer.m_script_ptr L1 = lexer.m_script_ptr L2 /\
  lexer.m_flags L1 = lexer.m_flags L2 /\
  lexer.m_line_num L1 = lexer.m_line_num L2 /\
  lexer.m_leftover_token L1 = lexer.m_leftover_token L2 /\
  lexer.m_token_available L1 = lexer.m_token_available L2 /\
  lexer.m_initialized L1 = lexer.m_initialized L2.

(** The same, while a token is scanned: the line the scan started from
    is read too. *)
Definition same_scan (L1 L2 : lexer) : Prop :=
  same_input L1 L2 /\ lexer.m_last_line_num L1 = lexer.m_last_line_num L2.

(** From related states the call has the same outcome and leaves related
    states. *)
Definition respects {A : Type} (R : lexer -> lexer -> Prop) (m : lexer.M A) : Prop :=
  forall L1 L2, R L1 L2 -> fst (m L1) = fst (m L2) /\ R (snd (m L1)) (snd (m L2)).

(** ** How far a call moves *)

(** The computation [m], started with the script pointer at or after
    [p], leaves it at or after [p], however it ends. *)
Definition stays_from {A} (p : nat) (m : lexer.M A) : Prop :=
  forall L, (p <= lexer.m_script_ptr L)%nat -> (p <= lexer.m_script_ptr (snd (m L)))%nat.

(** ** Loops that end *)

(** On a script of [b] characters the computation [m] comes to an end
    within the bound on iterations that the model sets. *)
Definition finishes {A} (b : nat) (m : lexer.M A) : Prop :=
  forall L, length (lexer.m_buffer L) = b -> fst (m L) <> lexer.OutOfFuel.

(** How many calls of [next_token] can still return a token, on a script
    of [b] characters: one for the pushed-back token and one for each
    character left. *)
Definition tokens_left (b : nat) (L : lexer) : nat :=
  (b - lexer.m_script_ptr L) + (if lexer.m_token_available L then 1 else 0).
(** * Properties of the token class *)

(** ** Comparison of a token with a character *)

Lemma ascii_eqb_eq (a b : ascii) : Ascii.eqb a b = true <-> a = b.
Proof. apply Ascii.eqb_eq. Qed.

Lemma ascii_eqb_neq (a b : ascii) : Ascii.eqb a b = false <-> a <> b.
Proof. apply Ascii.eqb_neq. Qed.

(** C10. [tok != c] holds only for a token whose text is exactly one
    character, different from [c]; for a token whose text is not one
    character long both [tok == c] and [tok != c] are false, so [!=] is not
    the negation of [==] (the empty token is an instance). *)
Theorem C10_char_comparison :
  (forall (tk : token) (c : ascii),
      token.neq_char tk c = true <->
      exists x, token.m_string tk = [x] /\ x <> c) /\
  (forall (tk : token) (c : ascii),
      token.get_length tk <> 1%nat ->
      token.eq_char tk c = false /\ token.neq_char tk c = false) /\
  (forall c : ascii,
      token.neq_char token.default c <> negb (token.eq_char token.default c)).
Proof.
  split; [| split].
  - intros tk c. unfold token.neq_char.
    destruct (token.m_string tk) as [| x [| y s]]; simpl.
    + split; [discriminate | intros (x & Hx & _); discriminate].
    + rewrite negb_true_iff, ascii_eqb_neq. split.
      * intros Hne. exists x. split; [reflexivity | assumption].
      * intros (x' & Hx & Hne). injection Hx as ->. assumption.
    + split; [discriminate | intros (x' & Hx & _); discriminate].
  - intros tk c Hlen. unfold token.eq_char, token.neq_char, token.get_length in *.
    destruct (Nat.eqb_spec (length (token.m_string tk)) 1) as [E | E].
    + contradiction.
    + split; reflexivity.
  - intros c. cbv. discriminate.
Qed.

(** At the empty token and the character ['a'] both comparisons fail. *)
Lemma C10_char_comparison_witness :
  token.eq_char token.default "a" = false /\ token.neq_char token.default "a" = false.
Proof.
  apply (proj1 (proj2 C10_char_comparison) token.default "a"%char).
  cbv. discriminate.
Defined.

(** ** Exact conversions between integers and doubles *)

Lemma digits2_pos_size (p : positive) : digits2_pos p = Pos.size p.
Proof. induction p; simpl; congruence. Qed.

Lemma pos_size_bounds (p : positive) :
  2 ^ (Z.pos (Pos.size p) - 1) <= Z.pos p < 2 ^ Z.pos (Pos.size p).
Proof.
  induction p as [p IH | p IH |]; simpl Pos.size.
  - rewrite Pos2Z.inj_succ, (Pos2Z.inj_xI p).
    replace (Z.succ (Z.pos (Pos.size p)) - 1) with (Z.succ (Z.pos (Pos.size p) - 1)) by lia.
    rewrite !Z.pow_succ_r by lia. lia.
  - rewrite Pos2Z.inj_succ, (Pos2Z.inj_xO p).
    replace (Z.succ (Z.pos (Pos.size p)) - 1) with (Z.succ (Z.pos (Pos.size p) - 1)) by lia.
    rewrite !Z.pow_succ_r by lia. lia.
  - simpl. lia.
Qed.

Lemma pos_iter_xO (p k : positive) :
  Z.pos (Pos.iter xO p k) = Z.pos p * 2 ^ Z.pos k /\
  Pos.size (Pos.iter xO p k) = (Pos.size p + k)%positive.
Proof.
  induction k as [| k IH] using Pos.peano_ind.
  - simpl. split; [lia | lia].
  - rewrite Pos.iter_succ. destruct IH as [IH1 IH2]. split.
    + rewrite Pos2Z.inj_xO, IH1, Pos2Z.inj_succ, Z.pow_succ_r by lia. lia.
    + simpl. rewrite IH2. lia.
Qed.

(** A mantissa that already has its canonical exponent is not rounded. *)
Lemma binary_round_aux_exact (m : positive) (e : Z) :
  fexp dbl.prec dbl.emax (Z.pos (Pos.size m) + e) = e ->
  e <= dbl.emax - dbl.prec ->
  binary_round_aux dbl.prec dbl.emax false (Z.pos m) e loc_Exact = S754_finite false m e.
Proof.
  intros Hf He.
  unfold binary_round_aux, shr_fexp. simpl Zdigits2.
  rewrite digits2_pos_size, Hf, Z.sub_diag. simpl.
  rewrite digits2_pos_size, Hf, Z.sub_diag. simpl.
  apply Z.leb_le in He. rewrite He. reflexivity.
Qed.

(** Integers below [2^53] convert to [double] without loss. *)
Lemma dbl_trunc_of_Z (n : Z) : 0 <= n < 2 ^ 53 -> dbl.trunc (dbl.of_Z n) = Some n.
Proof.
  intros [Hlo Hhi]. destruct n as [| p |]; [reflexivity | | lia].
  unfold dbl.of_Z, binary_normalize, binary_round.
  rewrite digits2_pos_size.
  pose proof (pos_size_bounds p) as [Hs1 Hs2].
  assert (Hd : Z.pos (Pos.size p) <= 53).
  { destruct (Z_le_gt_dec (Z.pos (Pos.size p)) 53) as [|Hgt]; [assumption|].
    exfalso.
    assert (2 ^ 53 <= 2 ^ (Z.pos (Pos.size p) - 1)) by (apply Z.pow_le_mono_r; lia).
    lia. }
  assert (Hf : fexp dbl.prec dbl.emax (Z.pos (Pos.size p) + 0) = Z.pos (Pos.size p) - 53).
  { unfold fexp, emin, dbl.prec, dbl.emax. lia. }
  rewrite Hf. unfold shl_align.
  destruct (Z.pos (Pos.size p) - 53 - 0) as [| q | q] eqn:Hsub.
  - rewrite binary_round_aux_exact.
    + simpl. f_equal. lia.
    + rewrite Hf. lia.
    + unfold dbl.emax, dbl.prec. lia.
  - lia.
  - destruct (pos_iter_xO p q) as [Hv Hsz].
    assert (Hq : Z.pos q = 53 - Z.pos (Pos.size p)) by lia.
    rewrite binary_round_aux_exact.
    + unfold dbl.trunc.
      assert (Hneg : (0 <=? Z.pos (Pos.size p) - 53) = false) by (apply Z.leb_gt; lia).
      rewrite Hneg. f_equal. rewrite Hv.
      replace (- (Z.pos (Pos.size p) - 53)) with (Z.pos q) by lia.
      apply Z.div_mul. apply Z.pow_nonzero; lia.
    + rewrite Hsz. unfold fexp, emin, dbl.prec, dbl.emax. lia.
    + unfold dbl.emax, dbl.prec. lia.
Qed.

Lemma dbl_to_u64_trunc (d : double) (u : Z) :
  dbl.to_u64 d = Some u -> dbl.trunc d = Some u /\ 0 <= u < 2 ^ 64.
Proof.
  unfold dbl.to_u64. destruct (dbl.trunc d) as [z |]; [| discriminate].
  destruct ((0 <=? z) && (z <? 2 ^ 64)) eqn:E; [| discriminate].
  intros [= <-]. apply andb_true_iff in E as [E1 E2].
  apply Z.leb_le in E1. apply Z.ltb_lt in E2. auto.
Qed.

Lemma i64_small (u : Z) : 0 <= u < 2 ^ 63 -> i64 u = u.
Proof.
  intros H. unfold i64. rewrite Z.mod_small by lia. lia.
Qed.

Lemma i64_nonneg (u : Z) : 0 <= u < 2 ^ 64 -> 0 <= i64 u -> i64 u = u.
Proof.
  intros H Hi. unfold i64 in *.
  destruct (Z_lt_ge_dec u (2 ^ 63)) as [Hlt | Hge].
  - rewrite Z.mod_small by lia. lia.
  - exfalso. replace (u + 2 ^ 63) with (u - 2 ^ 63 + 1 * 2 ^ 64) in Hi by lia.
    rewrite Z.mod_add in Hi by lia. rewrite Z.mod_small in Hi by lia. lia.
Qed.

Lemma u64_range (z : Z) : 0 <= u64 z < 2 ^ 64.
Proof. unfold u64. apply Z.mod_pos_bound. lia. Qed.

Lemma u32_range (z : Z) : 0 <= u32 z < 2 ^ 32.
Proof. unfold u32. apply Z.mod_pos_bound. lia. Qed.

(** ** The integer value against the truncated double value *)

Lemma scan_decimal_range (p : list ascii) (v : Z) :
  0 <= v < 2 ^ 64 -> 0 <= token.scan_decimal p v < 2 ^ 64.
Proof.
  revert v. induction p as [| c p IH]; intros v Hv; simpl; [assumption |].
  apply IH, u64_range.
Qed.

Lemma scan_octal_range (p : list ascii) (v : Z) :
  0 <= v < 2 ^ 64 -> 0 <= token.scan_octal p v < 2 ^ 64.
Proof.
  revert v. induction p as [| c p IH]; intros v Hv; simpl; [assumption |].
  apply IH, u64_range.
Qed.

Lemma scan_hexadecimal_range (p : list ascii) (v : Z) :
  0 <= v < 2 ^ 64 -> 0 <= token.scan_hexadecimal p v < 2 ^ 64.
Proof.
  revert v. induction p as [| c p IH]; intros v Hv; simpl; [assumption |].
  apply IH, u64_range.
Qed.

Lemma scan_binary_range (p : list ascii) (v : Z) :
  0 <= v < 2 ^ 64 -> 0 <= token.scan_binary p v < 2 ^ 64.
Proof.
  revert v. induction p as [| c p IH]; intros v Hv; simpl; [assumption |].
  apply IH, u64_range.
Qed.

(** Outside the floating-point and IP families the double is the converted
    integer value. *)
Lemma compute_values_integral (text : list ascii) (fl : Z) (u : Z) (d : double) :
  has_flag fl token.flags.floating_point = false ->
  has_flag fl token.flags.ip_address = false ->
  token.compute_values text fl = Some (u, d) ->
  d = dbl.of_Z u /\ 0 <= u < 2 ^ 64.
Proof.
  intros Hfp Hip. unfold token.compute_values. rewrite Hfp, Hip.
  assert (H0 : 0 <= 0 < 2 ^ 64) by lia.
  destruct (has_flag fl token.flags.decimal).
  { intros [= <- <-]. split; [reflexivity | apply scan_decimal_range, H0]. }
  destruct (has_flag fl token.flags.octal).
  { intros [= <- <-]. split; [reflexivity | apply scan_octal_range, H0]. }
  destruct (has_flag fl token.flags.hexadecimal).
  { intros [= <- <-]. split; [reflexivity | apply scan_hexadecimal_range, H0]. }
  destruct (has_flag fl token.flags.binary).
  { intros [= <- <-]. split; [reflexivity | apply scan_binary_range, H0]. }
  destruct (has_flag fl token.flags.boolean).
  { intros [= <- <-]. split; [reflexivity |].
    destruct (token.list_ascii_eqb _ _); lia. }
  intros [= <- <-]. split; [reflexivity | lia].
Qed.

(** In the floating-point family the integer is the converted double. *)
Lemma compute_values_floating (text : list ascii) (fl : Z) (u : Z) (d : double) :
  has_flag fl token.flags.floating_point = true ->
  token.compute_values text fl = Some (u, d) ->
  dbl.to_u64 d = Some u.
Proof.
  intros Hfp. unfold token.compute_values. rewrite Hfp.
  match goal with |- match dbl.to_u64 ?x with _ => _ end = _ -> _ => set (d0 := x) end.
  destruct (dbl.to_u64 d0) as [u0 |] eqn:E; [| discriminate].
  intros [= <- <-]. exact E.
Qed.

(** What the two accessors return for a number token whose cache is
    consistent. *)
Lemma accessors_number (tk : token) (i : Z) (d : double) (tk1 tk2 : token) :
  token.is_number tk = true ->
  cache_consistent tk ->
  token.as_int64 tk = Some (i, tk1) ->
  token.as_double tk = Some (d, tk2) ->
  exists u, token.compute_values (token.m_string tk) (token.m_flags tk) = Some (u, d)
            /\ i = i64 u.
Proof.
  intros Hnum Hc.
  unfold token.as_int64, token.as_double, token.get_value_u64, token.get_value_double,
    token.update_cached_values.
  rewrite Hnum. simpl.
  destruct (token.m_values_valid tk) eqn:Hv; simpl.
  - specialize (Hc Hv). intros [= <- _] [= <- _].
    exists (token.m_u64_value tk). split; [exact Hc | reflexivity].
  - destruct (token.compute_values (token.m_string tk) (token.m_flags tk))
      as [[u0 d0] |]; [| discriminate].
    simpl. intros [= <- _] [= <- _]. exists u0. split; reflexivity.
Qed.




(** ** The cache of numeric values *)

(** Every setter that changes the text, the flags or the category marks the
    cache invalid. *)
Lemma setters_invalidate :
  (forall tk s, token.m_values_valid (token.set_string s tk) = false) /\
  (forall tk f, token.m_values_valid (token.set_flags f tk) = false) /\
  (forall tk ty, token.m_values_valid (token.set_type ty tk) = false) /\
  (forall tk c, c <> NUL -> token.m_values_valid (token.append c tk) = false) /\
  (forall tk s, c_str s <> [] ->
                token.m_values_valid (token.append_str (Some s) tk) = false).
Proof.
  repeat split; try reflexivity.
  - intros tk c Hc. unfold token.append.
    destruct (Ascii.eqb_spec c NUL) as [E | E]; [contradiction | reflexivity].
  - intros tk s Hs. unfold token.append_str.
    destruct (c_str s); [contradiction | reflexivity].
Qed.

Lemma update_cached_values_consistent (tk tk' : token) :
  token.update_cached_values tk = Some tk' ->
  cache_consistent tk' /\
  token.m_string tk' = token.m_string tk /\
  token.m_flags tk' = token.m_flags tk /\
  token.m_type tk' = token.m_type tk /\
  token.compute_values (token.m_string tk) (token.m_flags tk)
  = Some (token.m_u64_value tk', token.m_double_value tk').
Proof.
  unfold token.update_cached_values, cache_consistent.
  destruct (token.compute_values (token.m_string tk) (token.m_flags tk))
    as [[u d] |] eqn:E; [| discriminate].
  intros [= <-]. simpl. rewrite E. auto.
Qed.

(** A query returns what the text, flags and category denote, and leaves a
    consistent cache. *)
Lemma get_value_u64_denoted (tk tk' : token) (v : Z) :
  cache_consistent tk ->
  token.get_value_u64 tk = Some (v, tk') ->
  option_map fst (denoted_values tk) = Some v /\ cache_consistent tk'.
Proof.
  intros Hc. unfold token.get_value_u64, denoted_values.
  destruct (negb (token.is_number tk) && negb (token.is_boolean tk)).
  { intros [= <- <-]. split; [reflexivity | assumption]. }
  destruct (token.m_values_valid tk) eqn:Hv; simpl.
  - intros [= <- <-]. rewrite (Hc Hv). split; [reflexivity | assumption].
  - destruct (token.update_cached_values tk) as [tk1 |] eqn:E; [| discriminate].
    intros [= <- <-].
    apply update_cached_values_consistent in E as (Hc1 & _ & _ & _ & E).
    rewrite E. split; [reflexivity | assumption].
Qed.

Lemma get_value_double_denoted (tk tk' : token) (d : double) :
  cache_consistent tk ->
  token.get_value_double tk = Some (d, tk') ->
  option_map snd (denoted_values tk) = Some d /\ cache_consistent tk'.
Proof.
  intros Hc. unfold token.get_value_double, denoted_values.
  destruct (negb (token.is_number tk) && negb (token.is_boolean tk)).
  { intros [= <- <-]. split; [reflexivity | assumption]. }
  destruct (token.m_values_valid tk) eqn:Hv; simpl.
  - intros [= <- <-]. rewrite (Hc Hv). split; [reflexivity | assumption].
  - destruct (token.update_cached_values tk) as [tk1 |] eqn:E; [| discriminate].
    intros [= <- <-].
    apply update_cached_values_consistent in E as (Hc1 & _ & _ & _ & E).
    rewrite E. split; [reflexivity | assumption].
Qed.

Lemma token_step_consistent (o : token_op) (tk tk' : token) :
  cache_consistent tk -> token_step o tk = Some tk' -> cache_consistent tk'.
Proof.
  intros Hc. destruct o; simpl.
  - intros [= <-] Hv. discriminate Hv.
  - intros [= <-] Hv. discriminate Hv.
  - intros [= <-] Hv. discriminate Hv.
  - intros [= <-]. exact Hc.
  - intros [= <-]. exact Hc.
  - intros [= <-]. unfold token.append.
    destruct (Ascii.eqb c NUL); [exact Hc | intros Hv; discriminate Hv].
  - intros [= <-]. unfold token.append_str.
    destruct str as [s |]; [| exact Hc].
    destruct (c_str s); [exact Hc | intros Hv; discriminate Hv].
  - intros [= <-] _. reflexivity.
  - destruct (token.get_value_u64 tk) as [[v tk1] |] eqn:E; [| discriminate].
    simpl. intros [= <-]. eapply get_value_u64_denoted; eassumption.
  - destruct (token.get_value_double tk) as [[v tk1] |] eqn:E; [| discriminate].
    simpl. intros [= <-]. eapply get_value_double_denoted; eassumption.
Qed.

(** Along any sequence of setters and queries applied to a fresh token the
    cache stays consistent, so a query returns the value denoted by the
    text, flags and category at the time of the query. *)
Lemma token_steps_consistent (os : list token_op) (tk tk' : token) :
  cache_consistent tk -> token_steps os tk = Some tk' -> cache_consistent tk'.
Proof.
  revert tk. induction os as [| o os IH]; intros tk Hc; simpl.
  - intros [= <-]. exact Hc.
  - destruct (token_step o tk) as [tk1 |] eqn:E; [| discriminate].
    apply IH. eapply token_step_consistent; eassumption.
Qed.

Lemma queries_after_setters (os : list token_op) (tk : token) :
  token_steps os token.default = Some tk ->
  (forall v tk', token.get_value_u64 tk = Some (v, tk') ->
                 option_map fst (denoted_values tk) = Some v) /\
  (forall d tk', token.get_value_double tk = Some (d, tk') ->
                 option_map snd (denoted_values tk) = Some d).
Proof.
  intros Hs.
  assert (Hc : cache_consistent tk).
  { eapply token_steps_consistent; [| exact Hs]. intros _. reflexivity. }
  split; intros v tk' Hq.
  - eapply get_value_u64_denoted; eassumption.
  - eapply get_value_double_denoted; eassumption.
Qed.

(** C4. [token::trim()] copies the token with its cache and then trims the
    text of the copy in place: for the number token with text ["12 "],
    queried once (the cache then holds 104), the trimmed copy has the text
    ["12"] and a cache still marked valid, and [as_int64] returns the stale
    104 where the text and flags denote 12. *)
Theorem C4_trim_keeps_stale_cache :
  let tk0 := token.set_flags (Z.lor token.flags.decimal token.flags.integer)
               (token.set_type token.number
                  (token.set_string (chars "12 ") token.default)) in
  exists tk1,
    token.as_int64 tk0 = Some (104, tk1) /\
    token.m_string (token.trim tk1) = chars "12" /\
    token.m_flags (token.trim tk1) = token.m_flags tk0 /\
    token.m_values_valid (token.trim tk1) = true /\
    option_map fst (token.as_int64 (token.trim tk1)) = Some 104 /\
    option_map fst (denoted_values (token.trim tk1)) = Some 12 /\
    ~ cache_consistent (token.trim tk1).
Proof.
  intros tk0. eexists. split; [vm_compute; reflexivity |].
  repeat split; try (vm_compute; reflexivity).
  intros Hc. specialize (Hc eq_refl). vm_compute in Hc. discriminate Hc.
Qed.

(** * Properties of character runs *)

Lemma is_digit_facts (c : ascii) :
  is_digit c = true ->
  c <> NUL /\ Ascii.eqb c "." = false /\ Ascii.eqb c ":" = false /\
  Ascii.eqb c "e" = false /\ 0 <= digit_value c <= 9.
Proof.
  destruct c as [[] [] [] [] [] [] [] []]; vm_compute; try discriminate;
    intros _; repeat split; try discriminate; try reflexivity.
Qed.

Lemma c_str_no_nul (s : list ascii) :
  Forall (fun c => c <> NUL) s -> c_str s = s.
Proof.
  induction 1 as [| c s Hc _ IH]; simpl; [reflexivity |].
  destruct (Ascii.eqb_spec c NUL) as [E | E]; [contradiction | now rewrite IH].
Qed.

Lemma c_str_no_nul_out (s : list ascii) : Forall (fun c => c <> NUL) (c_str s).
Proof.
  induction s as [| c s IH]; simpl; [constructor |].
  destruct (Ascii.eqb_spec c NUL) as [E | E]; constructor; assumption.
Qed.

Lemma digits_no_nul (ds : list ascii) :
  Forall (fun c => is_digit c = true) ds -> Forall (fun c => c <> NUL) ds.
Proof.
  intros H. eapply Forall_impl; [exact H |]. intros c Hc. apply is_digit_facts, Hc.
Qed.

(** The decimal value of a run, accumulated on 32 bits. *)
Lemma u32_step (v d : Z) : u32 (u32 v * 10 + d) = u32 (v * 10 + d).
Proof.
  unfold u32. rewrite <- Zplus_mod_idemp_l, Zmult_mod_idemp_l, Zplus_mod_idemp_l.
  reflexivity.
Qed.

Lemma fold_u32_dec (ds : list ascii) (v : Z) :
  fold_left (fun v c => u32 (v * 10 + digit_value c)) ds (u32 v)
  = u32 (fold_left (fun v c => v * 10 + digit_value c) ds v).
Proof.
  revert v. induction ds as [| c ds IH]; intros v; simpl; [reflexivity |].
  rewrite <- IH. f_equal. apply u32_step.
Qed.

Lemma dec_value_mono (ds : list ascii) (v : Z) :
  Forall (fun c => is_digit c = true) ds -> 0 <= v ->
  v <= fold_left (fun v c => v * 10 + digit_value c) ds v.
Proof.
  intros H. revert v. induction H as [| c ds Hc _ IH]; intros v Hv; simpl; [lia |].
  apply is_digit_facts in Hc as (_ & _ & _ & _ & Hd).
  etransitivity; [| apply IH; lia]. lia.
Qed.

Lemma dec_value_nonneg (ds : list ascii) :
  Forall (fun c => is_digit c = true) ds -> 0 <= dec_value ds.
Proof. intros H. apply (dec_value_mono ds 0 H). lia. Qed.

(** ** The value of an IPv4 token *)

Lemma nth_insert_eq (ip : list Z) (i : nat) (x : Z) :
  (i < length ip)%nat -> nth i (<[i := x]> ip) 0 = x.
Proof.
  intros Hi. apply nth_lookup_Some. now apply list_lookup_insert_eq.
Qed.

Lemma nth_insert_ne (ip : list Z) (i j : nat) (x : Z) :
  i <> j -> nth j (<[i := x]> ip) 0 = nth j ip 0.
Proof.
  intros Hne. rewrite !nth_lookup. now rewrite list_lookup_insert_ne.
Qed.

Lemma insert_nth_id (ip : list Z) (i : nat) :
  (i < length ip)%nat -> <[i := nth i ip 0]> ip = ip.
Proof.
  intros Hi. apply list_insert_id.
  destruct (nth_lookup_or_length ip i 0) as [E | E]; [exact E | lia].
Qed.

(** A run of digits accumulates into the current slot. *)
Lemma scan_ip_digits (ds rest : list ascii) (i : nat) (ip : list Z) :
  Forall (fun c => is_digit c = true) ds ->
  (i < length ip)%nat ->
  token.scan_ip (ds ++ rest) i ip
  = token.scan_ip rest i
      (<[i := fold_left (fun v c => u32 (v * 10 + digit_value c)) ds (nth i ip 0)]> ip).
Proof.
  intros Hds. revert ip. induction Hds as [| c ds Hc _ IH]; intros ip Hi; simpl.
  - now rewrite insert_nth_id.
  - apply is_digit_facts in Hc as (_ & Hdot & Hcolon & _).
    rewrite Hdot, Hcolon. simpl.
    rewrite IH by (rewrite length_insert; exact Hi).
    rewrite nth_insert_eq by exact Hi.
    now rewrite list_insert_insert_eq.
Qed.

Lemma scan_ip_octet (ds rest : list ascii) (i : nat) (ip : list Z) :
  Forall (fun c => is_digit c = true) ds ->
  (i < length ip)%nat ->
  nth i ip 0 = 0 ->
  dec_value ds < 2 ^ 32 ->
  token.scan_ip (ds ++ rest) i ip = token.scan_ip rest i (<[i := dec_value ds]> ip).
Proof.
  intros Hds Hi H0 Hlt. rewrite scan_ip_digits by assumption.
  rewrite H0. change 0 with (u32 0) at 1. rewrite fold_u32_dec.
  fold (dec_value ds). unfold u32.
  rewrite Z.mod_small by (split; [now apply dec_value_nonneg | exact Hlt]).
  reflexivity.
Qed.

Lemma scan_ip_octet_end (ds : list ascii) (i : nat) (ip : list Z) :
  Forall (fun c => is_digit c = true) ds ->
  (i < length ip)%nat ->
  nth i ip 0 = 0 ->
  dec_value ds < 2 ^ 32 ->
  token.scan_ip ds i ip = <[i := dec_value ds]> ip.
Proof.
  intros Hds Hi H0 Hlt.
  pose proof (scan_ip_octet ds [] i ip Hds Hi H0 Hlt) as E.
  rewrite app_nil_r in E. exact E.
Qed.

Lemma shiftl_small (x k w : Z) :
  0 <= k -> 0 <= x -> x < 2 ^ (w - k) -> k <= w -> Z.shiftl x k mod 2 ^ w = Z.shiftl x k.
Proof.
  intros Hk Hx Hlt Hw. rewrite Z.shiftl_mul_pow2 by lia.
  apply Z.mod_small. split; [apply Z.mul_nonneg_nonneg; [lia | apply Z.pow_nonneg; lia] |].
  replace w with ((w - k) + k) at 1 by lia.
  rewrite Z.pow_add_r by lia.
  apply Z.mul_lt_mono_pos_r; [apply Z.pow_pos_nonneg; lia | exact Hlt].
Qed.

(** The value computed for the text [a.b.c.d] or [a.b.c.d:p]. *)
Lemma ip_value_text (a b c d : list ascii) (port : option (list ascii)) :
  Forall (fun c => is_digit c = true) a ->
  Forall (fun c => is_digit c = true) b ->
  Forall (fun c => is_digit c = true) c ->
  Forall (fun c => is_digit c = true) d ->
  match port with Some p => Forall (fun c => is_digit c = true) p | None => True end ->
  dec_value a <= 255 -> dec_value b <= 255 -> dec_value c <= 255 -> dec_value d <= 255 ->
  port_value port < 2 ^ 32 ->
  token.ip_value (ip_text a b c d port)
  = ip_word (dec_value a) (dec_value b) (dec_value c) (dec_value d) (port_value port).
Proof.
  intros Ha Hb Hc Hd Hp Va Vb Vc Vd Vp.
  pose proof (dec_value_nonneg a Ha) as Na. pose proof (dec_value_nonneg b Hb) as Nb.
  pose proof (dec_value_nonneg c Hc) as Nc. pose proof (dec_value_nonneg d Hd) as Nd.
  unfold token.ip_value, ip_text.
  rewrite scan_ip_octet; [| assumption | simpl; lia | reflexivity | lia].
  simpl token.scan_ip.
  rewrite scan_ip_octet; [| assumption | simpl; lia | reflexivity | lia].
  simpl token.scan_ip.
  rewrite scan_ip_octet; [| assumption | simpl; lia | reflexivity | lia].
  simpl token.scan_ip.
  assert (Hfinal :
    token.scan_ip (d ++ match port with Some p => ":"%char :: p | None => [] end) 3
      [dec_value a; dec_value b; dec_value c; 0; 0]
    = [dec_value a; dec_value b; dec_value c; dec_value d; port_value port]).
  { rewrite scan_ip_octet; [| assumption | simpl; lia | reflexivity | lia].
    destruct port as [p |]; simpl.
    - rewrite scan_ip_octet_end; [| assumption | simpl; lia | reflexivity | exact Vp].
      reflexivity.
    - reflexivity. }
  simpl in Hfinal |- *. rewrite Hfinal. simpl nth.
  unfold ip_word, u32, u64.
  assert (Np : 0 <= port_value port).
  { destruct port as [p |]; simpl; [now apply dec_value_nonneg | lia]. }
  rewrite (shiftl_small (dec_value a) 24 32) by (simpl; lia).
  rewrite (shiftl_small (dec_value b) 16 32) by (simpl; lia).
  rewrite (shiftl_small (dec_value c) 8 32) by (simpl; lia).
  rewrite (shiftl_small (port_value port) 32 64) by (simpl; lia).
  reflexivity.
Qed.

(** * Running the scanner on a known input *)

Lemma cur_rem (L : lexer) (k : nat) : lexer.cur L k = nth k (rem L) NUL.
Proof.
  unfold lexer.cur, rem. revert k.
  generalize (lexer.m_script_ptr L) as p. generalize (lexer.m_buffer L) as buf.
  induction buf as [| x buf IH]; intros p k.
  - rewrite skipn_nil. destruct (p + k)%nat, k; reflexivity.
  - destruct p as [| p]; simpl; [reflexivity | apply IH].
Qed.

Lemma rem_advance (L : lexer) (k : nat) :
  rem (lexer.with_script_ptr (lexer.m_script_ptr L + k) L) = skipn k (rem L).
Proof.
  unfold rem. simpl. rewrite Nat.add_comm. symmetry. apply skipn_skipn.
Qed.

Lemma span_all (p : ascii -> bool) (run rest : list ascii) :
  Forall (fun c => p c = true) run ->
  match rest with [] => True | c :: _ => p c = false end ->
  lexer.span p (run ++ rest) = run.
Proof.
  intros Hrun Hrest. induction Hrun as [| c run Hc _ IH]; simpl.
  - destruct rest as [| c rest]; simpl; [reflexivity | now rewrite Hrest].
  - now rewrite Hc, IH.
Qed.

Lemma span_Forall (p : ascii -> bool) (rest : list ascii) :
  Forall (fun c => p c = true) (lexer.span p rest).
Proof.
  induction rest as [| c rest IH]; simpl; [constructor |].
  destruct (p c) eqn:E; constructor; assumption.
Qed.

Lemma span_prefix (p : ascii -> bool) (rest : list ascii) :
  exists tail, rest = lexer.span p rest ++ tail.
Proof.
  induction rest as [| c rest [tail IH]]; simpl.
  - exists []. reflexivity.
  - destruct (p c).
    + exists tail. simpl. now rewrite <- IH.
    + exists (c :: rest). reflexivity.
Qed.

(** Appending a run that holds no NUL. *)
Lemma append_run_app (run1 run2 : list ascii) (tok : token) :
  lexer.append_run (run1 ++ run2) tok = lexer.append_run run2 (lexer.append_run run1 tok).
Proof. unfold lexer.append_run. apply fold_left_app. Qed.

Lemma append_run_fields (run : list ascii) (tok : token) :
  Forall (fun c => c <> NUL) run ->
  token.m_string (lexer.append_run run tok) = token.m_string tok ++ run /\
  token.m_flags (lexer.append_run run tok) = token.m_flags tok /\
  token.m_type (lexer.append_run run tok) = token.m_type tok /\
  token.m_line_num (lexer.append_run run tok) = token.m_line_num tok /\
  token.m_lines_crossed (lexer.append_run run tok) = token.m_lines_crossed tok.
Proof.
  intros H. revert tok. induction H as [| c run Hc _ IH]; intros tok; simpl.
  - rewrite app_nil_r. auto.
  - destruct (IH (token.append c tok)) as (E1 & E2 & E3 & E4 & E5).
    unfold lexer.append_run in *. simpl.
    rewrite E1, E2, E3, E4, E5. unfold token.append.
    destruct (Ascii.eqb_spec c NUL) as [E | E]; [contradiction |].
    simpl. rewrite <- app_assoc. auto.
Qed.

Lemma append_run_nul (tok : token) : lexer.append_run [NUL] tok = tok.
Proof. reflexivity. Qed.


(** ** Stepping through a call *)

Section steps.
Context {A B : Type}.

Lemma bind_ret (a : A) (k : A -> lexer.M B) (L : lexer) :
  lexer.bind (lexer.ret a) k L = k a L.
Proof. reflexivity. Qed.

Lemma bind_gets (f : lexer -> A) (k : A -> lexer.M B) (L : lexer) :
  lexer.bind (lexer.gets f) k L = k (f L) L.
Proof. reflexivity. Qed.

Lemma bind_assoc {C} (m : lexer.M C) (f : C -> lexer.M A) (k : A -> lexer.M B) (L : lexer) :
  lexer.bind (lexer.bind m f) k L = lexer.bind m (fun c => lexer.bind (f c) k) L.
Proof. unfold lexer.bind. destruct (m L) as [[c | |] L']; reflexivity. Qed.

Lemma bind_eq (m : lexer.M A) (k : A -> lexer.M B) (L : lexer) (a : A) (L' : lexer) :
  m L = (lexer.Ret a, L') -> lexer.bind m k L = k a L'.
Proof. unfold lexer.bind. now intros ->. Qed.

End steps.

Section steps_state.
Context {B : Type}.

Lemma bind_modify (g : lexer -> lexer) (k : unit -> lexer.M B) (L : lexer) :
  lexer.bind (lexer.modify g) k L = k tt (g L).
Proof. reflexivity. Qed.

Lemma bind_peek (i : nat) (k : ascii -> lexer.M B) (L : lexer) :
  lexer.bind (lexer.peek i) k L = k (nth i (rem L) NUL) L.
Proof. unfold lexer.peek. rewrite bind_gets, cur_rem. reflexivity. Qed.

Lemma bind_flag (bit : Z) (k : bool -> lexer.M B) (L : lexer) :
  lexer.bind (lexer.flag bit) k L = k (has_flag (lexer.m_flags L) bit) L.
Proof. reflexivity. Qed.

Lemma bind_advance (n : nat) (k : unit -> lexer.M B) (L : lexer) :
  lexer.bind (lexer.advance n) k L
  = k tt (lexer.with_script_ptr (lexer.m_script_ptr L + n) L).
Proof. reflexivity. Qed.

Lemma bind_remaining (k : list ascii -> lexer.M B) (L : lexer) :
  lexer.bind lexer.remaining k L = k (rem L) L.
Proof. reflexivity. Qed.

Lemma bind_append_while (p : ascii -> bool) (tok : token) (k : token -> lexer.M B)
    (L : lexer) :
  lexer.bind (lexer.append_while p tok) k L
  = k (lexer.append_run (lexer.span p (rem L)) tok)
      (lexer.with_script_ptr (lexer.m_script_ptr L + length (lexer.span p (rem L))) L).
Proof. reflexivity. Qed.

Lemma bind_append_cur (tok : token) (k : token -> lexer.M B) (L : lexer) :
  lexer.bind (lexer.append_cur tok) k L
  = k (token.append (nth 0 (rem L) NUL) tok)
      (lexer.with_script_ptr (lexer.m_script_ptr L + 1) L).
Proof.
  unfold lexer.append_cur, lexer.bind, lexer.peek, lexer.gets, lexer.advance,
    lexer.modify, lexer.ret. rewrite cur_rem. reflexivity.
Qed.

End steps_state.

Lemma flags_with_script_ptr (L : lexer) (p : nat) :
  lexer.m_flags (lexer.with_script_ptr p L) = lexer.m_flags L.
Proof. reflexivity. Qed.

Lemma with_script_ptr_twice (L : lexer) (p q : nat) :
  lexer.with_script_ptr q (lexer.with_script_ptr p L) = lexer.with_script_ptr q L.
Proof. reflexivity. Qed.

Lemma script_ptr_with_script_ptr (L : lexer) (p : nat) :
  lexer.m_script_ptr (lexer.with_script_ptr p L) = p.
Proof. reflexivity. Qed.

(** Runs the leading calls of the goal as far as they are determined. *)
Ltac mstep_rewrite :=
  repeat first
    [ rewrite bind_assoc | rewrite bind_ret | rewrite bind_peek | rewrite bind_flag
    | rewrite bind_advance | rewrite bind_remaining | rewrite bind_append_while
    | rewrite bind_append_cur | rewrite bind_gets | rewrite bind_modify
    | rewrite rem_advance | rewrite flags_with_script_ptr ].

Ltac mstep :=
  repeat (progress (mstep_rewrite; cbv beta; cbn [fst snd negb])).

(** What a delimiter is not. *)
Lemma delimiter_facts (c : ascii) :
  char_val c <= 32 ->
  is_digit c = false /\ lexer.is_digit_or_dot c = false /\
  Ascii.eqb c ":" = false /\ Ascii.eqb c "e" = false /\ Ascii.eqb c "#" = false /\
  lexer.is_name_start c = false /\ (32 <? char_val c) = false /\
  lexer.valid_name_char c = false /\ Ascii.eqb c "-" = false /\
  Ascii.eqb c "/" = false /\ Ascii.eqb c "\" = false /\ Ascii.eqb c "." = false.
Proof.
  intros H. assert (Hb : (char_val c <=? 32) = true) by (apply Z.leb_le; exact H).
  clear H. revert Hb.
  destruct c as [[] [] [] [] [] [] [] []]; vm_compute; try discriminate;
    intros _; repeat split.
Qed.

Lemma rem_ext (L1 L2 : lexer) :
  lexer.m_script_ptr L1 = lexer.m_script_ptr L2 ->
  lexer.m_buffer L1 = lexer.m_buffer L2 -> rem L1 = rem L2.
Proof. unfold rem. now intros -> ->. Qed.

(** At a character above the space that does not open a comment there is
    no white space to read. *)
Lemma read_whitespace_none (L : lexer) :
  32 < char_val (nth 0 (rem L) NUL) ->
  nth 0 (rem L) NUL <> "/"%char ->
  lexer.internal_read_whitespace L = (lexer.Ret true, L).
Proof.
  intros Hc Hslash.
  assert (E : (char_val (nth 0 (rem L) NUL) <=? 32) = false) by (apply Z.leb_gt; lia).
  apply Ascii.eqb_neq in Hslash.
  unfold lexer.internal_read_whitespace, lexer.script_fuel. mstep.
  cbn [lexer.read_whitespace_loop]. unfold lexer.script_fuel. mstep.
  cbn [lexer.skip_blanks]. mstep. rewrite E. mstep. rewrite Hslash. reflexivity.
Qed.

(** ** Scanning an IPv4 address *)

Lemma ip_text_split a b c d port : ip_text a b c d port = ip4 a b c d ++ port_text port.
Proof.
  unfold ip_text, ip4, port_text. repeat (rewrite <- app_assoc; simpl). reflexivity.
Qed.

Lemma count_dots_app x y : lexer.count_dots (x ++ y) = lexer.count_dots x + lexer.count_dots y.
Proof. unfold lexer.count_dots. rewrite List.filter_app, length_app. lia. Qed.

Lemma count_dots_digits ds : all_digits ds -> lexer.count_dots ds = 0.
Proof.
  unfold lexer.count_dots. induction 1 as [| c ds Hc _ IH]; [reflexivity |].
  apply is_digit_facts in Hc as (_ & Hdot & _).
  simpl. rewrite Hdot. exact IH.
Qed.

Lemma count_dots_dot y : lexer.count_dots ("."%char :: y) = 1 + lexer.count_dots y.
Proof. unfold lexer.count_dots. simpl. lia. Qed.

Lemma count_dots_ip4 a b c d :
  all_digits a -> all_digits b -> all_digits c -> all_digits d ->
  lexer.count_dots (ip4 a b c d) = 3.
Proof.
  intros Ha Hb Hc Hd. unfold ip4.
  rewrite count_dots_app, count_dots_dot, count_dots_app, count_dots_dot,
    count_dots_app, count_dots_dot, !count_dots_digits by assumption.
  reflexivity.
Qed.

Lemma digits_digit_or_dot ds :
  all_digits ds -> Forall (fun c => lexer.is_digit_or_dot c = true) ds.
Proof.
  intros H. eapply Forall_impl; [exact H |]. intros c Hc.
  unfold lexer.is_digit_or_dot. now rewrite Hc.
Qed.

Lemma ip4_digit_or_dot a b c d :
  all_digits a -> all_digits b -> all_digits c -> all_digits d ->
  Forall (fun c => lexer.is_digit_or_dot c = true) (ip4 a b c d).
Proof.
  intros Ha Hb Hc Hd. unfold ip4.
  repeat (apply Forall_app; split; [now apply digits_digit_or_dot |];
          apply Forall_cons; split; [reflexivity |]).
  now apply digits_digit_or_dot.
Qed.

Lemma ip4_no_nul a b c d :
  all_digits a -> all_digits b -> all_digits c -> all_digits d ->
  Forall (fun c => c <> NUL) (ip4 a b c d).
Proof.
  intros Ha Hb Hc Hd. unfold ip4.
  repeat (apply Forall_app; split; [now apply digits_no_nul |];
          apply Forall_cons; split; [discriminate |]).
  now apply digits_no_nul.
Qed.

Lemma span_stop (p : ascii -> bool) (run rest : list ascii) :
  Forall (fun c => p c = true) run ->
  p (nth 0 rest NUL) = false ->
  lexer.span p (run ++ rest) = run.
Proof.
  intros Hrun Hrest. apply span_all; [exact Hrun |].
  destruct rest; [exact I | exact Hrest].
Qed.

Lemma nth0_app_nil (l rest : list ascii) : l = [] -> nth 0 (l ++ rest) NUL = nth 0 rest NUL.
Proof. now intros ->. Qed.

Lemma read_number_ip (L : lexer) (tok : token) (a b c d : list ascii)
    (port : option (list ascii)) (rest : list ascii) :
  has_flag (lexer.m_flags L) lexer.flags.allow_ip_addresses = true ->
  rem L = ip_text a b c d port ++ rest ->
  all_digits a -> all_digits b -> all_digits c -> all_digits d ->
  match port with Some p => all_digits p | None => True end ->
  a <> [] ->
  (length a = 1%nat \/ nth 0 a NUL <> "0"%char) ->
  delimited rest ->
  lexer.internal_read_number tok L
  = (lexer.Ret (true,
       token.set_flags
         (match port with
          | Some _ => Z.lor token.flags.ip_address token.flags.ip_port
          | None => token.flags.ip_address
          end)
         (token.set_type token.number
            (lexer.append_run (ip_text a b c d port) tok))),
     lexer.with_script_ptr (lexer.m_script_ptr L + length (ip_text a b c d port)) L).
Proof.
  intros Hip Hrem Ha Hb Hc Hd Hp Hne Hlead Hdelim.
  unfold lexer.internal_read_number, lexer.read_number_digits. mstep.
  assert (Hoct : ((nth 0 (rem L) NUL =? "0")%char && negb (nth 1 (rem L) NUL =? ".")%char) = false).
  { rewrite Hrem. unfold ip_text. destruct a as [| a0 a']; [contradiction |].
    destruct Hlead as [Hl | Hl].
    - destruct a'; [| discriminate]. simpl. now rewrite andb_false_r.
    - simpl in *. apply Ascii.eqb_neq in Hl. now rewrite Hl. }
  rewrite Hoct. mstep.
  apply delimiter_facts in Hdelim
    as (Dd & Ddd & Dcolon & De & Dhash & Dname & Dgt & _).
  rewrite ip_text_split in Hrem |- *. rewrite <- app_assoc in Hrem.
  assert (Hspan : lexer.span lexer.is_digit_or_dot (rem L) = ip4 a b c d).
  { rewrite Hrem. apply span_stop; [now apply ip4_digit_or_dot |].
    destruct port as [p |]; simpl; [reflexivity | exact Ddd]. }
  rewrite Hspan, count_dots_ip4 by assumption.
  rewrite Hrem, drop_app_length.
  rewrite andb_false_r.
  change (3 =? 1) with false. change (1 <? 3) with true. change (3 =? 3) with true.
  cbv iota. mstep. rewrite Hip. cbn [negb]. mstep.
  rewrite Hrem, drop_app_length.
  change (has_flag token.flags.ip_address token.flags.floating_point) with false.
  change (has_flag token.flags.ip_address token.flags.integer) with false.
  change (has_flag token.flags.ip_address token.flags.ip_address) with true.
  cbv iota.
  destruct port as [p |]; simpl port_text; simpl nth.
  - cbn [Ascii.eqb Bool.eqb]. mstep.
    rewrite Hrem, drop_app_length. unfold port_text. rewrite <- app_comm_cons.
    cbn [nth]. rewrite skipn_cons, drop_0.
    rewrite span_stop; [| exact Hp | exact Dd].
    unfold lexer.ret. f_equal.
    + rewrite append_run_app. reflexivity.
    + rewrite !with_script_ptr_twice. f_equal.
      rewrite length_app. simpl. lia.
  - unfold port_text. rewrite ?app_nil_l. rewrite Dcolon. mstep.
    rewrite ?app_nil_r. reflexivity.
Qed.

(** * IP addresses: the token and the dots *)

Lemma bind_error {B} (msg : String.string) (k : bool -> lexer.M B) (L : lexer) :
  lexer.bind (lexer.error msg) k L
  = let L1 := lexer.with_error_count (u32 (lexer.m_error_count L + 1)) L in
    if has_flag (lexer.m_flags L) lexer.flags.no_errors then k false L1
    else
      let L2 := lexer.with_reports
                  (lexer.mk_report true (lexer.m_filename L) (lexer.m_last_line_num L) msg
                     (negb (has_flag (lexer.m_flags L) lexer.flags.no_fatal_errors))
                   :: lexer.m_reports L) L1 in
      if negb (has_flag (lexer.m_flags L) lexer.flags.no_fatal_errors)
      then (lexer.Thrown, L2) else k false L2.
Proof.
  unfold lexer.bind, lexer.error. simpl.
  destruct (has_flag (lexer.m_flags L) lexer.flags.no_errors); [reflexivity |].
  destruct (has_flag (lexer.m_flags L) lexer.flags.no_fatal_errors); reflexivity.
Qed.

Ltac mcases :=
  repeat (mstep; rewrite ?bind_error; cbv zeta;
          match goal with
          | |- context [if ?c then _ else _] => destruct c eqn:?
          end).

Lemma digit_or_dot_no_nul (c : ascii) : lexer.is_digit_or_dot c = true -> c <> NUL.
Proof. destruct c as [[] [] [] [] [] [] [] []]; vm_compute; discriminate. Qed.

Lemma span_no_nul (p : ascii -> bool) (rest : list ascii) :
  (forall c, p c = true -> c <> NUL) -> Forall (fun c => c <> NUL) (lexer.span p rest).
Proof. intros H. eapply Forall_impl; [apply span_Forall |]. exact H. Qed.

Lemma count_dots_span_digit (rest : list ascii) :
  lexer.count_dots (lexer.span is_digit rest) = 0.
Proof.
  apply count_dots_digits, span_Forall.
Qed.

Ltac in_list := repeat first [ left; reflexivity | right ].

Lemma read_number_digits_dots (tok tk : token) (fl : Z) (L L' : lexer) :
  lexer.read_number_digits tok L = (lexer.Ret (Some fl, tk), L') ->
  (fl = token.flags.ip_address /\
   token.m_string tk = token.m_string tok ++ lexer.span lexer.is_digit_or_dot (rem L) /\
   lexer.count_dots (lexer.span lexer.is_digit_or_dot (rem L)) = 3) \/
  In fl plain_number_flags.
Proof.
  unfold lexer.read_number_digits.
  unfold lexer.internal_check_string.
  mcases.
  all: mstep; unfold lexer.ret.
  all: try (intros E; discriminate E).
  all: intros E; try (injection E as <- <- <-).
  all: try (right; unfold plain_number_flags; in_list; fail).
  all: try (right;
    repeat (cbv beta in E; match type of E with
    | lexer.bind ?m ?k ?L = _ =>
        unfold lexer.bind at 1 in E; destruct (m L) as [[? | |] ?]; try discriminate E
    | (if ?c then _ else _) ?L = _ => destruct c
    end);
    injection E as <- <- <-; unfold plain_number_flags; in_list; fail).
  left. split; [reflexivity |]. split.
  - apply append_run_fields, span_no_nul, digit_or_dot_no_nul.
  - apply negb_false_iff, Z.eqb_eq in Heqb3.
    remember (lexer.count_dots (lexer.span lexer.is_digit_or_dot (rem L))) as d.
    destruct (_ && (d =? 0)) eqn:Hc; [| exact Heqb3].
    apply andb_true_iff in Hc as [_ Hd]. apply Z.eqb_eq in Hd. lia.
Qed.

Lemma is_digit_no_nul (c : ascii) : is_digit c = true -> c <> NUL.
Proof. intros H. apply is_digit_facts, H. Qed.

Lemma has_flag_lor (a b f : Z) : has_flag (Z.lor a b) f = has_flag a f || has_flag b f.
Proof.
  unfold has_flag. rewrite Z.land_lor_distr_l.
  destruct (Z.eqb_spec (Z.land a f) 0) as [Ea | Ea], (Z.eqb_spec (Z.land b f) 0) as [Eb | Eb];
    simpl; destruct (Z.eqb_spec (Z.lor (Z.land a f) (Z.land b f)) 0) as [E | E];
    try reflexivity; exfalso.
  - apply E. apply Z.lor_eq_0_iff. split; assumption.
  - apply Z.lor_eq_0_iff in E. tauto.
  - apply Z.lor_eq_0_iff in E. tauto.
  - apply Z.lor_eq_0_iff in E. tauto.
Qed.

Lemma plain_number_flags_kind (fl : Z) :
  In fl plain_number_flags ->
  has_flag fl token.flags.ip_address = false /\
  (has_flag fl token.flags.floating_point = true \/
   has_flag fl token.flags.floating_point = false /\ has_flag fl token.flags.integer = true).
Proof.
  unfold plain_number_flags. simpl.
  intros H. repeat (destruct H as [<- | H]); [.. | contradiction];
    (split; [reflexivity |]); first [ left; reflexivity | right; split; reflexivity ].
Qed.

Lemma read_number_three_dots (tok tk : token) (L L' : lexer) :
  lexer.internal_read_number tok L = (lexer.Ret (true, tk), L') ->
  has_flag (token.m_flags tk) token.flags.ip_address = true ->
  exists run, token.m_string tk = token.m_string tok ++ run /\ lexer.count_dots run = 3.
Proof.
  unfold lexer.internal_read_number.
  unfold lexer.bind at 1.
  destruct (lexer.read_number_digits tok L) as [[[[fl |] tk0] | |] L0] eqn:Hd;
    try discriminate.
  cbn [fst snd].
  apply read_number_digits_dots in Hd as [(-> & Hs & Hdots) | Hin].
  - change (has_flag token.flags.ip_address token.flags.floating_point) with false.
    change (has_flag token.flags.ip_address token.flags.integer) with false.
    change (has_flag token.flags.ip_address token.flags.ip_address) with true.
    cbv iota. mstep.
    destruct (Ascii.eqb _ ":") eqn:Hc; mstep; unfold lexer.ret;
      intros [= <- <-] _; cbn [token.m_string token.set_flags token.set_type].
    + eexists. split.
      * destruct (append_run_fields (lexer.span is_digit (drop 1 (rem L0)))
                    (token.append (nth 0 (rem L0) NUL) tk0)) as (E1 & _).
        { apply span_no_nul, is_digit_no_nul. }
        rewrite E1. apply Ascii.eqb_eq in Hc. rewrite Hc.
        unfold token.append. simpl. rewrite Hs, <- !app_assoc. reflexivity.
      * rewrite !count_dots_app, Hdots, count_dots_span_digit. reflexivity.
    + exists (lexer.span lexer.is_digit_or_dot (rem L)). split; assumption.
  - apply plain_number_flags_kind in Hin as (Hip & [Hfp | (Hfp & Hint)]).
    + rewrite Hfp. mcases.
      all: mstep; unfold lexer.ret.
      all: intros [= <- <-] Hflag; cbn [token.m_flags token.set_flags] in Hflag.
      all: rewrite has_flag_lor, Hip in Hflag; discriminate Hflag.
    + rewrite Hfp, Hint. cbn [lexer.int_suffix]. mcases.
      all: mstep; unfold lexer.ret.
      all: intros [= <- <-] Hflag; cbn [token.m_flags token.set_flags] in Hflag.
      all: rewrite has_flag_lor, Hip in Hflag; discriminate Hflag.
Qed.

Lemma next_token_ip (pt : lexer.punct_tables) (L : lexer) (out : token)
    (a b c d : list ascii) (port : option (list ascii)) (rest : list ascii) :
  lexer.m_initialized L = true ->
  lexer.m_token_available L = false ->
  has_flag (lexer.m_flags L) lexer.flags.allow_ip_addresses = true ->
  has_flag (lexer.m_flags L) lexer.flags.only_strings = false ->
  rem L = ip_text a b c d port ++ rest ->
  all_digits a -> all_digits b -> all_digits c -> all_digits d ->
  match port with Some p => all_digits p | None => True end ->
  a <> [] ->
  (length a = 1%nat \/ nth 0 a NUL <> "0"%char) ->
  delimited rest ->
  dec_value a <= 255 -> dec_value b <= 255 -> dec_value c <= 255 -> dec_value d <= 255 ->
  port_value port < 2 ^ 32 ->
  exists tk L',
    lexer.next_token pt out L = (lexer.Ret (true, tk), L') /\
    token.is_number tk = true /\
    has_flag (token.m_flags tk) token.flags.ip_address = true /\
    token.m_string tk = ip_text a b c d port /\
    option_map fst (token.as_uint64 tk)
    = Some (ip_word (dec_value a) (dec_value b) (dec_value c) (dec_value d) (port_value port)) /\
    rem L' = rest.
Proof.
  intros Hinit Havail Hip Honly Hrem Ha Hb Hc Hd Hp Hne Hlead Hdelim Va Vb Vc Vd Vp.
  unfold lexer.next_token. mstep. rewrite Hinit. cbn [negb]. mstep.
  rewrite Havail. mstep.
  set (L1 := lexer.with_whitespace_start_ptr _ _).
  assert (Hrem1 : rem L1 = rem L) by (apply rem_ext; reflexivity).
  destruct a as [| a0 a']; [contradiction |].
  assert (Ha0 : is_digit a0 = true) by (inversion Ha; assumption).
  assert (Hcur : nth 0 (rem L) NUL = a0) by (rewrite Hrem; reflexivity).
  erewrite bind_eq; cycle 1.
  { apply read_whitespace_none; rewrite Hrem1, Hcur.
    - unfold is_digit in Ha0. apply andb_true_iff in Ha0 as [H1 _]. apply Z.leb_le in H1. lia.
    - intros ->. discriminate Ha0. }
  mstep.
  set (L2 := lexer.with_whitespace_end_ptr _ _).
  assert (Hrem2 : rem L2 = rem L) by (apply rem_ext; reflexivity).
  rewrite Hrem2, Hcur.
  change (lexer.m_flags L2) with (lexer.m_flags L).
  rewrite Honly, Ha0. cbn [orb].
  erewrite bind_eq; cycle 1.
  { apply (read_number_ip L2 _ (a0 :: a') b c d port rest);
      [exact Hip | rewrite Hrem2; exact Hrem | assumption ..]. }
  mstep.
  set (fl := match port with
             | Some _ => Z.lor token.flags.ip_address token.flags.ip_port
             | None => token.flags.ip_address
             end).
  set (text := ip_text (a0 :: a') b c d port) in *.
  set (tok0 := token.set_lines_crossed _ _).
  set (tk := token.set_flags fl (token.set_type token.number (lexer.append_run text tok0))).
  set (L3 := lexer.with_script_ptr _ L2).
  assert (Hrem3 : rem L3 = rest).
  { unfold L3. rewrite rem_advance, Hrem2, Hrem. apply drop_app_length. }
  assert (Hnul : Forall (fun x => x <> NUL) text).
  { unfold text. rewrite ip_text_split. apply Forall_app. split.
    - now apply ip4_no_nul.
    - destruct port as [p |]; simpl; [| constructor].
      apply Forall_cons. split; [discriminate | now apply digits_no_nul]. }
  destruct (append_run_fields text tok0 Hnul) as (Es & Ef & Et & _).
  exists tk, L3. split; [| split; [| split; [| split; [| split]]]].
  - apply delimiter_facts in Hdelim as (_ & _ & _ & _ & _ & Dname & _).
    destruct (has_flag (lexer.m_flags L) lexer.flags.allow_number_names); [| reflexivity].
    mstep. rewrite Hrem3, Dname. reflexivity.
  - reflexivity.
  - unfold tk, fl. destruct port; reflexivity.
  - unfold tk. simpl. exact Es.
  - unfold token.as_uint64, token.get_value_u64, token.update_cached_values.
    change (token.is_number tk) with true. cbn [negb andb].
    change (token.m_values_valid tk) with false. cbn [negb].
    change (token.m_string tk) with (token.m_string (lexer.append_run text tok0)).
    change (token.m_flags tk) with fl.
    rewrite Es. change (token.m_string tok0) with (@nil ascii). rewrite app_nil_l.
    assert (Hcv : token.compute_values text fl
                  = Some (token.ip_value text, dbl.of_Z (token.ip_value text))).
    { unfold token.compute_values. rewrite (c_str_no_nul text Hnul).
      unfold fl. destruct port; reflexivity. }
    rewrite Hcv. simpl. f_equal.
    apply ip_value_text; assumption.
  - exact Hrem3.
Qed.



(** * Comments only: two block comments in a row *)

(** C9. On the script [/* a *//* b */], which holds two comments and
    nothing else, [next_token] returns true with the punctuation token [*]:
    after the closing [*/] of a block comment [internal_read_whitespace]
    moves the script pointer twice, so the [/] that opens the second comment
    is stepped over and the scan resumes inside it. No error is counted. *)
Theorem C9_adjacent_comments_yield_token :
  exists (tk : token) (L' : lexer),
    lexer.next_token default_tables token.default
      (lexer.from_memory (chars "/* a *//* b */") 0) = (lexer.Ret (true, tk), L')
    /\ token.m_string tk = chars "*"
    /\ token.m_type tk = token.punctuation
    /\ lexer.m_script_ptr L' = 9%nat
    /\ lexer.m_error_count L' = 0.
Proof.
  do 2 eexists.
  split; [vm_compute; reflexivity |].
  repeat split; vm_compute; reflexivity.
Qed.

(** * The [only_strings] mode *)

Lemma name_char_no_nul (lex_flags : Z) (c : ascii) :
  lexer.name_char lex_flags c = true -> c <> NUL.
Proof.
  intros H ->. unfold lexer.name_char, lexer.strings_only, lexer.allowing_path_names in H.
  change (lexer.valid_name_char NUL) with false in H.
  change (Ascii.eqb NUL "-") with false in H.
  change (Ascii.eqb NUL "/") with false in H.
  change (Ascii.eqb NUL "\") with false in H.
  change (Ascii.eqb NUL ":") with false in H.
  change (Ascii.eqb NUL ".") with false in H.
  rewrite !andb_false_r in H. discriminate H.
Qed.

Lemma read_name_ident_run (L : lexer) (tok : token) (c0 : ascii) (cs rest : list ascii) :
  rem L = (c0 :: cs) ++ rest ->
  c0 <> NUL ->
  Forall (fun c => lexer.name_char (lexer.m_flags L) c = true) cs ->
  lexer.name_char (lexer.m_flags L) (nth 0 rest NUL) = false ->
  exists tk,
    lexer.internal_read_name_ident tok L
    = (lexer.Ret (true, tk),
       lexer.with_script_ptr (lexer.m_script_ptr L + length (c0 :: cs)) L) /\
    token.m_string tk = token.m_string tok ++ c0 :: cs /\
    token.m_type tk = token.identifier.
Proof.
  intros Hrem Hc0 Hcs Hstop.
  unfold lexer.internal_read_name_ident. mstep.
  rewrite Hrem. cbn [app nth]. rewrite skipn_cons, drop_0.
  rewrite (span_stop _ cs rest Hcs Hstop).
  rewrite ?with_script_ptr_twice, ?script_ptr_with_script_ptr.
  set (tk := lexer.append_run cs (token.append c0 (token.set_type token.identifier tok))).
  assert (Hnul : Forall (fun c => c <> NUL) cs).
  { eapply Forall_impl; [exact Hcs |]. intros c. apply name_char_no_nul. }
  destruct (append_run_fields cs (token.append c0 (token.set_type token.identifier tok)) Hnul)
    as (Es & _ & Et & _).
  assert (Es' : token.m_string tk = token.m_string tok ++ c0 :: cs).
  { unfold tk. rewrite Es. unfold token.append.
    destruct (Ascii.eqb_spec c0 NUL) as [E | E]; [contradiction |].
    simpl. rewrite <- app_assoc. reflexivity. }
  assert (Et' : token.m_type tk = token.identifier).
  { unfold tk. rewrite Et. unfold token.append.
    destruct (Ascii.eqb_spec c0 NUL) as [E | E]; [contradiction |]. reflexivity. }
  replace (lexer.m_script_ptr L + 1 + length cs)%nat
    with (lexer.m_script_ptr L + length (c0 :: cs))%nat by (simpl; lia).
  destruct (_ || _); eexists; (split; [reflexivity |]); split; assumption.
Qed.




(** * Escape sequences *)

Lemma i32_small (z : Z) : 0 <= z < 2 ^ 31 -> i32 z = z.
Proof. intros H. unfold i32. rewrite Z.mod_small by lia. lia. Qed.

Lemma hex_digit_facts (c : ascii) :
  lexer.is_hex_digit c = true ->
  0 <= token.hex_digit_value c <= 15 /\
  (if is_digit c then Some (char_val c - 48)
   else if is_upper c then Some (char_val c - 65 + 10)
   else if is_lower c then Some (char_val c - 97 + 10)
   else None) = Some (token.hex_digit_value c).
Proof.
  destruct c as [[] [] [] [] [] [] [] []]; vm_compute; try discriminate;
    intros _; repeat split; try discriminate; try reflexivity.
Qed.

Lemma hex_value_mono (hs : list ascii) (v : Z) :
  Forall (fun c => lexer.is_hex_digit c = true) hs -> 0 <= v ->
  v <= fold_left (fun v c => v * 16 + token.hex_digit_value c) hs v.
Proof.
  intros H. revert v. induction H as [| c hs Hc _ IH]; intros v Hv; simpl; [lia |].
  apply hex_digit_facts in Hc as (Hd & _).
  etransitivity; [| apply IH; lia]. lia.
Qed.

Lemma scan_dec_escape_run (ds rest : list ascii) (v : Z) :
  Forall (fun c => is_digit c = true) ds ->
  is_digit (nth 0 rest NUL) = false ->
  0 <= v ->
  fold_left (fun v c => v * 10 + digit_value c) ds v < 2 ^ 31 ->
  lexer.scan_dec_escape (ds ++ rest) v
  = (fold_left (fun v c => v * 10 + digit_value c) ds v, length ds).
Proof.
  intros H Hstop. revert v. induction H as [| c ds Hc Hds IH]; intros v Hv Hmax;
    cbn [app lexer.scan_dec_escape fold_left length].
  - destruct rest as [| r rest]; [reflexivity |]. cbn [nth] in Hstop.
    cbn [lexer.scan_dec_escape]. now rewrite Hstop.
  - rewrite Hc. cbn [fold_left] in Hmax.
    pose proof (is_digit_facts c Hc) as (_ & _ & _ & _ & Hd).
    pose proof (dec_value_mono ds (v * 10 + digit_value c) Hds ltac:(lia)) as Hm.
    unfold digit_value in *.
    rewrite (i32_small (v * 10)) by lia.
    rewrite i32_small by lia.
    rewrite IH by lia. reflexivity.
Qed.

Lemma scan_hex_escape_run (hs rest : list ascii) (v : Z) :
  Forall (fun c => lexer.is_hex_digit c = true) hs ->
  ends_escape true (nth 0 rest NUL) = true ->
  0 <= v ->
  fold_left (fun v c => v * 16 + token.hex_digit_value c) hs v < 2 ^ 31 ->
  lexer.scan_hex_escape (hs ++ rest) v
  = (fold_left (fun v c => v * 16 + token.hex_digit_value c) hs v, length hs).
Proof.
  intros H Hstop. revert v. induction H as [| c hs Hc Hhs IH]; intros v Hv Hmax;
    cbn [app lexer.scan_hex_escape fold_left length].
  - destruct rest as [| r rest]; [reflexivity |]. cbn [nth] in Hstop.
    unfold ends_escape in Hstop. cbn [negb orb] in Hstop.
    apply andb_true_iff in Hstop as [H1 H2].
    apply negb_true_iff in H1, H2. apply orb_false_iff in H2 as [H2 H3].
    cbn [lexer.scan_hex_escape]. now rewrite H1, H2, H3.
  - cbn [fold_left] in Hmax.
    pose proof (hex_digit_facts c Hc) as (Hd & ->).
    pose proof (hex_value_mono hs (v * 16 + token.hex_digit_value c) Hhs ltac:(lia)) as Hm.
    rewrite Z.shiftl_mul_pow2 by lia. change (2 ^ 4) with 16.
    rewrite (i32_small (v * 16)) by lia.
    rewrite i32_small by lia.
    rewrite IH by lia. reflexivity.
Qed.

Lemma bind_warning {B} (msg : String.string) (k : unit -> lexer.M B) (L : lexer) :
  lexer.bind (lexer.warning msg) k L = k tt (snd (lexer.warning msg L)).
Proof.
  unfold lexer.bind, lexer.warning.
  destruct (has_flag _ _); reflexivity.
Qed.

Lemma warning_fields (msg : String.string) (L : lexer) :
  let L' := snd (lexer.warning msg L) in
  lexer.m_warn_count L' = u32 (lexer.m_warn_count L + 1) /\
  lexer.m_error_count L' = lexer.m_error_count L /\
  lexer.m_script_ptr L' = lexer.m_script_ptr L /\
  lexer.m_buffer L' = lexer.m_buffer L.
Proof.
  unfold lexer.warning. cbv zeta.
  destruct (has_flag _ _); repeat split; reflexivity.
Qed.

Lemma digit_not_simple_escape (c : ascii) :
  is_digit c = true -> c <> "0"%char ->
  lexer.simple_escape c = None /\ Ascii.eqb c "x" = false /\
  (char_val c <? 48) || (57 <? char_val c) = false.
Proof.
  destruct c as [[] [] [] [] [] [] [] []]; vm_compute; try discriminate;
    intros _ H; try (exfalso; apply H; reflexivity); repeat split.
Qed.




(** * Punctuation tables and the longest match *)

Lemma rd_insert_eq (a : list Z) (i : nat) (x : Z) :
  (i < length a)%nat -> lexer.rd (<[i := x]> a) i = x.
Proof. intros Hi. apply nth_lookup_Some. now apply list_lookup_insert_eq. Qed.

Lemma rd_insert_ne (a : list Z) (i j : nat) (x : Z) :
  i <> j -> lexer.rd (<[i := x]> a) j = lexer.rd a j.
Proof. intros Hne. unfold lexer.rd. rewrite !nth_lookup. now rewrite list_lookup_insert_ne. Qed.

Lemma linked_hd (next : list Z) (n : Z) (l : list nat) : linked next n l -> n = hd_Z l.
Proof. destruct l; simpl; [tauto | intros [H _]; exact H]. Qed.

Lemma linked_insert (next : list Z) (k : nat) (v n : Z) (l : list nat) :
  ~ In k l -> linked next n l -> linked (<[k := v]> next) n l.
Proof.
  revert n. induction l as [| j l IH]; intros n Hk H; simpl in *; [exact H |].
  destruct H as [-> H]. split; [reflexivity |].
  rewrite rd_insert_ne by (intros ->; apply Hk; now left).
  apply IH; [intros Hin; apply Hk; now right | exact H].
Qed.

(** Putting entry [i] into a chain after the part [l1]. *)
Lemma relink (next : list Z) (i : nat) (n : Z) (l1 l2 : list nat) :
  linked next n (l1 ++ l2) ->
  NoDup (l1 ++ l2) -> ~ In i (l1 ++ l2) ->
  (i < length next)%nat -> Forall (fun j => (j < length next)%nat) (l1 ++ l2) ->
  l1 <> [] ->
  linked (<[Z.to_nat (last_Z (-1) l1) := Z.of_nat i]> (<[i := hd_Z l2]> next)) n
    (l1 ++ i :: l2).
Proof.
  revert n. induction l1 as [| j l1 IH]; intros n H Hnd Hi Hlen Hall Hne; [contradiction |].
  destruct H as [-> H]. simpl in Hnd. apply NoDup_cons in Hnd as [Hj Hnd].
  apply Forall_cons in Hall as [Hjlen Hall].
  assert (Hij : i <> j) by (intros ->; apply Hi; now left).
  assert (Hi' : ~ In i (l1 ++ l2)) by (intros Hin; apply Hi; now right).
  destruct l1 as [| j' l1].
  - simpl. rewrite Nat2Z.id. split; [reflexivity |].
    rewrite rd_insert_eq by (rewrite length_insert; exact Hjlen).
    split; [reflexivity |].
    rewrite rd_insert_ne by congruence.
    rewrite rd_insert_eq by exact Hlen.
    simpl in H. pose proof (linked_hd _ _ _ H) as E. rewrite <- E.
    apply linked_insert; [rewrite <- list_elem_of_In in *; exact Hj |].
    apply linked_insert; [exact Hi' | exact H].
  - cbn [last_Z]. split; [reflexivity |].
    assert (Hlast : In (Z.to_nat (last_Z (Z.of_nat j') l1)) (j' :: l1)).
    { clear. revert j'. induction l1 as [| a l1 IH]; intros j'; simpl.
      - left. now rewrite Nat2Z.id.
      - right. apply IH. }
    rewrite rd_insert_ne.
    2:{ intros E. apply Hj. rewrite list_elem_of_In. rewrite <- E.
        apply in_or_app. left. exact Hlast. }
    rewrite rd_insert_ne by congruence.
    specialize (IH (lexer.rd next j) H Hnd Hi' Hlen Hall ltac:(discriminate)).
    exact IH.
Qed.

Section chains.
Variable ps : list lexer.punctuation_def.

Lemma find_shorter_spec (next : list Z) (new_len : nat) (l : list nat) :
  forall (fuel : nat) (n last : Z),
  linked next n l -> (length l <= fuel)%nat ->
  exists l1 l2, l = l1 ++ l2 /\
    Forall (fun j => (new_len <= punct_len ps j)%nat) l1 /\
    match l2 with [] => True | j :: _ => (punct_len ps j < new_len)%nat end /\
    lexer.find_shorter fuel ps next new_len n last = Some (hd_Z l2, last_Z last l1).
Proof.
  induction l as [| j l IH]; intros fuel n last H Hfuel.
  - simpl in H. subst n. exists [], []. repeat split; [constructor |].
    destruct fuel; reflexivity.
  - destruct H as [-> H]. destruct fuel as [| fuel]; [simpl in Hfuel; lia |].
    cbn [lexer.find_shorter].
    replace (Z.of_nat j <? 0) with false by (symmetry; apply Z.ltb_ge; lia).
    unfold lexer.punct_at. rewrite Nat2Z.id. fold (punct_len ps j).
    destruct (Nat.ltb_spec (punct_len ps j) new_len) as [Hlt | Hge].
    + exists [], (j :: l). repeat split; [constructor | exact Hlt].
    + destruct (IH fuel (lexer.rd next j) (Z.of_nat j) H ltac:(simpl in Hfuel; lia))
        as (l1 & l2 & -> & Hl1 & Hl2 & E).
      exists (j :: l1), l2. repeat split; [constructor; assumption | exact Hl2 | exact E].
Qed.

Lemma chain_before_irrefl (i : nat) : ~ chain_before ps i i.
Proof. unfold chain_before. lia. Qed.

Lemma chain_before_len (i j : nat) : chain_before ps i j -> (punct_len ps j <= punct_len ps i)%nat.
Proof. unfold chain_before. lia. Qed.

Lemma sorted_NoDup (l : list nat) : StronglySorted (chain_before ps) l -> NoDup l.
Proof.
  induction 1 as [| a l _ IH Ha]; [constructor |].
  apply NoDup_cons. split; [| exact IH].
  intros Hin. rewrite Forall_forall in Ha. exact (chain_before_irrefl a (Ha a Hin)).
Qed.

Lemma sorted_insert (k : nat) (l1 l2 : list nat) :
  StronglySorted (chain_before ps) (l1 ++ l2) ->
  Forall (fun j => (punct_len ps k <= punct_len ps j)%nat) l1 ->
  match l2 with [] => True | j :: _ => (punct_len ps j < punct_len ps k)%nat end ->
  Forall (fun j => (j < k)%nat) (l1 ++ l2) ->
  StronglySorted (chain_before ps) (l1 ++ k :: l2).
Proof.
  induction l1 as [| a l1 IH]; intros Hs Hl1 Hl2 Hlt; simpl in *.
  - constructor; [exact Hs |].
    destruct l2 as [| j l2]; [constructor |].
    apply StronglySorted_inv in Hs as [_ Hj].
    constructor; [left; exact Hl2 |].
    eapply Forall_impl; [exact Hj |]. intros e He.
    apply chain_before_len in He. left. lia.
  - apply StronglySorted_inv in Hs as [Hs Ha].
    apply Forall_cons in Hl1 as [Hak Hl1]. apply Forall_cons in Hlt as [Halt Hlt].
    constructor; [apply IH; assumption |].
    apply Forall_app in Ha as [Ha1 Ha2].
    apply Forall_app. split; [exact Ha1 |].
    constructor; [| exact Ha2].
    unfold chain_before. lia.
Qed.

Lemma bounded_NoDup_length (k : nat) (l : list nat) :
  NoDup l -> Forall (fun j => (j < k)%nat) l -> (length l <= k)%nat.
Proof.
  intros Hnd Hlt.
  apply NoDup_ListNoDup in Hnd.
  pose proof (@NoDup_incl_length nat l (seq 0 k) Hnd) as H.
  rewrite List.length_seq in H. apply H.
  intros j Hj. apply in_seq. rewrite Forall_forall in Hlt.
  specialize (Hlt j). rewrite list_elem_of_In in Hlt. specialize (Hlt Hj). lia.
Qed.

Lemma last_Z_in (l : list nat) (d : Z) :
  l <> [] -> In (Z.to_nat (last_Z d l)) l /\ 0 <= last_Z d l.
Proof.
  revert d. induction l as [| a l IH]; intros d Hne; [contradiction |].
  cbn [last_Z]. destruct l as [| b l].
  - simpl. rewrite Nat2Z.id. split; [now left | lia].
  - destruct (IH (Z.of_nat a) ltac:(discriminate)) as [H1 H2].
    split; [right; exact H1 | exact H2].
Qed.

Lemma heads_fun (a b j : nat) : heads ps a j -> heads ps b j -> a = b.
Proof. intros (s & E & <-) (s' & E' & <-). congruence. Qed.

Lemma char_index_bound (x : ascii) : 0 <= char_val x -> (lexer.char_index x < 256)%nat.
Proof.
  unfold lexer.char_index, char_val, u32.
  pose proof (N_ascii_bounded x) as Hb.
  destruct (Z.ltb_spec (Z.of_N (N_of_ascii x)) 128) as [Hlt | Hge]; intros H; [| lia].
  rewrite Z.mod_small by lia.
  change 256%nat with (Z.to_nat 256). apply Z2Nat.inj_lt; lia.
Qed.

Lemma insert_punct_inv (k : nat) (table next : list Z) :
  ascii7 ps -> (k < length ps)%nat ->
  tables_inv ps k table next ->
  exists table' next',
    lexer.insert_punct ps k (table, next) = Some (table', next') /\
    tables_inv ps (S k) table' next'.
Proof.
  intros H7 Hk (Ht & Hn & Hinv).
  unfold lexer.insert_punct.
  destruct (lexer.str (nth k ps (lexer.mk_punct None 0))) as [s |] eqn:Es.
  2:{ exists table, next. split; [reflexivity |]. split; [exact Ht |]. split; [exact Hn |].
      intros ci Hci. destruct (Hinv ci Hci) as (l & Hl & Hs & Hm).
      exists l. split; [exact Hl |]. split; [exact Hs |].
      intros j. rewrite Hm. split; intros [H1 H2]; (split; [| exact H2]); [lia |].
      destruct H2 as (s' & E' & _).
      assert (j <> k) by (intros ->; congruence). lia. }
  set (c := lexer.char_index (lexer.first_char s)).
  assert (Hheads : heads ps c k) by (exists s; split; [exact Es | reflexivity]).
  assert (Hc : (c < 256)%nat).
  { apply char_index_bound. unfold ascii7 in H7. rewrite Forall_forall in H7.
    specialize (H7 (nth k ps (lexer.mk_punct None 0))).
    rewrite Es in H7. apply H7. apply list_elem_of_In, nth_In. exact Hk. }
  destruct (Hinv c Hc) as (l & Hl & Hs & Hm).
  assert (Hlt : Forall (fun j => (j < k)%nat) l).
  { apply Forall_forall. intros j Hj. apply list_elem_of_In, Hm in Hj. tauto. }
  pose proof (sorted_NoDup l Hs) as Hnd.
  pose proof (bounded_NoDup_length k l Hnd Hlt) as Hlen.
  destruct (find_shorter_spec next (lexer.strlen (nth k ps (lexer.mk_punct None 0)))
              l (length ps) (lexer.rd table c) (-1) Hl ltac:(lia))
    as (l1 & l2 & -> & Hl1 & Hl2 & E).
  fold c. rewrite E.
  assert (Enext : (if 0 <=? hd_Z l2 then <[k := hd_Z l2]> next else <[k := -1]> next)
                  = <[k := hd_Z l2]> next).
  { destruct l2 as [| j l2]; [reflexivity |]. simpl.
    destruct (Z.leb_spec 0 (Z.of_nat j)); [reflexivity | lia]. }
  rewrite Enext. clear Enext.
  assert (Hk_notin : ~ In k (l1 ++ l2)).
  { intros Hin. apply Hm in Hin. lia. }
  assert (Hbound : Forall (fun j => (j < length next)%nat) (l1 ++ l2)).
  { eapply Forall_impl; [exact Hlt |]. simpl. intros; lia. }
  assert (Hsorted : StronglySorted (chain_before ps) (l1 ++ k :: l2)).
  { apply sorted_insert; assumption. }
  assert (Hmem : forall j, In j (l1 ++ k :: l2) <-> (j < S k)%nat /\ heads ps c j).
  { intros j. specialize (Hm j). rewrite in_app_iff in *. simpl.
    split.
    - intros [H | [<- | H]]; [| split; [lia | exact Hheads] |];
        (assert (In j l1 \/ In j l2) as H' by tauto; apply Hm in H'; split; [lia | tauto]).
    - intros [H1 H2]. destruct (Nat.eq_dec j k) as [-> | Hne]; [tauto |].
      assert (In j l1 \/ In j l2) by (apply Hm; split; [lia | exact H2]). tauto. }
  assert (Hother : forall ci l', ci <> c -> (forall j, In j l' <-> (j < k)%nat /\ heads ps ci j) ->
            (forall j, In j l' <-> (j < S k)%nat /\ heads ps ci j) /\
            ~ In k l' /\ (forall j, In j (l1 ++ l2) -> ~ In j l')).
  { intros ci l' Hne Hm'. split; [| split].
    - intros j. rewrite Hm'. split; intros [H1 H2]; (split; [| exact H2]); [lia |].
      assert (j <> k) by (intros ->; apply Hne; eapply heads_fun; eassumption). lia.
    - intros Hin. apply Hm' in Hin. lia.
    - intros j Hj Hj'. apply Hm in Hj. apply Hm' in Hj'.
      apply Hne. eapply heads_fun; [apply Hj' | apply Hj]. }
  destruct l1 as [| a l1].
  - cbn [last_Z]. change (0 <=? -1) with false. cbv iota.
    eexists _, _. split; [reflexivity |].
    split; [rewrite length_insert; exact Ht |].
    split; [rewrite length_insert; exact Hn |].
    intros ci Hci. destruct (Nat.eq_dec ci c) as [-> | Hne].
    + exists (k :: l2). split; [| split; [exact Hsorted | exact Hmem]].
      rewrite rd_insert_eq by lia. split; [reflexivity |].
      rewrite rd_insert_eq by lia.
      simpl in Hl. pose proof (linked_hd _ _ _ Hl) as Eh. rewrite <- Eh.
      apply linked_insert; [exact Hk_notin | exact Hl].
    + destruct (Hinv ci Hci) as (l' & Hl' & Hs' & Hm').
      destruct (Hother ci l' Hne Hm') as (Hm'' & Hk' & _).
      exists l'. split; [| split; [exact Hs' | exact Hm'']].
      rewrite rd_insert_ne by congruence.
      apply linked_insert; [exact Hk' | exact Hl'].
  - destruct (last_Z_in (a :: l1) (-1) ltac:(discriminate)) as [Hlast_in Hlast_pos].
    destruct (Z.leb_spec 0 (last_Z (-1) (a :: l1))) as [_ | Hneg]; [| lia].
    eexists _, _. split; [reflexivity |].
    split; [exact Ht |].
    split; [rewrite !length_insert; exact Hn |].
    intros ci Hci. destruct (Nat.eq_dec ci c) as [-> | Hne].
    + exists ((a :: l1) ++ k :: l2). split; [| split; [exact Hsorted | exact Hmem]].
      apply relink; try assumption; [lia | discriminate].
    + destruct (Hinv ci Hci) as (l' & Hl' & Hs' & Hm').
      destruct (Hother ci l' Hne Hm') as (Hm'' & Hk' & Hdisj).
      exists l'. split; [| split; [exact Hs' | exact Hm'']].
      apply linked_insert.
      * apply Hdisj. apply in_or_app. left. exact Hlast_in.
      * apply linked_insert; [exact Hk' | exact Hl'].
Qed.

Lemma insert_puncts_inv (m : nat) :
  forall (k : nat) (table next : list Z),
  ascii7 ps -> (k + m <= length ps)%nat ->
  tables_inv ps k table next ->
  exists table' next',
    lexer.insert_puncts ps (seq k m) (table, next) = Some (table', next') /\
    tables_inv ps (k + m) table' next'.
Proof.
  induction m as [| m IH]; intros k table next H7 Hk Hinv.
  - exists table, next. rewrite Nat.add_0_r. split; [reflexivity | exact Hinv].
  - cbn [seq lexer.insert_puncts].
    destruct (insert_punct_inv k table next H7 ltac:(lia) Hinv) as (t1 & n1 & E1 & Hinv1).
    rewrite E1.
    destruct (IH (S k) t1 n1 H7 ltac:(lia) Hinv1) as (t2 & n2 & E2 & Hinv2).
    exists t2, n2. split; [exact E2 |].
    replace (k + S m)%nat with (S k + m)%nat by lia. exact Hinv2.
Qed.

Lemma tables_inv_init :
  tables_inv ps 0 (replicate 256 (-1)) (replicate (length ps) (-1)).
Proof.
  split; [apply length_replicate |]. split; [apply length_replicate |].
  intros ci Hci. exists []. split; [| split].
  - cbn [linked]. unfold lexer.rd. apply nth_lookup_Some. apply lookup_replicate_2. exact Hci.
  - constructor.
  - intros j. simpl. split; [tauto | lia].
Qed.

Lemma set_punctuation_tables_inv :
  ascii7 ps ->
  exists pt,
    lexer.set_punctuation_tables ps = Some pt /\
    lexer.m_punctuations pt = ps /\
    lexer.m_punctuations_size pt = length ps /\
    tables_inv ps (length ps) (lexer.m_punctuations_table pt) (lexer.m_punctuations_next pt).
Proof.
  intros H7. unfold lexer.set_punctuation_tables.
  destruct (insert_puncts_inv (length ps) 0 _ _ H7 ltac:(lia) tables_inv_init)
    as (table & next & E & Hinv).
  rewrite E. eexists. split; [reflexivity |]. repeat split; apply Hinv.
Qed.

Lemma chain_from_linked (next : list Z) (l : list nat) :
  forall (fuel : nat) (n : Z),
  linked next n l -> (length l <= fuel)%nat ->
  lexer.chain_from fuel next n = map Z.of_nat l.
Proof.
  induction l as [| j l IH]; intros fuel n H Hfuel.
  - simpl in H. subst n. destruct fuel; reflexivity.
  - destruct H as [-> H]. destruct fuel as [| fuel]; [simpl in Hfuel; lia |].
    cbn [lexer.chain_from map].
    replace (Z.of_nat j <? 0) with false by (symmetry; apply Z.ltb_ge; lia).
    rewrite Nat2Z.id. f_equal. apply IH; [exact H | simpl in Hfuel; lia].
Qed.

Lemma find_punctuation_first (pt : lexer.punct_tables) (rest : list ascii) (l : list nat) :
  forall (fuel : nat) (n : Z),
  lexer.m_punctuations pt = ps ->
  linked (lexer.m_punctuations_next pt) n l -> (length l <= fuel)%nat ->
  (Forall (fun e => matches ps rest e = false) l /\
   lexer.find_punctuation fuel pt rest n = lexer.Ret None) \/
  (exists l1 j l2, l = l1 ++ j :: l2 /\
     Forall (fun e => matches ps rest e = false) l1 /\
     matches ps rest j = true /\
     lexer.find_punctuation fuel pt rest n
     = lexer.Ret (Some (nth j ps (lexer.mk_punct None 0)))).
Proof.
  induction l as [| j l IH]; intros fuel n Hps H Hfuel.
  - simpl in H. subst n. left. split; [constructor |]. destruct fuel; reflexivity.
  - destruct H as [-> H]. destruct fuel as [| fuel]; [simpl in Hfuel; lia |].
    cbn [lexer.find_punctuation].
    replace (Z.of_nat j <? 0) with false by (symmetry; apply Z.ltb_ge; lia).
    unfold lexer.punct_at. rewrite Nat2Z.id, Hps.
    destruct (matches ps rest j) eqn:Ej.
    + right. exists [], j, l. split; [reflexivity |]. split; [constructor |].
      split; [exact Ej |].
      unfold matches in Ej.
      destruct (lexer.str (nth j ps (lexer.mk_punct None 0))) as [s |]; [| discriminate].
      rewrite Ej. reflexivity.
    + assert (Estep : match lexer.str (nth j ps (lexer.mk_punct None 0)) with
                      | Some s =>
                          if lexer.punct_match (c_str s) rest
                          then lexer.Ret (Some (nth j ps (lexer.mk_punct None 0)))
                          else lexer.find_punctuation fuel pt rest
                                 (lexer.rd (lexer.m_punctuations_next pt) j)
                      | None => lexer.find_punctuation fuel pt rest
                                  (lexer.rd (lexer.m_punctuations_next pt) j)
                      end
                      = lexer.find_punctuation fuel pt rest
                          (lexer.rd (lexer.m_punctuations_next pt) j)).
      { unfold matches in Ej.
        destruct (lexer.str (nth j ps (lexer.mk_punct None 0))); [now rewrite Ej | reflexivity]. }
      rewrite Estep.
      destruct (IH fuel _ Hps H ltac:(simpl in Hfuel; lia))
        as [(Hall & E) | (l1 & j' & l2 & -> & Hl1 & Hj' & E)].
      * left. split; [constructor; assumption | exact E].
      * right. exists (j :: l1), j', l2. split; [reflexivity |].
        split; [constructor; assumption |]. split; [exact Hj' | exact E].
Qed.

End chains.

Lemma punct_match_first (chars rest : list ascii) :
  chars <> [] -> lexer.punct_match chars rest = true -> nth 0 rest NUL = nth 0 chars NUL.
Proof.
  destruct chars as [| c chars]; [contradiction |]. intros _.
  destruct rest as [| r rest]; simpl; [discriminate |].
  destruct (Ascii.eqb r NUL); [discriminate |].
  destruct (Ascii.eqb_spec r c) as [-> | _]; [reflexivity | discriminate].
Qed.

Lemma sorted_after (ps : list lexer.punctuation_def) (l1 l2 : list nat) (j : nat) :
  StronglySorted (chain_before ps) (l1 ++ j :: l2) -> Forall (chain_before ps j) l2.
Proof.
  induction l1 as [| a l1 IH]; simpl; intros H; apply StronglySorted_inv in H as [H Ha].
  - exact Ha.
  - apply IH, H.
Qed.

Lemma str_in_range (ps : list lexer.punctuation_def) (i : nat) (s : list ascii) :
  lexer.str (nth i ps (lexer.mk_punct None 0)) = Some s -> (i < length ps)%nat.
Proof.
  intros E. destruct (Nat.lt_ge_cases i (length ps)) as [H | H]; [exact H |].
  rewrite nth_overflow in E by exact H. discriminate E.
Qed.


Lemma ascii7_default : ascii7 lexer.default_punctuations.
Proof.
  unfold ascii7, lexer.default_punctuations.
  repeat (constructor; [vm_compute; try discriminate; exact I |]).
  constructor.
Qed.



(** * What the calls leave in place *)

Lemma count_grows_refl (c : Z) : count_grows c c.
Proof. left. reflexivity. Qed.

Lemma count_grows_trans (a b c : Z) : count_grows a b -> count_grows b c -> count_grows a c.
Proof.
  intros [-> | (k1 & H1 & ->)] [-> | (k2 & H2 & ->)].
  - left. reflexivity.
  - right. exists k2. split; [exact H2 | reflexivity].
  - right. exists k1. split; [exact H1 | reflexivity].
  - right. exists (k1 + k2). split; [lia |].
    unfold u32. rewrite Zplus_mod_idemp_l. f_equal. lia.
Qed.

Lemma count_grows_succ (c : Z) : count_grows c (u32 (c + 1)).
Proof. right. exists 1. split; [lia | reflexivity]. Qed.

Lemma scans_refl (L : lexer) : scans L L.
Proof. unfold scans. repeat split; apply count_grows_refl. Qed.

Lemma scans_trans (L1 L2 L3 : lexer) : scans L1 L2 -> scans L2 L3 -> scans L1 L3.
Proof.
  unfold scans.
  intros (A1 & A2 & A3 & A4 & A5 & A6 & A7 & A8 & A9 & A10 & A11 & A12 & A13 & A14 & A15)
         (B1 & B2 & B3 & B4 & B5 & B6 & B7 & B8 & B9 & B10 & B11 & B12 & B13 & B14 & B15).
  repeat split; try congruence; eapply count_grows_trans; eassumption.
Qed.

Lemma steps_refl (L : lexer) : steps L L.
Proof. unfold steps. repeat split; apply count_grows_refl. Qed.

Lemma steps_trans (L1 L2 L3 : lexer) : steps L1 L2 -> steps L2 L3 -> steps L1 L3.
Proof.
  unfold steps.
  intros (A1 & A2 & A3 & A4 & A5 & A6 & A7 & A8 & A9)
         (B1 & B2 & B3 & B4 & B5 & B6 & B7 & B8 & B9).
  repeat split; try congruence; eapply count_grows_trans; eassumption.
Qed.

Lemma scans_steps (L L' : lexer) : scans L L' -> steps L L'.
Proof. unfold scans, steps. tauto. Qed.

Section keeps_rules.
Variable R : lexer -> lexer -> Prop.
Hypothesis R_refl : forall L, R L L.
Hypothesis R_trans : forall L1 L2 L3, R L1 L2 -> R L2 L3 -> R L1 L3.
Context {A B : Type}.

Lemma keeps_ret (a : A) : keeps R (lexer.ret a).
Proof. intros L. apply R_refl. Qed.

Lemma keeps_gets (f : lexer -> A) : keeps R (lexer.gets f).
Proof. intros L. apply R_refl. Qed.

Lemma keeps_out_of_fuel : keeps R (@lexer.out_of_fuel A).
Proof. intros L. apply R_refl. Qed.

Lemma keeps_bind (m : lexer.M A) (k : A -> lexer.M B) :
  keeps R m -> (forall a, keeps R (k a)) -> keeps R (lexer.bind m k).
Proof.
  intros Hm Hk L. unfold lexer.bind. specialize (Hm L).
  destruct (m L) as [[a | |] L1]; simpl in *; [| exact Hm | exact Hm].
  eapply R_trans; [exact Hm | apply Hk].
Qed.

Lemma keeps_modify (f : lexer -> lexer) :
  (forall L, R L (f L)) -> keeps R (lexer.modify f).
Proof. intros H L. apply H. Qed.

End keeps_rules.

Lemma keeps_weaken {A} (R R' : lexer -> lexer -> Prop) (m : lexer.M A) :
  (forall L L', R L L' -> R' L L') -> keeps R m -> keeps R' m.
Proof. intros H Hm L. apply H, Hm. Qed.

Ltac scans_field :=
  unfold scans; cbn; repeat split;
  first [ reflexivity | apply count_grows_refl | apply count_grows_succ ].

Lemma scans_error (msg : String.string) : keeps scans (lexer.error msg).
Proof.
  intros L. unfold lexer.error. cbn.
  destruct (has_flag _ _); [scans_field |].
  destruct (negb _); scans_field.
Qed.

Lemma scans_warning (msg : String.string) : keeps scans (lexer.warning msg).
Proof.
  intros L. unfold lexer.warning. cbn.
  destruct (has_flag _ _); scans_field.
Qed.

Lemma scans_advance (k : nat) : keeps scans (lexer.advance k).
Proof. intros L. scans_field. Qed.

Lemma scans_retreat : keeps scans lexer.retreat.
Proof. intros L. scans_field. Qed.

Lemma scans_next_line : keeps scans lexer.next_line.
Proof. intros L. scans_field. Qed.

Lemma scans_restore (p : nat) (n : Z) : keeps scans (lexer.restore p n).
Proof. intros L. scans_field. Qed.

Create HintDb keeps_db.
#[export] Hint Resolve scans_error scans_warning scans_advance scans_retreat
  scans_next_line scans_restore : keeps_db.

Ltac keeps_rel :=
  first [ exact scans_refl | exact scans_trans | exact steps_refl | exact steps_trans ].

Ltac keeps_step :=
  first
    [ solve [auto with keeps_db]
    | apply keeps_ret; keeps_rel
    | apply keeps_gets; keeps_rel
    | apply keeps_out_of_fuel; keeps_rel
    | apply keeps_bind; [ keeps_rel | | intros ? ]
    | match goal with
      | |- keeps _ (if ?c then _ else _) => destruct c
      | |- keeps _ (match ?x with _ => _ end) => destruct x
      | |- keeps _ (let '(_, _) := ?x in _) => destruct x
      end ].

Lemma scans_peek (k : nat) : keeps scans (lexer.peek k).
Proof. apply keeps_gets, scans_refl. Qed.
Lemma scans_peek_prev : keeps scans lexer.peek_prev.
Proof. apply keeps_gets, scans_refl. Qed.
Lemma scans_remaining : keeps scans lexer.remaining.
Proof. apply keeps_gets, scans_refl. Qed.
Lemma scans_flag (b : Z) : keeps scans (lexer.flag b).
Proof. apply keeps_gets, scans_refl. Qed.
Lemma scans_script_fuel : keeps scans lexer.script_fuel.
Proof. apply keeps_gets, scans_refl. Qed.
#[export] Hint Resolve scans_peek scans_peek_prev scans_remaining scans_flag
  scans_script_fuel : keeps_db.

Lemma scans_skip_blanks (fuel : nat) : keeps scans (lexer.skip_blanks fuel).
Proof.
  induction fuel as [| fuel IH]; cbn [lexer.skip_blanks]; repeat keeps_step.
Qed.
#[export] Hint Resolve scans_skip_blanks : keeps_db.

Lemma scans_skip_line_comment (fuel : nat) : keeps scans (lexer.skip_line_comment fuel).
Proof.
  induction fuel as [| fuel IH]; cbn [lexer.skip_line_comment]; repeat keeps_step.
Qed.

Lemma scans_skip_block_comment (fuel : nat) : keeps scans (lexer.skip_block_comment fuel).
Proof.
  induction fuel as [| fuel IH]; cbn [lexer.skip_block_comment]; repeat keeps_step.
Qed.
#[export] Hint Resolve scans_skip_line_comment scans_skip_block_comment : keeps_db.

Lemma scans_read_whitespace_loop (fuel : nat) : keeps scans (lexer.read_whitespace_loop fuel).
Proof.
  induction fuel as [| fuel IH]; cbn [lexer.read_whitespace_loop]; repeat keeps_step.
Qed.
#[export] Hint Resolve scans_read_whitespace_loop : keeps_db.

Lemma scans_internal_read_whitespace : keeps scans lexer.internal_read_whitespace.
Proof. unfold lexer.internal_read_whitespace. repeat keeps_step. Qed.

Lemma scans_append_cur (tok : token) : keeps scans (lexer.append_cur tok).
Proof. unfold lexer.append_cur. repeat keeps_step. Qed.

Lemma scans_append_while (p : ascii -> bool) (tok : token) :
  keeps scans (lexer.append_while p tok).
Proof. unfold lexer.append_while. repeat keeps_step. Qed.
#[export] Hint Resolve scans_internal_read_whitespace scans_append_cur
  scans_append_while : keeps_db.

Lemma scans_append_count (k : nat) (tok : token) : keeps scans (lexer.append_count k tok).
Proof.
  revert tok. induction k as [| k IH]; intros tok; cbn [lexer.append_count];
    repeat keeps_step.
Qed.

Lemma scans_int_suffix (k : nat) (fl : Z) : keeps scans (lexer.int_suffix k fl).
Proof.
  revert fl. induction k as [| k IH]; intros fl; cbn [lexer.int_suffix];
    repeat keeps_step.
Qed.

Lemma scans_internal_check_string (s : String.string) :
  keeps scans (lexer.internal_check_string s).
Proof. unfold lexer.internal_check_string. repeat keeps_step. Qed.
#[export] Hint Resolve scans_append_count scans_int_suffix
  scans_internal_check_string : keeps_db.

Lemma scans_internal_read_escape_character :
  keeps scans lexer.internal_read_escape_character.
Proof. unfold lexer.internal_read_escape_character. repeat keeps_step. Qed.
#[export] Hint Resolve scans_internal_read_escape_character : keeps_db.

Lemma scans_read_string_loop (fuel : nat) (quote : ascii) (tok : token) :
  keeps scans (lexer.read_string_loop fuel quote tok).
Proof.
  revert tok. induction fuel as [| fuel IH]; intros tok; cbn [lexer.read_string_loop];
    repeat keeps_step.
Qed.
#[export] Hint Resolve scans_read_string_loop : keeps_db.

Lemma scans_internal_read_string (quote : ascii) (tok : token) :
  keeps scans (lexer.internal_read_string quote tok).
Proof. unfold lexer.internal_read_string. repeat keeps_step. Qed.

Lemma scans_internal_read_name_ident (tok : token) :
  keeps scans (lexer.internal_read_name_ident tok).
Proof. unfold lexer.internal_read_name_ident. repeat keeps_step. Qed.

Lemma scans_read_number_digits (tok : token) : keeps scans (lexer.read_number_digits tok).
Proof. unfold lexer.read_number_digits. repeat keeps_step. Qed.
#[export] Hint Resolve scans_internal_read_string scans_internal_read_name_ident
  scans_read_number_digits : keeps_db.

Lemma scans_internal_read_number (tok : token) : keeps scans (lexer.internal_read_number tok).
Proof. unfold lexer.internal_read_number. repeat keeps_step. Qed.

Lemma scans_internal_read_punctuation (pt : lexer.punct_tables) (tok : token) :
  keeps scans (lexer.internal_read_punctuation pt tok).
Proof.
  unfold lexer.internal_read_punctuation. repeat keeps_step.
Qed.
#[export] Hint Resolve scans_internal_read_number scans_internal_read_punctuation : keeps_db.

Lemma steps_of_scans {A} (m : lexer.M A) : keeps scans m -> keeps steps m.
Proof. apply keeps_weaken. exact scans_steps. Qed.

Ltac steps_field :=
  unfold steps; cbn; repeat split;
  first [ reflexivity | apply count_grows_refl | apply count_grows_succ ].

Ltac steps_step :=
  first
    [ solve [apply steps_of_scans; auto with keeps_db]
    | solve [auto with steps_db]
    | apply keeps_ret; exact steps_refl
    | apply keeps_gets; exact steps_refl
    | apply keeps_out_of_fuel; exact steps_refl
    | apply keeps_modify; intros ?; steps_field
    | apply keeps_bind; [ exact steps_trans | | intros ? ]
    | match goal with
      | |- keeps _ (if ?c then _ else _) => destruct c
      | |- keeps _ (match ?x with _ => _ end) => destruct x
      | |- keeps _ (let '(_, _) := ?x in _) => destruct x
      end ].

Create HintDb steps_db.

Section with_tables.
Variable pt : lexer.punct_tables.

Lemma steps_next_token (out : token) : keeps steps (lexer.next_token pt out).
Proof. unfold lexer.next_token. repeat steps_step. Qed.

Lemma steps_unread : keeps steps lexer.unread.
Proof. unfold lexer.unread. repeat steps_step. Qed.
#[local] Hint Resolve steps_next_token steps_unread : steps_db.

Lemma steps_unget_token (tk : token) : keeps steps (lexer.unget_token tk).
Proof. unfold lexer.unget_token. repeat steps_step. Qed.

Lemma steps_next_token_on_line (out : token) : keeps steps (lexer.next_token_on_line pt out).
Proof. unfold lexer.next_token_on_line. repeat steps_step. Qed.

Lemma steps_check_token_string (s : list ascii) (out : token) :
  keeps steps (lexer.check_token_string pt s out).
Proof. unfold lexer.check_token_string. repeat steps_step. Qed.

Lemma steps_check_token_type (ty : token.type) (fl : Z) (out : token) :
  keeps steps (lexer.check_token_type pt ty fl out).
Proof. unfold lexer.check_token_type. repeat steps_step. Qed.

Lemma steps_peek_token_string (s : list ascii) : keeps steps (lexer.peek_token_string pt s).
Proof. unfold lexer.peek_token_string. repeat steps_step. Qed.

Lemma steps_peek_token_type (ty : token.type) (fl : Z) (out : token) :
  keeps steps (lexer.peek_token_type pt ty fl out).
Proof. unfold lexer.peek_token_type. repeat steps_step. Qed.

Lemma steps_expect_any_token (out : token) : keeps steps (lexer.expect_any_token pt out).
Proof. unfold lexer.expect_any_token. repeat steps_step. Qed.

Lemma steps_expect_token_string (s : list ascii) (out : token) :
  keeps steps (lexer.expect_token_string pt s out).
Proof. unfold lexer.expect_token_string. repeat steps_step. Qed.

Lemma steps_run (o : op) (L : lexer) : reads_tokens o = true -> steps L (run pt o L).
Proof.
  destruct o; simpl; try discriminate; intros _.
  - apply steps_next_token.
  - apply steps_next_token_on_line.
  - apply steps_unget_token.
  - apply steps_check_token_string.
  - apply steps_check_token_type.
  - apply steps_peek_token_string.
  - apply steps_peek_token_type.
  - apply steps_expect_any_token.
  - apply steps_expect_token_string.
  - apply steps_of_scans, scans_error.
  - apply steps_of_scans, scans_warning.
  - steps_field.
Qed.

Lemma steps_grows (L L' : lexer) : steps L L' -> grows L L'.
Proof. unfold steps, grows. tauto. Qed.

Lemma grows_refl (L : lexer) : grows L L.
Proof. split; apply count_grows_refl. Qed.

Lemma grows_trans (L1 L2 L3 : lexer) : grows L1 L2 -> grows L2 L3 -> grows L1 L3.
Proof. intros [A1 A2] [B1 B2]. split; eapply count_grows_trans; eassumption. Qed.

Lemma grows_run (o : op) (L : lexer) : resets_counts o = false -> grows L (run pt o L).
Proof.
  intros Ho. destruct (reads_tokens o) eqn:Hr; [apply steps_grows, steps_run, Hr |].
  destruct o; try discriminate; simpl.
  - split; cbn; apply count_grows_refl.
  - unfold lexer.init_from_memory, lexer.bind, lexer.gets. simpl.
    destruct (lexer.m_initialized L).
    + pose proof (scans_error "lexer::init_from_memory() -> another script is already loaded!" L) as H.
      apply scans_steps, steps_grows in H.
      destruct (lexer.error _ L) as [[b | |] L1]; exact H.
    + split; cbn; apply count_grows_refl.
  - split; cbn; apply count_grows_refl.
Qed.

End with_tables.

(** * Counters and reset *)

Lemma steps_run_all (pt : lexer.punct_tables) (os : list op) (L : lexer) :
  Forall (fun o => reads_tokens o = true) os -> steps L (run_all pt os L).
Proof.
  intros H. revert L. induction H as [| o os Ho _ IH]; intros L.
  - apply steps_refl.
  - simpl. eapply steps_trans; [apply steps_run, Ho | apply IH].
Qed.





(** * Rewinding after a look ahead *)

Lemma marks_refl (L : lexer) : marks L L.
Proof. unfold marks. tauto. Qed.

Lemma marks_trans (L1 L2 L3 : lexer) : marks L1 L2 -> marks L2 L3 -> marks L1 L3.
Proof.
  unfold marks. intros (A1 & A2 & A3 & A4) (B1 & B2 & B3 & B4). repeat split; congruence.
Qed.

Lemma scans_marks (L L' : lexer) : scans L L' -> marks L L'.
Proof. unfold scans, marks. tauto. Qed.

Lemma marks_of_scans {A} (m : lexer.M A) : keeps scans m -> keeps marks m.
Proof. apply keeps_weaken. exact scans_marks. Qed.

Ltac marks_step :=
  first
    [ solve [apply marks_of_scans; auto with keeps_db]
    | apply keeps_ret; exact marks_refl
    | apply keeps_gets; exact marks_refl
    | apply keeps_modify; intros ?; unfold marks; cbn; repeat split; reflexivity
    | apply keeps_bind; [ exact marks_trans | | intros ? ]
    | match goal with
      | |- keeps _ (if ?c then _ else _) => destruct c
      | |- keeps _ (match ?x with _ => _ end) => destruct x
      end ].

(** A scan by [next_token] leaves, in the last-position marks, the
    position it started from. *)
Lemma next_token_marks (pt : lexer.punct_tables) (out : token) (L : lexer) :
  lexer.m_initialized L = true ->
  lexer.m_token_available L = false ->
  lexer.m_last_script_ptr (snd (lexer.next_token pt out L)) = lexer.m_script_ptr L /\
  lexer.m_last_line_num (snd (lexer.next_token pt out L)) = lexer.m_line_num L /\
  lexer.m_token_available (snd (lexer.next_token pt out L)) = false /\
  lexer.m_leftover_token (snd (lexer.next_token pt out L)) = lexer.m_leftover_token L.
Proof.
  intros Hinit Havail.
  unfold lexer.next_token. mstep. rewrite Hinit. cbn [negb]. mstep.
  rewrite Havail. mstep.
  match goal with
  | |- context [lexer.bind ?m ?k ?L1] =>
      assert (H : keeps marks (lexer.bind m k)) by (repeat marks_step);
      specialize (H L1); destruct H as (H1 & H2 & H3 & H4);
      rewrite H1, H2, H3, H4
  end.
  cbn. auto.
Qed.

(** X3. When no token is pushed back and the token that [next_token] reads
    is not the one asked for, [check_token_string] and [check_token_type]
    return false with the script pointer and the line number set back to
    what they were before the call. *)
Theorem check_token_rewinds_on_mismatch (pt : lexer.punct_tables) (L : lexer) :
  lexer.m_initialized L = true ->
  lexer.m_token_available L = false ->
  (forall (s : list ascii) (out tk : token) (L1 : lexer),
     lexer.next_token pt out L = (lexer.Ret (true, tk), L1) ->
     token.eq_str tk s = false ->
     exists L',
       lexer.check_token_string pt s out L = (lexer.Ret (false, tk), L') /\
       lexer.m_script_ptr L' = lexer.m_script_ptr L /\
       lexer.m_line_num L' = lexer.m_line_num L /\
       lexer.m_token_available L' = false) /\
  (forall (ty : token.type) (subtype_flags : Z) (out tk : token) (L1 : lexer),
     lexer.next_token pt token.default L = (lexer.Ret (true, tk), L1) ->
     token.type_eqb (token.get_type tk) ty
       && (Z.land (token.get_flags tk) subtype_flags =? subtype_flags) = false ->
     exists L',
       lexer.check_token_type pt ty subtype_flags out L = (lexer.Ret (false, out), L') /\
       lexer.m_script_ptr L' = lexer.m_script_ptr L /\
       lexer.m_line_num L' = lexer.m_line_num L /\
       lexer.m_token_available L' = false).
Proof.
  intros Hinit Havail. split.
  - intros s out tk L1 Hnext Hne.
    pose proof (next_token_marks pt out L Hinit Havail) as Hm.
    rewrite Hnext in Hm. cbn [snd] in Hm. destruct Hm as (M1 & M2 & M3 & M4).
    unfold lexer.check_token_string.
    rewrite (bind_eq _ _ _ _ _ Hnext). cbn [fst snd negb]. rewrite Hne.
    unfold lexer.unread. mstep.
    eexists. split; [reflexivity |]. cbn. auto.
  - intros ty fl out tk L1 Hnext Hne.
    pose proof (next_token_marks pt token.default L Hinit Havail) as Hm.
    rewrite Hnext in Hm. cbn [snd] in Hm. destruct Hm as (M1 & M2 & M3 & M4).
    unfold lexer.check_token_type.
    rewrite (bind_eq _ _ _ _ _ Hnext). cbn [fst snd negb]. rewrite Hne.
    unfold lexer.unread. mstep.
    eexists. split; [reflexivity |]. cbn. auto.
Qed.

Lemma check_token_rewinds_on_mismatch_witness :
  exists tk L',
    lexer.check_token_string default_tables (chars "b") token.default
      (lexer.from_memory (chars " a b") 0)
    = (lexer.Ret (false, tk), L') /\
    lexer.m_script_ptr L' = 0%nat.
Proof.
  assert (Hn : exists tk L1,
             lexer.next_token default_tables token.default
               (lexer.from_memory (chars " a b") 0) = (lexer.Ret (true, tk), L1) /\
             token.eq_str tk (chars "b") = false).
  { do 2 eexists. split; [vm_compute; reflexivity | vm_compute; reflexivity]. }
  destruct Hn as (tk & L1 & Hn & Hne).
  destruct (check_token_rewinds_on_mismatch default_tables
              (lexer.from_memory (chars " a b") 0) eq_refl eq_refl) as [H _].
  destruct (H (chars "b") token.default tk L1 Hn Hne) as (L' & E & Hp & _).
  exists tk, L'. split; [exact E | exact Hp].
Defined.

(** X4. When no token is pushed back and [next_token] reads a token,
    [peek_token_string] and [peek_token_type] report whether it is the
    one asked for and leave the script pointer and the line number where
    they were: a peek does not consume. *)
Theorem peek_token_does_not_consume (pt : lexer.punct_tables) (L : lexer)
    (tk : token) (L1 : lexer) :
  lexer.m_initialized L = true ->
  lexer.m_token_available L = false ->
  lexer.next_token pt token.default L = (lexer.Ret (true, tk), L1) ->
  (forall s : list ascii,
     exists L',
       lexer.peek_token_string pt s L = (lexer.Ret (token.eq_str tk s), L') /\
       lexer.m_script_ptr L' = lexer.m_script_ptr L /\
       lexer.m_line_num L' = lexer.m_line_num L) /\
  (forall (ty : token.type) (subtype_flags : Z) (out : token),
     exists L',
       lexer.peek_token_type pt ty subtype_flags out L
       = (lexer.Ret (if token.type_eqb (token.get_type tk) ty
                        && (Z.land (token.get_flags tk) subtype_flags =? subtype_flags)
                     then (true, tk) else (false, out)), L') /\
       lexer.m_script_ptr L' = lexer.m_script_ptr L /\
       lexer.m_line_num L' = lexer.m_line_num L).
Proof.
  intros Hinit Havail Hnext.
  pose proof (next_token_marks pt token.default L Hinit Havail) as Hm.
  rewrite Hnext in Hm. cbn [snd] in Hm. destruct Hm as (M1 & M2 & M3 & M4).
  split.
  - intros s. unfold lexer.peek_token_string.
    rewrite (bind_eq _ _ _ _ _ Hnext). cbn [fst snd negb].
    unfold lexer.unread. mstep.
    eexists. split; [reflexivity |]. cbn. auto.
  - intros ty fl out. unfold lexer.peek_token_type.
    rewrite (bind_eq _ _ _ _ _ Hnext). cbn [fst snd negb].
    unfold lexer.unread. mstep.
    destruct (_ && _); eexists; (split; [reflexivity |]); cbn; auto.
Qed.

Lemma peek_token_does_not_consume_witness :
  exists b L',
    lexer.peek_token_string default_tables (chars "a")
      (lexer.from_memory (chars " a b") 0) = (lexer.Ret b, L') /\
    lexer.m_script_ptr L' = 0%nat.
Proof.
  assert (Hn : exists tk L1,
             lexer.next_token default_tables token.default
               (lexer.from_memory (chars " a b") 0) = (lexer.Ret (true, tk), L1)).
  { do 2 eexists. vm_compute. reflexivity. }
  destruct Hn as (tk & L1 & Hn).
  destruct (peek_token_does_not_consume default_tables
              (lexer.from_memory (chars " a b") 0) tk L1 eq_refl eq_refl Hn) as [H _].
  destruct (H (chars "a")) as (L' & E & Hp & _).
  exists (token.eq_str tk (chars "a")), L'. split; [exact E | exact Hp].
Defined.

(** * Reading tokens: push back, missing script, blank script *)

(** X5. A token pushed back with [unget_token] is what the next
    [next_token] returns, without reading the script: the position and
    the line stay, and the slot is free again. A second [unget_token]
    before that counts a warning and replaces the first token. *)
Theorem unget_then_next_token (pt : lexer.punct_tables) (L : lexer) (tk out : token) :
  lexer.m_initialized L = true ->
  (exists L',
     lexer.next_token pt out (snd (lexer.unget_token tk L)) = (lexer.Ret (true, tk), L') /\
     lexer.m_token_available L' = false /\
     lexer.m_script_ptr L' = lexer.m_script_ptr L /\
     lexer.m_line_num L' = lexer.m_line_num L) /\
  (forall tk2 : token,
     lexer.m_token_available L = false ->
     let L2 := snd (lexer.unget_token tk2 (snd (lexer.unget_token tk L))) in
     lexer.m_leftover_token L2 = tk2 /\
     lexer.m_warn_count L2 = u32 (lexer.m_warn_count L + 1) /\
     lexer.m_error_count L2 = lexer.m_error_count L).
Proof.
  intros Hinit. split.
  - unfold lexer.unget_token, lexer.next_token, lexer.bind, lexer.gets, lexer.modify,
      lexer.ret, lexer.warning.
    destruct (lexer.m_token_available L); cbn;
      [destruct (has_flag _ _); cbn |]; rewrite Hinit; cbn;
      (eexists; split; [reflexivity |]); cbn; auto.
  - intros tk2 Havail.
    unfold lexer.unget_token, lexer.bind, lexer.gets, lexer.modify, lexer.ret, lexer.warning.
    rewrite Havail. cbn. destruct (has_flag _ _); cbn; auto.
Qed.

Lemma unget_then_next_token_witness :
  exists L',
    lexer.next_token default_tables token.default
      (snd (lexer.unget_token (token.set_string (chars "x") token.default)
              (lexer.from_memory (chars "a") 0)))
    = (lexer.Ret (true, token.set_string (chars "x") token.default), L') /\
    lexer.m_script_ptr L' = 0%nat.
Proof.
  destruct (unget_then_next_token default_tables (lexer.from_memory (chars "a") 0)
              (token.set_string (chars "x") token.default) token.default eq_refl)
    as [(L' & E & _ & Hp & _) _].
  exists L'. split; [exact E | exact Hp].
Defined.

(** X6. On a lexer that holds no script, [next_token] reads nothing: it
    counts one error and returns false, or throws when errors are fatal;
    the position, the line and the push-back slot are left as they are. *)
Theorem next_token_without_script (pt : lexer.punct_tables) (L : lexer) (out : token) :
  lexer.m_initialized L = false ->
  let r := lexer.next_token pt out L in
  fst r = (if has_flag (lexer.m_flags L) lexer.flags.no_errors
              || has_flag (lexer.m_flags L) lexer.flags.no_fatal_errors
           then lexer.Ret (false, out) else lexer.Thrown) /\
  lexer.m_error_count (snd r) = u32 (lexer.m_error_count L + 1) /\
  lexer.m_script_ptr (snd r) = lexer.m_script_ptr L /\
  lexer.m_line_num (snd r) = lexer.m_line_num L /\
  lexer.m_token_available (snd r) = lexer.m_token_available L.
Proof.
  intros Hinit r. subst r.
  unfold lexer.next_token, lexer.bind, lexer.gets, lexer.ret, lexer.error.
  rewrite Hinit. cbn.
  destruct (has_flag (lexer.m_flags L) lexer.flags.no_errors); cbn; [auto |].
  destruct (has_flag (lexer.m_flags L) lexer.flags.no_fatal_errors); cbn; auto.
Qed.

Lemma next_token_without_script_witness :
  fst (lexer.next_token default_tables token.default lexer.empty) = lexer.Thrown /\
  lexer.m_error_count (snd (lexer.next_token default_tables token.default lexer.empty)) = 1.
Proof.
  destruct (next_token_without_script default_tables lexer.empty token.default eq_refl)
    as (H1 & H2 & _).
  split; [exact H1 | exact H2].
Defined.

Lemma moved_twice (L : lexer) (p q : nat) (l m : Z) :
  lexer.with_line_num m (lexer.with_script_ptr q
    (lexer.with_line_num l (lexer.with_script_ptr p L)))
  = lexer.with_line_num m (lexer.with_script_ptr q L).
Proof. reflexivity. Qed.

Lemma moved_id (L : lexer) :
  lexer.with_line_num (lexer.m_line_num L) (lexer.with_script_ptr (lexer.m_script_ptr L) L) = L.
Proof. destruct L; reflexivity. Qed.

Lemma skip_blanks_run (blanks : list ascii) :
  forall (fuel : nat) (L : lexer) (rest : list ascii),
  rem L = blanks ++ rest ->
  Forall blank blanks ->
  (length blanks < fuel)%nat ->
  (char_val (nth 0 rest NUL) <= 32 -> nth 0 rest NUL = NUL) ->
  lexer.skip_blanks fuel L
  = (lexer.Ret (negb (Ascii.eqb (nth 0 rest NUL) NUL)),
     lexer.with_line_num (lines_after blanks (lexer.m_line_num L))
       (lexer.with_script_ptr (lexer.m_script_ptr L + length blanks) L)).
Proof.
  induction blanks as [| c blanks IH]; intros fuel L rest Hrem Hb Hfuel Hend.
  - destruct fuel as [| fuel]; [simpl in Hfuel; lia |].
    cbn [lexer.skip_blanks]. mstep. rewrite Hrem. cbn [app length lines_after fold_left].
    rewrite Nat.add_0_r, moved_id.
    destruct (Z.leb_spec (char_val (nth 0 rest NUL)) 32) as [Hle | Hgt].
    + rewrite (Hend Hle). reflexivity.
    + destruct (Ascii.eqb_spec (nth 0 rest NUL) NUL) as [E | _]; [| reflexivity].
      rewrite E in Hgt. vm_compute in Hgt. discriminate Hgt.
  - destruct fuel as [| fuel]; [simpl in Hfuel; lia |].
    apply Forall_cons in Hb as [[Hc Hnul] Hb].
    cbn [lexer.skip_blanks]. mstep. rewrite Hrem. cbn [app nth].
    destruct (Z.leb_spec (char_val c) 32) as [_ | Hgt]; [| lia].
    destruct (Ascii.eqb_spec c NUL) as [E | _]; [contradiction |].
    cbn [length lines_after fold_left].
    destruct (Ascii.eqb c lexer.newline) eqn:Enl.
    + unfold lexer.next_line. mstep.
      erewrite IH; [| | exact Hb | simpl in Hfuel; lia | exact Hend].
      * cbn [lexer.m_line_num lexer.with_line_num lexer.with_script_ptr lexer.m_script_ptr].
        f_equal. unfold lexer.with_line_num, lexer.with_script_ptr. cbn. f_equal. lia.
      * unfold rem. cbn. fold (rem L).
        change (drop (lexer.m_script_ptr L + 1) (lexer.m_buffer L))
          with (rem (lexer.with_script_ptr (lexer.m_script_ptr L + 1) L)).
        rewrite rem_advance, Hrem. reflexivity.
    + mstep.
      erewrite IH; [| | exact Hb | simpl in Hfuel; lia | exact Hend].
      * cbn [lexer.m_line_num lexer.with_line_num lexer.with_script_ptr lexer.m_script_ptr].
        f_equal. unfold lexer.with_line_num, lexer.with_script_ptr. cbn. f_equal. lia.
      * rewrite rem_advance, Hrem. reflexivity.
Qed.

Lemma rem_length (L : lexer) : (length (rem L) <= length (lexer.m_buffer L))%nat.
Proof. unfold rem. rewrite length_skipn. lia. Qed.

(** X7. On a script that holds only characters at or below the space
    (bytes with the high bit set included, [char] being signed) up to its
    end or a NUL, the empty script included, [next_token] returns false
    with the pointer at the end of the run and the line number advanced by
    the newlines met; no error nor warning is counted. *)
Theorem blank_script_has_no_token (pt : lexer.punct_tables) (L : lexer) (out : token)
    (blanks rest : list ascii) :
  lexer.m_initialized L = true ->
  lexer.m_token_available L = false ->
  rem L = blanks ++ rest ->
  Forall blank blanks ->
  nth 0 rest NUL = NUL ->
  exists L',
    lexer.next_token pt out L = (lexer.Ret (false, out), L') /\
    lexer.m_script_ptr L' = (lexer.m_script_ptr L + length blanks)%nat /\
    lexer.m_line_num L' = lines_after blanks (lexer.m_line_num L) /\
    lexer.m_error_count L' = lexer.m_error_count L /\
    lexer.m_warn_count L' = lexer.m_warn_count L.
Proof.
  intros Hinit Havail Hrem Hb Hend.
  unfold lexer.next_token. mstep. rewrite Hinit. cbn [negb]. mstep.
  rewrite Havail. mstep.
  set (L1 := lexer.with_whitespace_start_ptr _ _).
  assert (Hrem1 : rem L1 = blanks ++ rest) by (rewrite <- Hrem; apply rem_ext; reflexivity).
  assert (Hlen : (length blanks < S (length (lexer.m_buffer L1)))%nat).
  { pose proof (rem_length L1) as H. rewrite Hrem1, length_app in H. lia. }
  unfold lexer.internal_read_whitespace, lexer.script_fuel. mstep.
  cbn [lexer.read_whitespace_loop]. unfold lexer.script_fuel. mstep.
  erewrite bind_eq; cycle 1.
  { apply (skip_blanks_run blanks _ L1 rest Hrem1 Hb Hlen). intros _. exact Hend. }
  rewrite Hend. change (negb (Ascii.eqb NUL NUL)) with false. cbn [negb]. mstep.
  eexists. split; [reflexivity |]. cbn. auto.
Qed.

Lemma blank_script_has_no_token_witness :
  exists L',
    lexer.next_token default_tables token.default
      (lexer.from_memory [" "; "010"; "009"]%char 0) = (lexer.Ret (false, token.default), L') /\
    lexer.m_line_num L' = 2.
Proof.
  destruct (blank_script_has_no_token default_tables
              (lexer.from_memory [" "; "010"; "009"]%char 0) token.default
              [" "; "010"; "009"]%char [])
    as (L' & E & _ & Hl & _).
  - reflexivity.
  - reflexivity.
  - reflexivity.
  - repeat constructor; try (vm_compute; discriminate); discriminate.
  - reflexivity.
  - exists L'. split; [exact E | exact Hl].
Defined.

(** * Trimming a token *)

Lemma drop_blank_spec (s : list ascii) :
  exists pre, s = pre ++ token.drop_blank s /\
    Forall (fun c => token.is_blank c = true) pre /\
    match token.drop_blank s with [] => True | c :: _ => token.is_blank c = false end.
Proof.
  induction s as [| c s (pre & E & Hpre & Hhd)]; cbn [token.drop_blank].
  - exists []. repeat split. constructor.
  - destruct (token.is_blank c) eqn:Ec.
    + exists (c :: pre). split; [simpl; f_equal; exact E |].
      split; [constructor; assumption | exact Hhd].
    + exists []. split; [reflexivity |]. split; [constructor | exact Ec].
Qed.

Lemma drop_blank_fixed (s : list ascii) :
  match s with [] => True | c :: _ => token.is_blank c = false end ->
  token.drop_blank s = s.
Proof. destruct s as [| c s]; [reflexivity |]. cbn. now intros ->. Qed.

(** X8. [token::trim] gives a copy of the token whose text is the text of
    the token less a run of blanks (space, tab, CR, LF, VT, FF) at each
    end; the text left is empty or starts and ends with a character that
    is not a blank, and trimming it again changes nothing. Type, flags and
    line are those of the token. *)
Theorem trim_removes_blanks_at_both_ends (tk : token) :
  let text := token.m_string (token.trim tk) in
  (exists pre post,
     token.m_string tk = pre ++ text ++ post /\
     Forall (fun c => token.is_blank c = true) pre /\
     Forall (fun c => token.is_blank c = true) post) /\
  (text = [] \/
   (exists c t, text = c :: t /\ token.is_blank c = false) /\
   (exists t c, text = t ++ [c] /\ token.is_blank c = false)) /\
  token.m_string (token.trim (token.trim tk)) = text /\
  token.m_type (token.trim tk) = token.m_type tk /\
  token.m_flags (token.trim tk) = token.m_flags tk /\
  token.m_line_num (token.trim tk) = token.m_line_num tk.
Proof.
  cbn zeta. unfold token.trim. cbn [token.m_string token.with_string token.m_type
    token.m_flags token.m_line_num].
  set (s := token.m_string tk).
  unfold token.trim_string, token.ltrim_string, token.rtrim_string.
  destruct (drop_blank_spec (rev s)) as (post' & Erev & Hpost & Hlast).
  set (d := token.drop_blank (rev s)) in *.
  destruct (drop_blank_spec (rev d)) as (pre & Ed & Hpre & Hhd).
  set (t := token.drop_blank (rev d)) in *.
  assert (Es : s = pre ++ t ++ rev post').
  { rewrite <- (rev_involutive s), Erev, rev_app_distr, Ed, <- app_assoc. reflexivity. }
  assert (Hends : t = [] \/
            (exists c t', t = c :: t' /\ token.is_blank c = false) /\
            (exists t' c, t = t' ++ [c] /\ token.is_blank c = false)).
  { destruct t as [| c t'] eqn:Et; [left; reflexivity | right]. split.
    - exists c, t'. split; [reflexivity | exact Hhd].
    - destruct d as [| x d']; [destruct pre; discriminate Ed |].
      cbn [rev] in Ed.
      destruct (exists_last (l := c :: t') ltac:(discriminate)) as (t'' & y & Ey).
      exists t'', y. split; [exact Ey |].
      rewrite Ey, app_assoc in Ed. apply app_inj_tail in Ed as [_ <-]. exact Hlast. }
  split; [| split; [| split]].
  - exists pre, (rev post'). split; [exact Es |]. split; [exact Hpre |].
    apply Forall_rev. exact Hpost.
  - exact Hends.
  - destruct Hends as [-> | ((c & t' & Et & Hc) & (t'' & y & Ey & Hy))]; [reflexivity |].
    rewrite Ey at 1. rewrite rev_app_distr. cbn [rev app].
    rewrite (drop_blank_fixed (y :: rev t'') Hy).
    cbn [rev]. rewrite rev_involutive, <- Ey.
    apply drop_blank_fixed. rewrite Et. exact Hc.
  - auto.
Qed.

(** * Number literals *)

(** [next_token] at a digit: what is left to do is [internal_read_number]
    on a cleared token. *)
Lemma next_token_at_digit (pt : lexer.punct_tables) (L : lexer) (out : token) :
  lexer.m_initialized L = true ->
  lexer.m_token_available L = false ->
  has_flag (lexer.m_flags L) lexer.flags.only_strings = false ->
  is_digit (nth 0 (rem L) NUL) = true ->
  exists (tok0 : token) (L2 : lexer),
    rem L2 = rem L /\ lexer.m_flags L2 = lexer.m_flags L /\
    lexer.m_script_ptr L2 = lexer.m_script_ptr L /\
    lexer.m_error_count L2 = lexer.m_error_count L /\
    token.m_string tok0 = [] /\
    forall (tk : token) (L3 : lexer),
      lexer.internal_read_number tok0 L2 = (lexer.Ret (true, tk), L3) ->
      lexer.is_name_start (nth 0 (rem L3) NUL) = false ->
      lexer.next_token pt out L = (lexer.Ret (true, tk), L3).
Proof.
  intros Hinit Havail Honly Hdig.
  unfold lexer.next_token. mstep. rewrite Hinit. cbn [negb]. mstep.
  rewrite Havail. mstep.
  set (L1 := lexer.with_whitespace_start_ptr _ _).
  assert (Hrem1 : rem L1 = rem L) by (apply rem_ext; reflexivity).
  erewrite bind_eq; cycle 1.
  { apply read_whitespace_none; rewrite Hrem1.
    - unfold is_digit in Hdig. apply andb_true_iff in Hdig as [H1 _].
      apply Z.leb_le in H1. lia.
    - intros E. rewrite E in Hdig. discriminate Hdig. }
  mstep.
  set (L2 := lexer.with_whitespace_end_ptr _ _).
  assert (Hrem2 : rem L2 = rem L) by (apply rem_ext; reflexivity).
  rewrite Hrem2.
  change (lexer.m_flags L2) with (lexer.m_flags L).
  rewrite Honly, Hdig. cbn [orb].
  set (tok0 := token.set_lines_crossed _ _).
  exists tok0, L2. split; [exact Hrem2 |]. do 4 (split; [reflexivity |]).
  intros tk L3 Hnum Hname.
  rewrite (bind_eq _ _ _ _ _ Hnum). cbn [fst snd negb].
  destruct (has_flag (lexer.m_flags L) lexer.flags.allow_number_names); [| reflexivity].
  mstep. rewrite Hname. reflexivity.
Qed.

Lemma scan_decimal_value (ds : list ascii) (v : Z) :
  token.scan_decimal ds (u64 v)
  = u64 (fold_left (fun v c => v * 10 + digit_value c) ds v).
Proof.
  revert v. induction ds as [| c ds IH]; intros v; cbn [token.scan_decimal fold_left];
    [reflexivity |].
  rewrite <- IH. f_equal. unfold u64, digit_value.
  rewrite <- Zplus_mod_idemp_l, Zmult_mod_idemp_l, Zplus_mod_idemp_l. reflexivity.
Qed.

Lemma read_number_decimal (L : lexer) (tok : token) (ds rest : list ascii) :
  rem L = ds ++ rest ->
  all_digits ds -> ds <> [] -> nth 0 ds NUL <> "0"%char ->
  delimited rest ->
  lexer.internal_read_number tok L
  = (lexer.Ret (true,
       token.set_flags
         (Z.lor (Z.lor token.flags.decimal token.flags.integer) token.flags.signed_integer)
         (token.set_type token.number (lexer.append_run ds tok))),
     lexer.with_script_ptr (lexer.m_script_ptr L + length ds) L).
Proof.
  intros Hrem Hds Hne Hlead Hdelim.
  unfold lexer.internal_read_number, lexer.read_number_digits. mstep.
  destruct ds as [| d0 ds']; [contradiction |]. cbn [nth] in Hlead.
  assert (Hoct : ((nth 0 (rem L) NUL =? "0")%char && negb (nth 1 (rem L) NUL =? ".")%char) = false).
  { rewrite Hrem. cbn [app nth]. apply Ascii.eqb_neq in Hlead. now rewrite Hlead. }
  rewrite Hoct. mstep.
  apply delimiter_facts in Hdelim
    as (Dd & Ddd & Dcolon & De & Dhash & Dname & Dgt & _).
  assert (Hspan : lexer.span lexer.is_digit_or_dot (rem L) = d0 :: ds').
  { rewrite Hrem. apply span_stop; [now apply digits_digit_or_dot | exact Ddd]. }
  rewrite Hspan, count_dots_digits by assumption.
  rewrite Hrem, drop_app_length. rewrite De. cbn [andb].
  change (0 =? 1) with false. change (1 <? 0) with false. cbv iota. mstep.
  change (has_flag (Z.lor token.flags.decimal token.flags.integer) token.flags.floating_point)
    with false.
  change (has_flag (Z.lor token.flags.decimal token.flags.integer) token.flags.integer)
    with true.
  cbv iota. rewrite Hrem, drop_app_length, Dgt. mstep. reflexivity.
Qed.

(** X9. A decimal integer literal (digits, the first one not [0]) followed
    by white space or the end of the script is read by [next_token] as a
    number token with the flags decimal, integer and signed, whose text is
    the digits and whose value, from [as_uint64], is the number they write
    in base ten, modulo 2^64; [as_int64] is that value read as signed. *)
Theorem decimal_literal_value (pt : lexer.punct_tables) (L : lexer) (out : token)
    (ds rest : list ascii) :
  lexer.m_initialized L = true ->
  lexer.m_token_available L = false ->
  has_flag (lexer.m_flags L) lexer.flags.only_strings = false ->
  rem L = ds ++ rest ->
  all_digits ds -> ds <> [] -> nth 0 ds NUL <> "0"%char ->
  delimited rest ->
  exists tk L',
    lexer.next_token pt out L = (lexer.Ret (true, tk), L') /\
    token.m_string tk = ds /\
    token.m_type tk = token.number /\
    token.m_flags tk
    = Z.lor (Z.lor token.flags.decimal token.flags.integer) token.flags.signed_integer /\
    option_map fst (token.as_uint64 tk) = Some (dec_value ds mod 2 ^ 64) /\
    option_map fst (token.as_int64 tk) = Some (i64 (dec_value ds mod 2 ^ 64)) /\
    rem L' = rest /\
    lexer.m_error_count L' = lexer.m_error_count L.
Proof.
  intros Hinit Havail Honly Hrem Hds Hne Hlead Hdelim.
  assert (Hdig : is_digit (nth 0 (rem L) NUL) = true).
  { rewrite Hrem. destruct ds as [| d0 ds']; [contradiction |]. cbn.
    inversion Hds; assumption. }
  destruct (next_token_at_digit pt L out Hinit Havail Honly Hdig)
    as (tok0 & L2 & Hrem2 & Hfl2 & Hp2 & He2 & Hs0 & Hnext).
  rewrite <- Hrem2 in Hrem.
  pose proof (read_number_decimal L2 tok0 ds rest Hrem Hds Hne Hlead Hdelim) as Hnum.
  set (fl := Z.lor (Z.lor token.flags.decimal token.flags.integer) token.flags.signed_integer)
    in *.
  set (tk := token.set_flags fl _) in *.
  set (L3 := lexer.with_script_ptr _ L2) in *.
  assert (Hrem3 : rem L3 = rest).
  { unfold L3. rewrite rem_advance, Hrem. apply drop_app_length. }
  assert (Hnul : Forall (fun x => x <> NUL) ds) by now apply digits_no_nul.
  destruct (append_run_fields ds tok0 Hnul) as (Es & _).
  assert (Etext : token.m_string tk = ds).
  { unfold tk. cbn [token.m_string token.set_flags token.set_type].
    rewrite Es, Hs0. reflexivity. }
  assert (Hval : token.get_value_u64 tk
                 = Some (dec_value ds mod 2 ^ 64,
                         {| token.m_string := token.m_string tk; token.m_flags := fl;
                            token.m_line_num := token.m_line_num tk;
                            token.m_lines_crossed := token.m_lines_crossed tk;
                            token.m_type := token.number; token.m_values_valid := true;
                            token.m_u64_value := dec_value ds mod 2 ^ 64;
                            token.m_double_value := dbl.of_Z (dec_value ds mod 2 ^ 64) |})).
  { unfold token.get_value_u64, token.update_cached_values.
    change (token.is_number tk) with true. cbn [negb andb].
    change (token.m_values_valid tk) with false. cbn [negb].
    change (token.m_flags tk) with fl.
    assert (Hcv : token.compute_values (token.m_string tk) fl
                  = Some (dec_value ds mod 2 ^ 64, dbl.of_Z (dec_value ds mod 2 ^ 64))).
    { unfold token.compute_values. rewrite Etext, (c_str_no_nul ds Hnul).
      change (has_flag fl token.flags.floating_point) with false.
      change (has_flag fl token.flags.decimal) with true. cbv iota.
      change 0 with (u64 0) at 1 2. rewrite scan_decimal_value. reflexivity. }
    rewrite Hcv. reflexivity. }
  exists tk, L3. split.
  { apply Hnext; [exact Hnum |]. rewrite Hrem3.
    apply delimiter_facts in Hdelim as (_ & _ & _ & _ & _ & Dname & _). exact Dname. }
  split; [exact Etext |]. split; [reflexivity |]. split; [reflexivity |].
  split; [unfold token.as_uint64; rewrite Hval; reflexivity |].
  split; [unfold token.as_int64; rewrite Hval; reflexivity |].
  split; [exact Hrem3 | exact He2].
Qed.

Lemma decimal_literal_value_witness :
  exists tk L',
    lexer.next_token default_tables token.default (lexer.from_memory (chars "4096 ") 0)
    = (lexer.Ret (true, tk), L') /\
    option_map fst (token.as_uint64 tk) = Some 4096.
Proof.
  destruct (decimal_literal_value default_tables (lexer.from_memory (chars "4096 ") 0)
              token.default (chars "4096") (chars " "))
    as (tk & L' & E & _ & _ & _ & Hv & _).
  - reflexivity.
  - reflexivity.
  - reflexivity.
  - reflexivity.
  - repeat constructor.
  - discriminate.
  - discriminate.
  - unfold delimited. vm_compute. discriminate.
  - exists tk, L'. split; [exact E | exact Hv].
Defined.

Lemma scan_hexadecimal_value (hs : list ascii) (v : Z) :
  token.scan_hexadecimal hs (u64 v)
  = u64 (fold_left (fun v c => v * 16 + token.hex_digit_value c) hs v).
Proof.
  revert v. induction hs as [| c hs IH]; intros v;
    cbn [token.scan_hexadecimal fold_left]; [reflexivity |].
  rewrite <- IH. f_equal. unfold u64.
  rewrite Z.shiftl_mul_pow2 by lia. change (2 ^ 4) with 16.
  rewrite Zplus_mod_idemp_l.
  rewrite <- Zplus_mod_idemp_l, Zmult_mod_idemp_l, Zplus_mod_idemp_l. reflexivity.
Qed.

Lemma hex_digits_no_nul (hs : list ascii) :
  Forall (fun c => lexer.is_hex_digit c = true) hs -> Forall (fun c => c <> NUL) hs.
Proof.
  intros H. eapply Forall_impl; [exact H |]. intros c Hc ->. discriminate Hc.
Qed.

Lemma read_number_hexadecimal (L : lexer) (tok : token) (x : ascii) (hs rest : list ascii) :
  rem L = "0"%char :: x :: hs ++ rest ->
  x = "x"%char \/ x = "X"%char ->
  Forall (fun c => lexer.is_hex_digit c = true) hs ->
  delimited rest ->
  lexer.internal_read_number tok L
  = (lexer.Ret (true,
       token.set_flags
         (Z.lor (Z.lor token.flags.hexadecimal token.flags.integer) token.flags.signed_integer)
         (token.set_type token.number (lexer.append_run ("0"%char :: x :: hs) tok))),
     lexer.with_script_ptr (lexer.m_script_ptr L + length ("0"%char :: x :: hs)) L).
Proof.
  intros Hrem Hx Hhs Hdelim.
  unfold lexer.internal_read_number, lexer.read_number_digits. mstep.
  rewrite Hrem. cbn [nth].
  assert (Ex : (Ascii.eqb x "." = false) /\ (Ascii.eqb x "x" || Ascii.eqb x "X" = true)).
  { destruct Hx as [-> | ->]; split; reflexivity. }
  destruct Ex as [Ex1 Ex2].
  change (Ascii.eqb "0" "0") with true. rewrite Ex1. cbn [negb andb]. rewrite Ex2.
  mstep. rewrite Hrem. cbn [nth].
  repeat first [rewrite skipn_cons | rewrite drop_0]. cbn [nth].
  apply delimiter_facts in Hdelim
    as (Dd & Ddd & Dcolon & De & Dhash & Dname & Dgt & _).
  assert (Hstop : lexer.is_hex_digit (nth 0 rest NUL) = false).
  { unfold lexer.is_hex_digit. rewrite Dd. cbn [orb].
    apply Z.ltb_ge in Dgt.
    destruct (Z.leb_spec 97 (char_val (nth 0 rest NUL))); [lia |].
    destruct (Z.leb_spec 65 (char_val (nth 0 rest NUL))); [lia |]. reflexivity. }
  rewrite (span_stop _ hs rest Hhs Hstop).
  change (has_flag (Z.lor token.flags.hexadecimal token.flags.integer)
            token.flags.floating_point) with false.
  change (has_flag (Z.lor token.flags.hexadecimal token.flags.integer) token.flags.integer)
    with true.
  cbv iota. rewrite !with_script_ptr_twice.
  repeat first [rewrite skipn_cons | rewrite drop_0].
  rewrite drop_app_length, Dgt. mstep.
  rewrite !script_ptr_with_script_ptr.
  replace (lexer.m_script_ptr L + 1 + 1 + length hs)%nat
    with (lexer.m_script_ptr L + length ("0"%char :: x :: hs))%nat by (cbn [length]; lia).
  reflexivity.
Qed.

(** X10. A hexadecimal literal, [0x] or [0X] and hexadecimal digits,
    followed by white space or the end of the script is read by
    [next_token] as a number token with the flags hexadecimal, integer and
    signed, whose text is the whole literal and whose value, from
    [as_uint64], is the number the digits write in base sixteen, modulo
    2^64 (0 when there is no digit). *)
Theorem hexadecimal_literal_value (pt : lexer.punct_tables) (L : lexer) (out : token)
    (x : ascii) (hs rest : list ascii) :
  lexer.m_initialized L = true ->
  lexer.m_token_available L = false ->
  has_flag (lexer.m_flags L) lexer.flags.only_strings = false ->
  rem L = "0"%char :: x :: hs ++ rest ->
  x = "x"%char \/ x = "X"%char ->
  Forall (fun c => lexer.is_hex_digit c = true) hs ->
  delimited rest ->
  exists tk L',
    lexer.next_token pt out L = (lexer.Ret (true, tk), L') /\
    token.m_string tk = "0"%char :: x :: hs /\
    token.m_type tk = token.number /\
    token.m_flags tk
    = Z.lor (Z.lor token.flags.hexadecimal token.flags.integer) token.flags.signed_integer /\
    option_map fst (token.as_uint64 tk) = Some (hex_value hs mod 2 ^ 64) /\
    rem L' = rest /\
    lexer.m_error_count L' = lexer.m_error_count L.
Proof.
  intros Hinit Havail Honly Hrem Hx Hhs Hdelim.
  assert (Hdig : is_digit (nth 0 (rem L) NUL) = true) by (rewrite Hrem; reflexivity).
  destruct (next_token_at_digit pt L out Hinit Havail Honly Hdig)
    as (tok0 & L2 & Hrem2 & Hfl2 & Hp2 & He2 & Hs0 & Hnext).
  rewrite <- Hrem2 in Hrem.
  pose proof (read_number_hexadecimal L2 tok0 x hs rest Hrem Hx Hhs Hdelim) as Hnum.
  set (fl := Z.lor (Z.lor token.flags.hexadecimal token.flags.integer)
               token.flags.signed_integer) in *.
  set (text := "0"%char :: x :: hs) in *.
  set (tk := token.set_flags fl _) in *.
  set (L3 := lexer.with_script_ptr _ L2) in *.
  assert (Hrem3 : rem L3 = rest).
  { unfold L3. rewrite rem_advance, Hrem.
    change ("0"%char :: x :: hs ++ rest) with (text ++ rest). apply drop_app_length. }
  assert (Hnul : Forall (fun c => c <> NUL) text).
  { unfold text. constructor; [discriminate |].
    constructor; [destruct Hx as [-> | ->]; discriminate |].
    now apply hex_digits_no_nul. }
  destruct (append_run_fields text tok0 Hnul) as (Es & _).
  assert (Etext : token.m_string tk = text).
  { unfold tk. cbn [token.m_string token.set_flags token.set_type].
    rewrite Es, Hs0. reflexivity. }
  assert (Hcv : token.compute_values (token.m_string tk) fl
                = Some (hex_value hs mod 2 ^ 64, dbl.of_Z (hex_value hs mod 2 ^ 64))).
  { unfold token.compute_values. rewrite Etext, (c_str_no_nul text Hnul).
    change (has_flag fl token.flags.floating_point) with false.
    change (has_flag fl token.flags.decimal) with false.
    change (has_flag fl token.flags.octal) with false.
    change (has_flag fl token.flags.hexadecimal) with true. cbv iota.
    unfold text. rewrite !skipn_cons, drop_0.
    change 0 with (u64 0) at 1 2. rewrite scan_hexadecimal_value. reflexivity. }
  exists tk, L3. split.
  { apply Hnext; [exact Hnum |]. rewrite Hrem3.
    apply delimiter_facts in Hdelim as (_ & _ & _ & _ & _ & Dname & _). exact Dname. }
  split; [exact Etext |]. split; [reflexivity |]. split; [reflexivity |].
  split; [| split; [exact Hrem3 | exact He2]].
  unfold token.as_uint64, token.get_value_u64, token.update_cached_values.
  change (token.is_number tk) with true. cbn [negb andb].
  change (token.m_values_valid tk) with false. cbn [negb].
  change (token.m_flags tk) with fl. rewrite Hcv. reflexivity.
Qed.

Lemma hexadecimal_literal_value_witness :
  exists tk L',
    lexer.next_token default_tables token.default (lexer.from_memory (chars "0xFf") 0)
    = (lexer.Ret (true, tk), L') /\
    option_map fst (token.as_uint64 tk) = Some 255.
Proof.
  destruct (hexadecimal_literal_value default_tables (lexer.from_memory (chars "0xFf") 0)
              token.default "x"%char (chars "Ff") [])
    as (tk & L' & E & _ & _ & _ & Hv & _).
  - reflexivity.
  - reflexivity.
  - reflexivity.
  - reflexivity.
  - left. reflexivity.
  - repeat constructor.
  - unfold delimited. vm_compute. discriminate.
  - exists tk, L'. split; [exact E | exact Hv].
Defined.



(** * Characters that start no punctuation *)

(** X12. With tables built by [set_punctuation_tables], a character that
    starts no token (above the space, not a digit, a quote, a letter, an
    underscore or a slash) and no punctuation of the set makes
    [next_token] fail: one error is counted, and the call returns false or
    throws when errors are fatal. *)
Theorem unknown_punctuation_is_an_error (ps : list lexer.punctuation_def)
    (pt : lexer.punct_tables) (L : lexer) (out : token) (c : ascii) (rest : list ascii) :
  ascii7 ps ->
  lexer.set_punctuation_tables ps = Some pt ->
  lexer.m_initialized L = true ->
  lexer.m_token_available L = false ->
  has_flag (lexer.m_flags L) lexer.flags.only_strings = false ->
  has_flag (lexer.m_flags L) lexer.flags.allow_path_names = false ->
  rem L = c :: rest ->
  32 < char_val c ->
  c <> "/"%char -> c <> "'"%char -> c <> lexer.dquote ->
  is_digit c = false -> c <> "."%char -> lexer.is_name_start c = false ->
  (forall j, ~ heads ps (lexer.char_index c) j) ->
  (exists tk,
     fst (lexer.next_token pt out L)
     = if has_flag (lexer.m_flags L) lexer.flags.no_errors
          || has_flag (lexer.m_flags L) lexer.flags.no_fatal_errors
       then lexer.Ret (false, tk) else lexer.Thrown) /\
  lexer.m_error_count (snd (lexer.next_token pt out L)) = u32 (lexer.m_error_count L + 1) /\
  lexer.m_script_ptr (snd (lexer.next_token pt out L)) = lexer.m_script_ptr L.
Proof.
  intros H7 Ept Hinit Havail Honly Hpath Hrem Hc Hslash Hq Hdq Hdig Hdot Hname Hnone.
  destruct (set_punctuation_tables_inv ps H7) as (pt' & Ept' & Hps & Hsize & Ht & Hn & Hinv).
  rewrite Ept in Ept'. injection Ept' as <-.
  assert (Hci : (lexer.char_index c < 256)%nat) by (apply char_index_bound; lia).
  destruct (Hinv _ Hci) as (l & Hl & _ & Hm).
  assert (El : l = []).
  { destruct l as [| j l]; [reflexivity |].
    exfalso. apply (Hnone j). apply Hm. now left. }
  subst l. cbn [linked] in Hl.
  assert (Hcur : nth 0 (rem L) NUL = c) by (rewrite Hrem; reflexivity).
  unfold lexer.next_token. mstep. rewrite Hinit. cbn [negb]. mstep.
  rewrite Havail. mstep.
  set (L1 := lexer.with_whitespace_start_ptr _ _).
  assert (Hrem1 : rem L1 = rem L) by (apply rem_ext; reflexivity).
  erewrite bind_eq; cycle 1.
  { apply read_whitespace_none; rewrite Hrem1, Hcur; assumption. }
  mstep.
  set (L2 := lexer.with_whitespace_end_ptr _ _).
  assert (Hrem2 : rem L2 = rem L) by (apply rem_ext; reflexivity).
  rewrite Hrem2, Hcur.
  change (lexer.m_flags L2) with (lexer.m_flags L).
  apply Ascii.eqb_neq in Hq, Hdq, Hdot.
  rewrite Honly, Hpath, Hdig, Hdot, Hq, Hdq, Hname. cbn [orb andb].
  unfold lexer.internal_read_punctuation. mstep.
  rewrite Hrem2, Hcur, Hl.
  replace (lexer.find_punctuation (lexer.m_punctuations_size pt) pt (rem L) (-1))
    with (@lexer.Ret (option lexer.punctuation_def) None)
    by (destruct (lexer.m_punctuations_size pt); reflexivity).
  mstep. cbn [fst snd negb].
  rewrite ?bind_assoc, bind_error. cbv zeta.
  change (lexer.m_flags L2) with (lexer.m_flags L).
  destruct (has_flag (lexer.m_flags L) lexer.flags.no_errors); cbn [orb].
  - mstep. cbn. split; [eexists; reflexivity | auto].
  - destruct (has_flag (lexer.m_flags L) lexer.flags.no_fatal_errors); cbn [negb].
    + mstep. cbn. split; [eexists; reflexivity | auto].
    + cbn. split; [exists out; reflexivity | auto].
Qed.

Lemma unknown_punctuation_is_an_error_witness :
  fst (lexer.next_token default_tables token.default (lexer.from_memory (chars "@") 0))
  = lexer.Thrown.
Proof.
  destruct (unknown_punctuation_is_an_error lexer.default_punctuations default_tables
              (lexer.from_memory (chars "@") 0) token.default "@"%char [])
    as [(tk & E) _].
  - exact ascii7_default.
  - vm_compute. reflexivity.
  - reflexivity.
  - reflexivity.
  - reflexivity.
  - reflexivity.
  - reflexivity.
  - vm_compute. reflexivity.
  - discriminate.
  - discriminate.
  - discriminate.
  - reflexivity.
  - discriminate.
  - reflexivity.
  - intros j (s & Es & Ec).
    assert (Hj : (j < 53)%nat).
    { destruct (Nat.lt_ge_cases j 53) as [H | H]; [exact H |].
      rewrite nth_overflow in Es by exact H. discriminate Es. }
    unfold lexer.default_punctuations in Es.
    do 53 (destruct j as [| j];
           [cbn [nth lexer.str] in Es;
            first [discriminate Es | injection Es as <-; vm_compute in Ec; discriminate Ec] |]).
    lia.
  - exact E.
Defined.

(** * String literals *)

Lemma read_string_body (quote : ascii) (body : list ascii) :
  forall (fuel : nat) (tok : token) (L : lexer) (rest : list ascii),
  rem L = body ++ rest ->
  Forall (plain_char quote) body ->
  lexer.read_string_loop (length body + fuel) quote tok L
  = lexer.read_string_loop fuel quote (lexer.append_run body tok)
      (lexer.with_script_ptr (lexer.m_script_ptr L + length body) L).
Proof.
  induction body as [| c body IH]; intros fuel tok L rest Hrem Hb.
  - cbn [length Nat.add lexer.append_run fold_left]. rewrite Nat.add_0_r.
    f_equal. destruct L; reflexivity.
  - apply Forall_cons in Hb as [(Hbs & Hq & Hnul & Hnl) Hb].
    cbn [length Nat.add lexer.read_string_loop]. mstep.
    rewrite Hrem. cbn [app nth].
    apply Ascii.eqb_neq in Hbs, Hq, Hnul, Hnl.
    rewrite Hbs, Hq, Hnul, Hnl. cbn [andb]. mstep.
    rewrite (IH fuel _ _ rest); [| rewrite rem_advance, Hrem; reflexivity | exact Hb].
    cbn [lexer.append_run fold_left].
    rewrite with_script_ptr_twice, script_ptr_with_script_ptr.
    f_equal. f_equal. lia.
Qed.

Lemma read_whitespace_at_end (L : lexer) :
  nth 0 (rem L) NUL = NUL -> lexer.internal_read_whitespace L = (lexer.Ret false, L).
Proof.
  intros Hend.
  unfold lexer.internal_read_whitespace, lexer.script_fuel. mstep.
  cbn [lexer.read_whitespace_loop]. unfold lexer.script_fuel. mstep.
  cbn [lexer.skip_blanks]. mstep. rewrite Hend.
  change (char_val NUL <=? 32) with true. change (Ascii.eqb NUL NUL) with true.
  cbv iota. mstep. reflexivity.
Qed.

Lemma read_string_simple (L : lexer) (tok : token) (body rest : list ascii) :
  has_flag (lexer.m_flags L) lexer.flags.no_string_concat = false ->
  rem L = lexer.dquote :: body ++ lexer.dquote :: rest ->
  Forall (plain_char lexer.dquote) body ->
  ends_string lexer.dquote rest ->
  exists L',
    lexer.internal_read_string lexer.dquote tok L
    = (lexer.Ret (true, lexer.append_run body (token.set_type token.string tok)), L') /\
    rem L' = rest /\
    lexer.m_line_num L' = lexer.m_line_num L /\
    lexer.m_error_count L' = lexer.m_error_count L /\
    lexer.m_warn_count L' = lexer.m_warn_count L.
Proof.
  intros Hconcat Hrem Hbody Hend.
  unfold lexer.internal_read_string, lexer.script_fuel. mstep.
  change (Ascii.eqb lexer.dquote lexer.dquote) with true. cbv iota.
  set (L1 := lexer.with_script_ptr (lexer.m_script_ptr L + 1) L).
  assert (Hrem1 : rem L1 = body ++ lexer.dquote :: rest).
  { unfold L1. rewrite rem_advance, Hrem. reflexivity. }
  assert (Hfuel : exists fuel, S (length (lexer.m_buffer L1)) = (length body + S fuel)%nat).
  { pose proof (rem_length L1) as H. rewrite Hrem1, length_app in H. cbn [length] in H.
    exists (length (lexer.m_buffer L1) - length body)%nat. lia. }
  destruct Hfuel as (fuel & ->).
  set (tk := lexer.append_run body (token.set_type token.string tok)).
  assert (Etype : token.m_type tk = token.string).
  { unfold tk. clear.
    assert (H : forall t0, token.m_type t0 = token.string ->
              token.m_type (lexer.append_run body t0) = token.string).
    { induction body as [| c body IH]; intros t0 Ht; [exact Ht |].
      cbn [lexer.append_run fold_left]. apply IH. unfold token.append.
      destruct (Ascii.eqb c NUL); exact Ht. }
    apply H. reflexivity. }
  assert (Hloop : exists L',
            lexer.read_string_loop (length body + S fuel) lexer.dquote
              (token.set_type token.string tok) L1 = (lexer.Ret (true, tk), L') /\
            rem L' = rest /\
            lexer.m_line_num L' = lexer.m_line_num L /\
            lexer.m_error_count L' = lexer.m_error_count L /\
            lexer.m_warn_count L' = lexer.m_warn_count L /\
            lexer.m_flags L' = lexer.m_flags L).
  { rewrite (read_string_body lexer.dquote body (S fuel) _ L1 _ Hrem1 Hbody).
    fold tk.
    set (L2 := lexer.with_script_ptr (lexer.m_script_ptr L1 + length body) L1).
    assert (Hrem2 : rem L2 = lexer.dquote :: rest).
    { unfold L2. rewrite rem_advance, Hrem1. apply drop_app_length. }
    cbn [lexer.read_string_loop]. mstep. rewrite Hrem2. cbn [nth].
    change (Ascii.eqb lexer.dquote "\") with false.
    change (Ascii.eqb lexer.dquote lexer.dquote) with true. cbn [andb]. cbv iota. mstep.
    change (lexer.m_flags L2) with (lexer.m_flags L). rewrite Hconcat. cbn [andb]. mstep.
    set (L3 := lexer.with_script_ptr (lexer.m_script_ptr L2 + 1) L2).
    assert (Hrem3 : rem L3 = rest).
    { unfold L3. rewrite rem_advance, Hrem2. reflexivity. }
    destruct Hend as [Hend | (Hgt & Hslash & Hq)].
    - erewrite bind_eq; [| apply read_whitespace_at_end; rewrite Hrem3; exact Hend].
      cbn [negb]. unfold lexer.restore. mstep.
      eexists. split; [reflexivity |].
      split; [| cbn; auto].
      erewrite rem_ext; [exact Hrem3 | reflexivity | reflexivity].
    - erewrite bind_eq; [| apply read_whitespace_none; rewrite Hrem3; assumption].
      cbn [negb]. mstep. rewrite Hrem3.
      apply Ascii.eqb_neq in Hq. rewrite Hq. cbn [negb].
      unfold lexer.restore. mstep.
      eexists. split; [reflexivity |].
      split; [| cbn; auto].
      erewrite rem_ext; [exact Hrem3 | reflexivity | reflexivity]. }
  destruct Hloop as (L' & Hloop & Hr & Hl & He & Hw & Hf).
  rewrite (bind_eq _ _ _ _ _ Hloop). cbn [fst snd negb]. mstep.
  unfold token.get_type. rewrite Etype. cbn [token.type_eqb andb].
  exists L'. split; [reflexivity |]. auto.
Qed.

(** [next_token] at a double quote: what is left to do is
    [internal_read_string] on a cleared token. *)
Lemma next_token_at_dquote (pt : lexer.punct_tables) (L : lexer) (out : token) :
  lexer.m_initialized L = true ->
  lexer.m_token_available L = false ->
  has_flag (lexer.m_flags L) lexer.flags.only_strings = false ->
  nth 0 (rem L) NUL = lexer.dquote ->
  exists (tok0 : token) (L2 : lexer),
    rem L2 = rem L /\ lexer.m_flags L2 = lexer.m_flags L /\
    lexer.m_line_num L2 = lexer.m_line_num L /\
    lexer.m_error_count L2 = lexer.m_error_count L /\
    lexer.m_warn_count L2 = lexer.m_warn_count L /\
    token.m_string tok0 = [] /\
    lexer.next_token pt out L = lexer.internal_read_string lexer.dquote tok0 L2.
Proof.
  intros Hinit Havail Honly Hcur.
  unfold lexer.next_token. mstep. rewrite Hinit. cbn [negb]. mstep.
  rewrite Havail. mstep.
  set (L1 := lexer.with_whitespace_start_ptr _ _).
  assert (Hrem1 : rem L1 = rem L) by (apply rem_ext; reflexivity).
  erewrite bind_eq; cycle 1.
  { apply read_whitespace_none; rewrite Hrem1, Hcur; [vm_compute; reflexivity | discriminate]. }
  mstep.
  set (L2 := lexer.with_whitespace_end_ptr _ _).
  assert (Hrem2 : rem L2 = rem L) by (apply rem_ext; reflexivity).
  rewrite Hrem2, Hcur.
  change (lexer.m_flags L2) with (lexer.m_flags L).
  rewrite Honly.
  change (is_digit lexer.dquote) with false.
  change (Ascii.eqb lexer.dquote ".") with false.
  change (Ascii.eqb lexer.dquote "'") with false.
  change (Ascii.eqb lexer.dquote lexer.dquote) with true.
  cbn [orb andb].
  set (tok0 := token.set_lines_crossed _ _).
  exists tok0, L2. split; [exact Hrem2 |]. do 4 (split; [reflexivity |]).
  split; reflexivity.
Qed.

(** X13. A double-quoted string made of plain characters (no backslash,
    quote, newline nor NUL), after which the script ends or goes on with
    something that is not white space, a comment or another string, is
    read by [next_token] as a token of type string whose text is what is
    between the quotes; the pointer is left after the closing quote and
    nothing is counted. *)
Theorem string_literal_text (pt : lexer.punct_tables) (L : lexer) (out : token)
    (body rest : list ascii) :
  lexer.m_initialized L = true ->
  lexer.m_token_available L = false ->
  has_flag (lexer.m_flags L) lexer.flags.only_strings = false ->
  has_flag (lexer.m_flags L) lexer.flags.no_string_concat = false ->
  rem L = lexer.dquote :: body ++ lexer.dquote :: rest ->
  Forall (plain_char lexer.dquote) body ->
  ends_string lexer.dquote rest ->
  exists tk L',
    lexer.next_token pt out L = (lexer.Ret (true, tk), L') /\
    token.m_string tk = body /\
    token.m_type tk = token.string /\
    rem L' = rest /\
    lexer.m_line_num L' = lexer.m_line_num L /\
    lexer.m_error_count L' = lexer.m_error_count L /\
    lexer.m_warn_count L' = lexer.m_warn_count L.
Proof.
  intros Hinit Havail Honly Hconcat Hrem Hbody Hend.
  destruct (next_token_at_dquote pt L out Hinit Havail Honly)
    as (tok0 & L2 & Hrem2 & Hf2 & Hl2 & He2 & Hw2 & Hs0 & Hnext).
  { rewrite Hrem. reflexivity. }
  rewrite <- Hrem2 in Hrem. rewrite <- Hf2 in Hconcat.
  destruct (read_string_simple L2 tok0 body rest Hconcat Hrem Hbody Hend)
    as (L' & Hread & Hr & Hl & He & Hw).
  assert (Hnul : Forall (fun c => c <> NUL) body).
  { eapply Forall_impl; [exact Hbody |]. intros c (_ & _ & H & _). exact H. }
  destruct (append_run_fields body (token.set_type token.string tok0) Hnul)
    as (Es & _ & Et & _).
  eexists _, L'. split; [rewrite Hnext; exact Hread |].
  split; [rewrite Es; cbn [token.m_string token.set_type]; rewrite Hs0; reflexivity |].
  split; [rewrite Et; reflexivity |].
  split; [exact Hr |]. split; [congruence |]. split; congruence.
Qed.

Lemma string_literal_text_witness :
  exists tk L',
    lexer.next_token default_tables token.default
      (lexer.from_memory (lexer.dquote :: chars "a b" ++ lexer.dquote :: chars ";") 0)
    = (lexer.Ret (true, tk), L') /\
    token.m_string tk = chars "a b" /\ rem L' = chars ";".
Proof.
  destruct (string_literal_text default_tables
              (lexer.from_memory (lexer.dquote :: chars "a b" ++ lexer.dquote :: chars ";") 0)
              token.default (chars "a b") (chars ";"))
    as (tk & L' & E & Hs & _ & Hr & _).
  - reflexivity.
  - reflexivity.
  - reflexivity.
  - reflexivity.
  - reflexivity.
  - repeat constructor; discriminate.
  - right. split; [vm_compute; reflexivity | split; discriminate].
  - exists tk, L'. auto.
Defined.

Lemma bind_thrown {A B} (m : lexer.M A) (k : A -> lexer.M B) (L L' : lexer) :
  m L = (lexer.Thrown, L') -> lexer.bind m k L = (lexer.Thrown, L').
Proof. unfold lexer.bind. now intros ->. Qed.

(** X14. A double-quoted string that runs into the end of the script or
    into a newline before its closing quote is an error: [next_token]
    counts one error and returns false, or throws when errors are fatal. *)
Theorem unterminated_string_is_an_error (pt : lexer.punct_tables) (L : lexer) (out : token)
    (body rest : list ascii) :
  lexer.m_initialized L = true ->
  lexer.m_token_available L = false ->
  has_flag (lexer.m_flags L) lexer.flags.only_strings = false ->
  rem L = lexer.dquote :: body ++ rest ->
  Forall (plain_char lexer.dquote) body ->
  nth 0 rest NUL = NUL \/ nth 0 rest NUL = lexer.newline ->
  (exists tk,
     fst (lexer.next_token pt out L)
     = if has_flag (lexer.m_flags L) lexer.flags.no_errors
          || has_flag (lexer.m_flags L) lexer.flags.no_fatal_errors
       then lexer.Ret (false, tk) else lexer.Thrown) /\
  lexer.m_error_count (snd (lexer.next_token pt out L)) = u32 (lexer.m_error_count L + 1).
Proof.
  intros Hinit Havail Honly Hrem Hbody Hend.
  destruct (next_token_at_dquote pt L out Hinit Havail Honly)
    as (tok0 & L2 & Hrem2 & Hf2 & Hl2 & He2 & Hw2 & Hs0 & Hnext).
  { rewrite Hrem. reflexivity. }
  rewrite Hnext. rewrite <- Hrem2 in Hrem. rewrite <- Hf2, <- He2. clear Hnext.
  unfold lexer.internal_read_string, lexer.script_fuel. mstep.
  change (Ascii.eqb lexer.dquote lexer.dquote) with true. cbv iota.
  set (L1 := lexer.with_script_ptr (lexer.m_script_ptr L2 + 1) L2).
  assert (Hrem1 : rem L1 = body ++ rest).
  { unfold L1. rewrite rem_advance, Hrem. reflexivity. }
  assert (Hfuel : exists fuel, S (length (lexer.m_buffer L1)) = (length body + S fuel)%nat).
  { pose proof (rem_length L1) as H. rewrite Hrem1, length_app in H.
    exists (length (lexer.m_buffer L1) - length body)%nat. lia. }
  destruct Hfuel as (fuel & ->).
  set (tk := lexer.append_run body (token.set_type token.string tok0)).
  set (L3 := lexer.with_script_ptr (lexer.m_script_ptr L1 + length body) L1).
  assert (Hrem3 : rem L3 = rest).
  { unfold L3. rewrite rem_advance, Hrem1. apply drop_app_length. }
  assert (Hloop : (exists b,
            fst (lexer.read_string_loop (length body + S fuel) lexer.dquote
                   (token.set_type token.string tok0) L1)
            = if has_flag (lexer.m_flags L2) lexer.flags.no_errors
                 || has_flag (lexer.m_flags L2) lexer.flags.no_fatal_errors
              then lexer.Ret (false, b) else lexer.Thrown) /\
            lexer.m_error_count
              (snd (lexer.read_string_loop (length body + S fuel) lexer.dquote
                      (token.set_type token.string tok0) L1))
            = u32 (lexer.m_error_count L2 + 1)).
  { rewrite (read_string_body lexer.dquote body (S fuel) _ L1 _ Hrem1 Hbody).
    fold tk L3.
    cbn [lexer.read_string_loop]. mstep. rewrite Hrem3.
    assert (E : Ascii.eqb (nth 0 rest NUL) "\" = false /\
                Ascii.eqb (nth 0 rest NUL) lexer.dquote = false).
    { destruct Hend as [-> | ->]; split; reflexivity. }
    destruct E as [E1 E2]. rewrite E1, E2. cbn [andb].
    change (lexer.m_flags L3) with (lexer.m_flags L2).
    destruct Hend as [-> | ->].
    - change (Ascii.eqb NUL NUL) with true. cbv iota.
      rewrite bind_error. cbv zeta.
      change (lexer.m_flags L3) with (lexer.m_flags L2).
      destruct (has_flag (lexer.m_flags L2) lexer.flags.no_errors); cbn [orb].
      + cbn. split; [eexists; reflexivity | reflexivity].
      + destruct (has_flag (lexer.m_flags L2) lexer.flags.no_fatal_errors); cbn.
        * split; [eexists; reflexivity | reflexivity].
        * split; [exists tk; reflexivity | reflexivity].
    - change (Ascii.eqb lexer.newline NUL) with false.
      change (Ascii.eqb lexer.newline lexer.newline) with true. cbv iota.
      rewrite bind_error. cbv zeta.
      change (lexer.m_flags L3) with (lexer.m_flags L2).
      destruct (has_flag (lexer.m_flags L2) lexer.flags.no_errors); cbn [orb].
      + cbn. split; [eexists; reflexivity | reflexivity].
      + destruct (has_flag (lexer.m_flags L2) lexer.flags.no_fatal_errors); cbn.
        * split; [eexists; reflexivity | reflexivity].
        * split; [exists tk; reflexivity | reflexivity]. }
  destruct Hloop as ((b & Hfst) & Hcount).
  destruct (lexer.read_string_loop (length body + S fuel) lexer.dquote
              (token.set_type token.string tok0) L1) as [o Lr] eqn:Er.
  cbn [fst snd] in Hfst, Hcount. subst o.
  destruct (has_flag (lexer.m_flags L2) lexer.flags.no_errors
            || has_flag (lexer.m_flags L2) lexer.flags.no_fatal_errors).
  - rewrite (bind_eq _ _ _ _ _ Er). cbn.
    split; [eexists; reflexivity | exact Hcount].
  - rewrite (bind_thrown _ _ _ _ Er). cbn.
    split; [exists out; reflexivity | exact Hcount].
Qed.

Lemma unterminated_string_is_an_error_witness :
  fst (lexer.next_token default_tables token.default
         (lexer.from_memory (lexer.dquote :: chars "abc") 0)) = lexer.Thrown.
Proof.
  destruct (unterminated_string_is_an_error default_tables
              (lexer.from_memory (lexer.dquote :: chars "abc") 0)
              token.default (chars "abc") []) as [(tk & E) _].
  - reflexivity.
  - reflexivity.
  - reflexivity.
  - rewrite app_nil_r. reflexivity.
  - repeat constructor; discriminate.
  - left. reflexivity.
  - exact E.
Defined.

(** * Expecting a character; reading a line *)

(** X15. [expect_token_char] tests the token with [operator !=] on a
    character, which is false for any text that is not one character
    long: when [next_token] reads a token of another length, the call
    returns true for every expected character and counts no error. For a
    token of one character it returns true exactly when that character is
    the expected one, and otherwise counts an error. *)
Theorem expect_token_char_accepts_longer_tokens (pt : lexer.punct_tables) (L : lexer)
    (out tk : token) (L1 : lexer) (c : ascii) :
  lexer.next_token pt out L = (lexer.Ret (true, tk), L1) ->
  (length (token.m_string tk) <> 1%nat ->
   lexer.expect_token_char pt c out L = (lexer.Ret (true, tk), L1)) /\
  (token.m_string tk = [c] ->
   lexer.expect_token_char pt c out L = (lexer.Ret (true, tk), L1)) /\
  (forall d, token.m_string tk = [d] -> d <> c ->
   lexer.m_error_count (snd (lexer.expect_token_char pt c out L))
   = u32 (lexer.m_error_count L1 + 1) /\
   fst (lexer.expect_token_char pt c out L) <> lexer.Ret (true, tk)).
Proof.
  intros Hnext. unfold lexer.expect_token_char.
  rewrite (bind_eq _ _ _ _ _ Hnext). cbn [fst snd negb].
  unfold token.neq_char. split; [| split].
  - intros Hlen. apply Nat.eqb_neq in Hlen. rewrite Hlen. reflexivity.
  - intros ->. cbn. rewrite Ascii.eqb_refl. reflexivity.
  - intros d -> Hd. cbn [length nth Nat.eqb andb].
    apply Ascii.eqb_neq in Hd. rewrite Hd. cbn [negb].
    rewrite bind_error. cbv zeta.
    destruct (has_flag (lexer.m_flags L1) lexer.flags.no_errors).
    + cbn. split; [reflexivity | discriminate].
    + destruct (has_flag (lexer.m_flags L1) lexer.flags.no_fatal_errors); cbn;
        (split; [reflexivity | discriminate]).
Qed.

Lemma expect_token_char_accepts_longer_tokens_witness :
  exists tk L1,
    lexer.expect_token_char default_tables "{" token.default
      (lexer.from_memory (chars "foo") 0) = (lexer.Ret (true, tk), L1) /\
    token.m_string tk = chars "foo".
Proof.
  assert (Hn : exists tk L1,
             lexer.next_token default_tables token.default
               (lexer.from_memory (chars "foo") 0) = (lexer.Ret (true, tk), L1) /\
             token.m_string tk = chars "foo").
  { do 2 eexists. split; [vm_compute; reflexivity | reflexivity]. }
  destruct Hn as (tk & L1 & Hn & Hs).
  destruct (expect_token_char_accepts_longer_tokens default_tables _ _ tk L1 "{"%char Hn)
    as (H & _).
  exists tk, L1. split; [apply H; rewrite Hs; discriminate | exact Hs].
Defined.

Lemma complete_line_spec (rest : list ascii) :
  let line := fst (lexer.complete_line rest) in
  let closed := snd (lexer.complete_line rest) in
  (exists tail, rest = line ++ tail /\
     (closed = false -> nth 0 tail NUL = NUL)) /\
  Forall (fun c => c <> NUL) line /\
  (closed = true -> exists body, line = body ++ [lexer.newline] /\
                                 Forall (fun c => c <> lexer.newline) body) /\
  (closed = false -> Forall (fun c => c <> lexer.newline) line).
Proof.
  induction rest as [| c rest IH]; cbn [lexer.complete_line].
  - cbn. split; [exists []; split; [reflexivity | reflexivity] |].
    split; [constructor |]. split; [discriminate | constructor].
  - destruct (Ascii.eqb_spec c NUL) as [-> | Hnul].
    + cbn. split; [exists (NUL :: rest); split; reflexivity |].
      split; [constructor |]. split; [discriminate | constructor].
    + destruct (Ascii.eqb_spec c lexer.newline) as [-> | Hnl].
      * cbn. split; [exists rest; split; [reflexivity | discriminate] |].
        split; [constructor; [discriminate | constructor] |].
        split; [intros _; exists []; split; [reflexivity | constructor] | discriminate].
      * destruct (lexer.complete_line rest) as [line closed]. cbn [fst snd] in *.
        destruct IH as ((tail & E & Hend) & Hn & Hc & Ho).
        split; [exists tail; split; [cbn; f_equal; exact E | exact Hend] |].
        split; [constructor; assumption |].
        split.
        -- intros Hcl. destruct (Hc Hcl) as (body & -> & Hb).
           exists (c :: body). split; [reflexivity | constructor; assumption].
        -- intros Hcl. constructor; [exact Hnl | apply Ho, Hcl].
Qed.


(** * Punctuation tokens and their identifiers *)

(** X17. With tables built by [set_punctuation_tables], a punctuation
    token that [internal_read_punctuation] returns is an entry of the set:
    its text is the text of that entry, found at the script pointer, its
    flags hold the identifier of the entry, and the pointer moves past the
    text. When the identifier of the entry is its index, as the tables
    require, [get_punctuation_from_id] on the flags of the token gives
    back the text of the entry. *)
Theorem punctuation_token_is_a_table_entry (ps : list lexer.punctuation_def)
    (pt : lexer.punct_tables) (tok tk : token) (L L' : lexer) :
  ascii7 ps ->
  lexer.set_punctuation_tables ps = Some pt ->
  lexer.internal_read_punctuation pt tok L = (lexer.Ret (true, tk), L') ->
  exists j q,
    (j < length ps)%nat /\
    lexer.str (nth j ps (lexer.mk_punct None 0)) = Some q /\
    lexer.punct_match (c_str q) (rem L) = true /\
    token.m_string tk = token.m_string tok ++ c_str q /\
    token.m_type tk = token.punctuation /\
    token.m_flags tk = u32 (lexer.id (nth j ps (lexer.mk_punct None 0))) /\
    L' = lexer.with_script_ptr (lexer.m_script_ptr L + length (c_str q)) L /\
    (lexer.id (nth j ps (lexer.mk_punct None 0)) = Z.of_nat j ->
     j <> 0%nat -> Z.of_nat j < 2 ^ 32 ->
     lexer.get_punctuation_from_id pt (token.m_flags tk) = Some (c_str q)).
Proof.
  intros H7 Ept Hread.
  destruct (set_punctuation_tables_inv ps H7) as (pt' & Ept' & Hps & Hsize & Ht & Hn & Hinv).
  rewrite Ept in Ept'. injection Ept' as <-.
  unfold lexer.internal_read_punctuation in Hread. revert Hread. mstep.
  set (ci := lexer.char_index (nth 0 (rem L) NUL)).
  destruct (Nat.lt_ge_cases ci 256) as [Hci | Hci].
  2:{ assert (E : lexer.rd (lexer.m_punctuations_table pt) ci = -1).
      { unfold lexer.rd. apply nth_overflow. lia. }
      rewrite E.
      replace (lexer.find_punctuation (lexer.m_punctuations_size pt) pt (rem L) (-1))
        with (@lexer.Ret (option lexer.punctuation_def) None)
        by (destruct (lexer.m_punctuations_size pt); reflexivity).
      unfold lexer.ret. discriminate. }
  destruct (Hinv ci Hci) as (l & Hl & Hs & Hm).
  assert (Hlen : (length l <= length ps)%nat).
  { apply bounded_NoDup_length; [eapply sorted_NoDup; exact Hs |].
    apply Forall_forall. intros j Hj. apply list_elem_of_In, Hm in Hj. tauto. }
  destruct (find_punctuation_first ps pt (rem L) l (length ps) _ Hps Hl Hlen)
    as [(_ & E) | (l1 & j & l2 & -> & _ & Hj & E)]; rewrite Hsize, E.
  { unfold lexer.ret. discriminate. }
  unfold matches in Hj.
  destruct (lexer.str (nth j ps (lexer.mk_punct None 0))) as [q |] eqn:Eq; [| discriminate].
  mstep. unfold lexer.ret. intros [= <- <-].
  destruct (append_run_fields (c_str q) tok (c_str_no_nul_out q)) as (Es & _ & _).
  assert (Hjlt : (j < length ps)%nat) by (eapply str_in_range; exact Eq).
  exists j, q. split; [exact Hjlt |]. split; [exact Eq |]. split; [exact Hj |].
  cbn [token.m_string token.m_type token.m_flags token.set_flags token.set_type].
  rewrite append_run_app, append_run_nul.
  split; [exact Es |]. split; [reflexivity |]. split; [reflexivity |].
  split; [reflexivity |].
  intros Hid Hj0 Hj32.
  unfold lexer.get_punctuation_from_id. rewrite Hid.
  assert (Eu : u32 (u32 (Z.of_nat j)) = Z.of_nat j).
  { unfold u32. rewrite Zmod_mod. apply Z.mod_small. lia. }
  rewrite Eu, Nat2Z.id.
  assert (Eu' : u32 (Z.of_nat j) = Z.of_nat j) by (unfold u32; apply Z.mod_small; lia).
  rewrite Eu'.
  replace (Z.of_nat j =? lexer.punctuation_id.none) with false
    by (symmetry; apply Z.eqb_neq; unfold lexer.punctuation_id.none; lia).
  rewrite Hsize, Hps.
  replace (j <? length ps)%nat with true by (symmetry; apply Nat.ltb_lt; exact Hjlt).
  cbn [negb andb]. rewrite Eq. reflexivity.
Qed.

Lemma punctuation_token_is_a_table_entry_witness :
  exists tk L',
    lexer.internal_read_punctuation default_tables token.default
      (lexer.from_memory (chars "+=1") 0) = (lexer.Ret (true, tk), L') /\
    token.m_string tk = chars "+=" /\
    lexer.get_punctuation_from_id default_tables (token.m_flags tk) = Some (chars "+=").
Proof.
  let r := eval vm_compute in
             (lexer.internal_read_punctuation default_tables token.default
                (lexer.from_memory (chars "+=1") 0)) in
  match r with
  | (lexer.Ret (true, ?tk), ?L') => exists tk, L'
  end.
  assert (Hr : lexer.internal_read_punctuation default_tables token.default
                 (lexer.from_memory (chars "+=1") 0)
               = (lexer.Ret (true,
                    token.set_flags lexer.punctuation_id.add_assign
                      (token.set_type token.punctuation
                         (token.with_string (chars "+=") token.default))),
                  lexer.with_script_ptr 2 (lexer.from_memory (chars "+=1") 0)))
    by (vm_compute; reflexivity).
  destruct (punctuation_token_is_a_table_entry lexer.default_punctuations default_tables
              token.default _ (lexer.from_memory (chars "+=1") 0) _ ascii7_default
              ltac:(vm_compute; reflexivity) Hr)
    as (j & q & _).
  split; [vm_compute; reflexivity |]. split; vm_compute; reflexivity.
Defined.

Lemma list_ascii_eqb_spec (a b : list ascii) : token.list_ascii_eqb a b = true <-> a = b.
Proof.
  revert b. induction a as [| x a IH]; intros [| y b]; cbn.
  - split; reflexivity.
  - split; discriminate.
  - split; discriminate.
  - rewrite andb_true_iff, Ascii.eqb_eq, IH. split.
    + intros [-> ->]. reflexivity.
    + intros [= -> ->]. split; reflexivity.
Qed.

(** X18. [get_punctuation_id_from_str] walks the entries from the first
    one and compares texts with [std::strcmp]: on tables whose first entry
    has the null text, as the default tables have, the very first
    comparison is given a null pointer, whatever the string looked for.
    On entries that all have a text, the result is the identifier of the
    first entry whose text is the string, and [punctuation_id::none] when
    there is none. *)
Theorem punctuation_id_lookup (pt : lexer.punct_tables) (s : list ascii) :
  (forall d entries,
     firstn (lexer.m_punctuations_size pt) (lexer.m_punctuations pt) = d :: entries ->
     lexer.str d = None ->
     lexer.get_punctuation_id_from_str pt s = None) /\
  (forall pre d post t,
     firstn (lexer.m_punctuations_size pt) (lexer.m_punctuations pt) = pre ++ d :: post ->
     Forall (fun e => exists u, lexer.str e = Some u /\ c_str u <> c_str s) pre ->
     lexer.str d = Some t -> c_str t = c_str s ->
     lexer.get_punctuation_id_from_str pt s = Some (lexer.id d)) /\
  (Forall (fun e => exists u, lexer.str e = Some u /\ c_str u <> c_str s)
     (firstn (lexer.m_punctuations_size pt) (lexer.m_punctuations pt)) ->
   lexer.get_punctuation_id_from_str pt s = Some lexer.punctuation_id.none) /\
  lexer.get_punctuation_id_from_str default_tables s = None.
Proof.
  unfold lexer.get_punctuation_id_from_str.
  assert (Hskip : forall pre rest,
            Forall (fun e => exists u, lexer.str e = Some u /\ c_str u <> c_str s) pre ->
            lexer.punctuation_id_from_str (pre ++ rest) s
            = lexer.punctuation_id_from_str rest s).
  { intros pre rest H. induction H as [| e pre (u & Eu & Hne) _ IH]; [reflexivity |].
    cbn [app lexer.punctuation_id_from_str]. rewrite Eu.
    destruct (token.list_ascii_eqb (c_str u) (c_str s)) eqn:E; [| exact IH].
    apply list_ascii_eqb_spec in E. contradiction. }
  split; [| split; [| split]].
  - intros d entries -> Hd. cbn. rewrite Hd. reflexivity.
  - intros pre d post t -> Hpre Hd Ht. rewrite (Hskip pre _ Hpre).
    cbn. rewrite Hd.
    replace (token.list_ascii_eqb (c_str t) (c_str s)) with true
      by (symmetry; apply list_ascii_eqb_spec; exact Ht).
    reflexivity.
  - intros H. rewrite <- (app_nil_r (firstn _ _)). rewrite (Hskip _ [] H). reflexivity.
  - reflexivity.
Qed.

(** * Staying on a line; taking a script *)

(** X19. [next_token_on_line] does not read past the current line: when
    no token is pushed back and [next_token] finds a token that is not on
    the line it started from, or finds none, the call returns false with
    the script pointer and the line number set back to what they were; a
    token on the same line is returned as [next_token] read it. *)
Theorem next_token_on_line_stays_on_line (pt : lexer.punct_tables) (L : lexer)
    (out tk : token) (b : bool) (L1 : lexer) :
  lexer.m_initialized L = true ->
  lexer.m_token_available L = false ->
  lexer.next_token pt token.default L = (lexer.Ret (b, tk), L1) ->
  (b = true -> token.get_lines_crossed tk = 0 ->
   lexer.next_token_on_line pt out L = (lexer.Ret (true, tk), L1)) /\
  (b = false \/ token.get_lines_crossed tk <> 0 ->
   exists tk' L',
     lexer.next_token_on_line pt out L = (lexer.Ret (false, tk'), L') /\
     lexer.m_script_ptr L' = lexer.m_script_ptr L /\
     lexer.m_line_num L' = lexer.m_line_num L).
Proof.
  intros Hinit Havail Hnext.
  pose proof (next_token_marks pt token.default L Hinit Havail) as Hm.
  rewrite Hnext in Hm. cbn [snd] in Hm. destruct Hm as (M1 & M2 & M3 & M4).
  unfold lexer.next_token_on_line.
  rewrite (bind_eq _ _ _ _ _ Hnext). cbn [fst snd].
  split.
  - intros -> Hc. cbn [negb]. rewrite Hc. reflexivity.
  - intros H. unfold lexer.unread. destruct b; cbn [negb].
    + destruct H as [H | H]; [discriminate H |].
      apply Z.eqb_neq in H. rewrite H. mstep.
      eexists _, _. split; [reflexivity |]. cbn. auto.
    + mstep. eexists _, _. split; [reflexivity |]. cbn. auto.
Qed.

Lemma next_token_on_line_stays_on_line_witness :
  exists tk' L',
    lexer.next_token_on_line default_tables token.default
      (lexer.from_memory ["010"; "a"]%char 0) = (lexer.Ret (false, tk'), L') /\
    lexer.m_script_ptr L' = 0%nat.
Proof.
  assert (Hn : exists tk L1,
             lexer.next_token default_tables token.default
               (lexer.from_memory ["010"; "a"]%char 0) = (lexer.Ret (true, tk), L1) /\
             token.get_lines_crossed tk <> 0).
  { do 2 eexists. split; [vm_compute; reflexivity | vm_compute; discriminate]. }
  destruct Hn as (tk & L1 & Hn & Hc).
  destruct (next_token_on_line_stays_on_line default_tables
              (lexer.from_memory ["010"; "a"]%char 0) token.default tk true L1
              eq_refl eq_refl Hn) as [_ H].
  destruct (H (or_intror Hc)) as (tk' & L' & E & Hp & _).
  exists tk', L'. split; [exact E | exact Hp].
Defined.

(** X20. [init_from_memory] on a lexer that holds a script is refused:
    one error is counted, the call returns false or throws when errors
    are fatal, and the script, the position and the flags stay. On a
    lexer without a script it returns true, takes the buffer, the flags
    and the starting line, names the script [(memory)] when the file
    name is empty, and keeps the error and warning counts. *)
Theorem init_from_memory_once (L : lexer) (buffer : list ascii) (filename : String.string)
    (fl line : Z) :
  let r := lexer.init_from_memory buffer filename fl line L in
  (lexer.m_initialized L = true ->
   fst r = (if has_flag (lexer.m_flags L) lexer.flags.no_errors
               || has_flag (lexer.m_flags L) lexer.flags.no_fatal_errors
            then lexer.Ret false else lexer.Thrown) /\
   lexer.m_error_count (snd r) = u32 (lexer.m_error_count L + 1) /\
   lexer.m_buffer (snd r) = lexer.m_buffer L /\
   lexer.m_script_ptr (snd r) = lexer.m_script_ptr L /\
   lexer.m_line_num (snd r) = lexer.m_line_num L /\
   lexer.m_flags (snd r) = lexer.m_flags L) /\
  (lexer.m_initialized L = false ->
   fst r = lexer.Ret true /\
   lexer.m_initialized (snd r) = true /\
   lexer.m_buffer (snd r) = buffer /\
   lexer.m_script_ptr (snd r) = 0%nat /\
   lexer.m_line_num (snd r) = line /\
   lexer.m_flags (snd r) = fl /\
   lexer.m_filename (snd r)
   = (if String.eqb filename EmptyString then "(memory)"%string else filename) /\
   lexer.m_error_count (snd r) = lexer.m_error_count L /\
   lexer.m_warn_count (snd r) = lexer.m_warn_count L).
Proof.
  cbv zeta. unfold lexer.init_from_memory, lexer.bind, lexer.gets, lexer.modify,
    lexer.ret, lexer.error.
  split; intros ->; cbn.
  - destruct (has_flag (lexer.m_flags L) lexer.flags.no_errors); cbn; [auto 10 |].
    destruct (has_flag (lexer.m_flags L) lexer.flags.no_fatal_errors); cbn; auto 10.
  - auto 10.
Qed.
(** * What the scanner reads *)

Section respects_rules.
Variable R : lexer -> lexer -> Prop.
Context {A B : Type}.

Lemma respects_ret (a : A) : respects R (lexer.ret a).
Proof. intros L1 L2 H. split; [reflexivity | exact H]. Qed.

Lemma respects_out_of_fuel : respects R (@lexer.out_of_fuel A).
Proof. intros L1 L2 H. split; [reflexivity | exact H]. Qed.

Lemma respects_gets (f : lexer -> A) :
  (forall L1 L2, R L1 L2 -> f L1 = f L2) -> respects R (lexer.gets f).
Proof. intros Hf L1 L2 H. cbn. split; [f_equal; apply Hf, H | exact H]. Qed.

Lemma respects_modify (f : lexer -> lexer) :
  (forall L1 L2, R L1 L2 -> R (f L1) (f L2)) -> respects R (lexer.modify f).
Proof. intros Hf L1 L2 H. cbn. split; [reflexivity | apply Hf, H]. Qed.

Lemma respects_bind (m : lexer.M A) (k : A -> lexer.M B) :
  respects R m -> (forall a, respects R (k a)) -> respects R (lexer.bind m k).
Proof.
  intros Hm Hk L1 L2 H. unfold lexer.bind. destruct (Hm L1 L2 H) as [E HR].
  destruct (m L1) as [o1 L1'], (m L2) as [o2 L2']. cbn [fst snd] in E, HR. subst o2.
  destruct o1 as [a | |]; [apply Hk, HR | split; [reflexivity | exact HR] ..].
Qed.

End respects_rules.

Ltac same_scan_solve :=
  unfold same_scan, same_input, lexer.cur; cbn;
  intros ((? & ? & ? & ? & ? & ? & ?) & ?);
  repeat split; congruence.

Ltac same_scan_fields := intros ? ?; same_scan_solve.

Lemma respects_error (msg : String.string) : respects same_scan (lexer.error msg).
Proof.
  intros L1 L2 H. pose proof H as ((Hb & Hp & Hf & Hl & Ht & Ha & Hi) & Hll).
  unfold lexer.error. cbn. rewrite Hf.
  destruct (has_flag (lexer.m_flags L2) lexer.flags.no_errors); cbn;
    [split; [reflexivity | revert H; same_scan_solve] |].
  destruct (has_flag (lexer.m_flags L2) lexer.flags.no_fatal_errors); cbn;
    (split; [reflexivity | revert H; same_scan_solve]).
Qed.

Lemma respects_warning (msg : String.string) : respects same_scan (lexer.warning msg).
Proof.
  intros L1 L2 H. pose proof H as ((Hb & Hp & Hf & Hl & Ht & Ha & Hi) & Hll).
  unfold lexer.warning. cbn. rewrite Hf.
  destruct (has_flag (lexer.m_flags L2) lexer.flags.no_warnings); cbn;
    (split; [reflexivity | revert H; same_scan_solve]).
Qed.

Create HintDb respects_db.
#[export] Hint Resolve respects_error respects_warning : respects_db.

Ltac respects_step :=
  first
    [ solve [auto with respects_db]
    | apply respects_ret
    | apply respects_out_of_fuel
    | apply respects_gets; solve [same_scan_fields]
    | apply respects_modify; solve [same_scan_fields]
    | apply respects_bind; [ | intros ? ]
    | match goal with
      | |- respects _ (if ?c then _ else _) => destruct c
      | |- respects _ (match ?x with _ => _ end) => destruct x
      | |- respects _ (let '(_, _) := ?x in _) => destruct x
      end ].

Ltac respects_unfold :=
  unfold lexer.peek, lexer.peek_prev, lexer.remaining, lexer.flag, lexer.script_fuel,
    lexer.advance, lexer.retreat, lexer.next_line, lexer.restore.

Lemma respects_skip_blanks (fuel : nat) : respects same_scan (lexer.skip_blanks fuel).
Proof.
  induction fuel as [| fuel IH]; cbn [lexer.skip_blanks]; respects_unfold;
    repeat respects_step.
Qed.
#[export] Hint Resolve respects_skip_blanks : respects_db.

Lemma respects_skip_line_comment (fuel : nat) :
  respects same_scan (lexer.skip_line_comment fuel).
Proof.
  induction fuel as [| fuel IH]; cbn [lexer.skip_line_comment]; respects_unfold;
    repeat respects_step.
Qed.

Lemma respects_skip_block_comment (fuel : nat) :
  respects same_scan (lexer.skip_block_comment fuel).
Proof.
  induction fuel as [| fuel IH]; cbn [lexer.skip_block_comment]; respects_unfold;
    repeat respects_step.
Qed.
#[export] Hint Resolve respects_skip_line_comment respects_skip_block_comment : respects_db.

Lemma respects_read_whitespace_loop (fuel : nat) :
  respects same_scan (lexer.read_whitespace_loop fuel).
Proof.
  induction fuel as [| fuel IH]; cbn [lexer.read_whitespace_loop]; respects_unfold;
    repeat respects_step.
Qed.
#[export] Hint Resolve respects_read_whitespace_loop : respects_db.

Lemma respects_internal_read_whitespace : respects same_scan lexer.internal_read_whitespace.
Proof. unfold lexer.internal_read_whitespace. respects_unfold. repeat respects_step. Qed.

Lemma respects_append_cur (tok : token) : respects same_scan (lexer.append_cur tok).
Proof. unfold lexer.append_cur. respects_unfold. repeat respects_step. Qed.

Lemma respects_append_while (p : ascii -> bool) (tok : token) :
  respects same_scan (lexer.append_while p tok).
Proof. unfold lexer.append_while. respects_unfold. repeat respects_step. Qed.
#[export] Hint Resolve respects_internal_read_whitespace respects_append_cur
  respects_append_while : respects_db.

Lemma respects_append_count (k : nat) (tok : token) :
  respects same_scan (lexer.append_count k tok).
Proof.
  revert tok. induction k as [| k IH]; intros tok; cbn [lexer.append_count];
    repeat respects_step.
Qed.

Lemma respects_int_suffix (k : nat) (fl : Z) : respects same_scan (lexer.int_suffix k fl).
Proof.
  revert fl. induction k as [| k IH]; intros fl; cbn [lexer.int_suffix]; respects_unfold;
    repeat respects_step.
Qed.
#[export] Hint Resolve respects_append_count respects_int_suffix : respects_db.

Lemma respects_internal_read_escape_character :
  respects same_scan lexer.internal_read_escape_character.
Proof.
  unfold lexer.internal_read_escape_character. respects_unfold. repeat respects_step.
Qed.
#[export] Hint Resolve respects_internal_read_escape_character : respects_db.

Lemma respects_read_string_loop (fuel : nat) (quote : ascii) (tok : token) :
  respects same_scan (lexer.read_string_loop fuel quote tok).
Proof.
  revert tok. induction fuel as [| fuel IH]; intros tok; cbn [lexer.read_string_loop];
    respects_unfold; repeat respects_step.
Qed.
#[export] Hint Resolve respects_read_string_loop : respects_db.

Lemma respects_internal_read_string (quote : ascii) (tok : token) :
  respects same_scan (lexer.internal_read_string quote tok).
Proof. unfold lexer.internal_read_string. respects_unfold. repeat respects_step. Qed.

Lemma respects_internal_read_name_ident (tok : token) :
  respects same_scan (lexer.internal_read_name_ident tok).
Proof. unfold lexer.internal_read_name_ident. respects_unfold. repeat respects_step. Qed.

Lemma respects_internal_check_string (s : String.string) :
  respects same_scan (lexer.internal_check_string s).
Proof.
  unfold lexer.internal_check_string. apply respects_gets.
  intros L1 L2 ((Hb & Hp & _) & _).
  generalize 0%nat as i. induction (c_str (chars s)) as [| c cs IH]; intros i;
    cbn [lexer.check_string_from]; [reflexivity |].
  rewrite IH. unfold lexer.cur. rewrite Hb, Hp. reflexivity.
Qed.
#[export] Hint Resolve respects_internal_check_string : respects_db.

Lemma respects_read_number_digits (tok : token) :
  respects same_scan (lexer.read_number_digits tok).
Proof. unfold lexer.read_number_digits. respects_unfold. repeat respects_step. Qed.
#[export] Hint Resolve respects_internal_read_string respects_internal_read_name_ident
  respects_read_number_digits : respects_db.

Lemma respects_internal_read_number (tok : token) :
  respects same_scan (lexer.internal_read_number tok).
Proof. unfold lexer.internal_read_number. respects_unfold. repeat respects_step. Qed.

Lemma respects_internal_read_punctuation (pt : lexer.punct_tables) (tok : token) :
  respects same_scan (lexer.internal_read_punctuation pt tok).
Proof.
  unfold lexer.internal_read_punctuation. respects_unfold. repeat respects_step.
  intros L1 L2 H. split; [reflexivity | exact H].
Qed.
#[export] Hint Resolve respects_internal_read_number respects_internal_read_punctuation
  : respects_db.

Lemma same_scan_input (L1 L2 : lexer) : same_scan L1 L2 -> same_input L1 L2.
Proof. intros [H _]. exact H. Qed.

Lemma next_token_respects (pt : lexer.punct_tables) (out : token) (L1 L2 : lexer) :
  same_input L1 L2 ->
  fst (lexer.next_token pt out L1) = fst (lexer.next_token pt out L2) /\
  same_input (snd (lexer.next_token pt out L1)) (snd (lexer.next_token pt out L2)).
Proof.
  intros H. pose proof H as (Hb & Hp & Hf & Hl & Ht & Ha & Hi).
  unfold lexer.next_token. mstep. rewrite Hi.
  destruct (lexer.m_initialized L2) eqn:Ei2; cbn [negb].
  - mstep. rewrite Ha. destruct (lexer.m_token_available L2) eqn:Ea2.
    + mstep. rewrite Ht. cbn.
      split; [reflexivity | unfold same_input; cbn; repeat split; congruence].
    + mstep.
      match goal with
      | |- fst (?m ?L1') = fst (?m ?L2') /\ _ =>
          assert (Hr : respects same_scan m)
            by (unfold lexer.flag, lexer.peek; repeat respects_step);
          destruct (Hr L1' L2') as [E HR]
      end.
      { unfold same_scan, same_input. cbn. repeat split; congruence. }
      split; [exact E | apply same_scan_input, HR].
  - unfold lexer.bind, lexer.error, lexer.ret. cbn. rewrite Hf.
    destruct (has_flag (lexer.m_flags L2) lexer.flags.no_errors); cbn;
      [split; [reflexivity | unfold same_input; cbn; repeat split; congruence] |].
    destruct (has_flag (lexer.m_flags L2) lexer.flags.no_fatal_errors); cbn;
      (split; [reflexivity | unfold same_input; cbn; repeat split; congruence]).
Qed.

(** What a look ahead that rewinds leaves behind: the lexer [L'] after
    [next_token] and [unread] agrees with the lexer [L] before on all that
    [next_token] reads. *)
Lemma unread_same_input (pt : lexer.punct_tables) (out : token) (L : lexer) :
  lexer.m_initialized L = true ->
  lexer.m_token_available L = false ->
  same_input (snd (lexer.unread (snd (lexer.next_token pt out L)))) L.
Proof.
  intros Hinit Havail.
  pose proof (next_token_marks pt out L Hinit Havail) as (M1 & M2 & M3 & M4).
  pose proof (steps_next_token pt out L) as S.
  unfold steps in S. destruct S as (Sb & _ & Sf & _ & _ & Si & _).
  set (L1 := snd (lexer.next_token pt out L)) in *. clearbody L1.
  unfold same_input, lexer.unread, lexer.modify. cbn.
  repeat split; congruence.
Qed.



(** X22. A look ahead leaves the next token as it was. When no token is
    pushed back and [next_token] reads a token, then after
    [peek_token_string] or [peek_token_type], and after a
    [check_token_string] or [check_token_type] that did not find what it
    asked for, [next_token] returns what it would have returned before
    the call. *)
Theorem look_ahead_leaves_the_next_token (pt : lexer.punct_tables) (L : lexer)
    (tk : token) (L1 : lexer) :
  lexer.m_initialized L = true ->
  lexer.m_token_available L = false ->
  lexer.next_token pt token.default L = (lexer.Ret (true, tk), L1) ->
  (forall (s : list ascii) (out : token),
     fst (lexer.next_token pt out (snd (lexer.peek_token_string pt s L)))
     = fst (lexer.next_token pt out L)) /\
  (forall (ty : token.type) (subtype_flags : Z) (out0 out : token),
     fst (lexer.next_token pt out (snd (lexer.peek_token_type pt ty subtype_flags out0 L)))
     = fst (lexer.next_token pt out L)) /\
  (forall (s : list ascii) (out0 out tk0 : token) (L0 : lexer),
     lexer.next_token pt out0 L = (lexer.Ret (true, tk0), L0) ->
     token.eq_str tk0 s = false ->
     fst (lexer.next_token pt out (snd (lexer.check_token_string pt s out0 L)))
     = fst (lexer.next_token pt out L)) /\
  (forall (ty : token.type) (subtype_flags : Z) (out0 out : token),
     token.type_eqb (token.get_type tk) ty
       && (Z.land (token.get_flags tk) subtype_flags =? subtype_flags) = false ->
     fst (lexer.next_token pt out (snd (lexer.check_token_type pt ty subtype_flags out0 L)))
     = fst (lexer.next_token pt out L)).
Proof.
  intros Hinit Havail Hnext.
  pose proof (unread_same_input pt token.default L Hinit Havail) as Hs.
  rewrite Hnext in Hs. cbn [snd] in Hs.
  repeat split.
  - intros s out. apply next_token_respects.
    unfold lexer.peek_token_string.
    rewrite (bind_eq _ _ _ _ _ Hnext). cbn [fst snd negb].
    unfold lexer.bind. destruct (lexer.unread L1) as [[[] | |] L2] eqn:E;
      cbn [snd] in *; exact Hs.
  - intros ty fl out0 out. apply next_token_respects.
    unfold lexer.peek_token_type.
    rewrite (bind_eq _ _ _ _ _ Hnext). cbn [fst snd negb].
    unfold lexer.bind. destruct (lexer.unread L1) as [[[] | |] L2] eqn:E;
      cbn [snd] in *; try exact Hs.
    destruct (_ && _); exact Hs.
  - intros s out0 out tk0 L0 Hnext0 Hne. apply next_token_respects.
    pose proof (unread_same_input pt out0 L Hinit Havail) as Hs0.
    rewrite Hnext0 in Hs0. cbn [snd] in Hs0.
    unfold lexer.check_token_string.
    rewrite (bind_eq _ _ _ _ _ Hnext0). cbn [fst snd negb]. rewrite Hne.
    unfold lexer.bind. destruct (lexer.unread L0) as [[[] | |] L2] eqn:E;
      cbn [snd] in *; exact Hs0.
  - intros ty fl out0 out Hne. apply next_token_respects.
    unfold lexer.check_token_type.
    rewrite (bind_eq _ _ _ _ _ Hnext). cbn [fst snd negb]. rewrite Hne.
    unfold lexer.bind. destruct (lexer.unread L1) as [[[] | |] L2] eqn:E;
      cbn [snd] in *; exact Hs.
Qed.

Lemma look_ahead_leaves_the_next_token_witness :
  fst (lexer.next_token default_tables token.default
         (snd (lexer.peek_token_string default_tables (chars "b")
                 (lexer.from_memory (chars " a b") 0))))
  = fst (lexer.next_token default_tables token.default
           (lexer.from_memory (chars " a b") 0)).
Proof.
  assert (Hn : exists tk L1,
             lexer.next_token default_tables token.default
               (lexer.from_memory (chars " a b") 0) = (lexer.Ret (true, tk), L1)).
  { do 2 eexists. vm_compute. reflexivity. }
  destruct Hn as (tk & L1 & Hn).
  destruct (look_ahead_leaves_the_next_token default_tables
              (lexer.from_memory (chars " a b") 0) tk L1 eq_refl eq_refl Hn)
    as [H _].
  exact (H (chars "b") token.default).
Defined.
(** * Every token read moves the script pointer *)

Section stays_rules.
Variable p : nat.
Context {A B : Type}.

Lemma stays_ret (a : A) : stays_from p (lexer.ret a).
Proof. intros L H. exact H. Qed.

Lemma stays_gets (f : lexer -> A) : stays_from p (lexer.gets f).
Proof. intros L H. exact H. Qed.

Lemma stays_out_of_fuel : stays_from p (@lexer.out_of_fuel A).
Proof. intros L H. exact H. Qed.

Lemma stays_modify (f : lexer -> lexer) :
  (forall L, (p <= lexer.m_script_ptr L)%nat -> (p <= lexer.m_script_ptr (f L))%nat) ->
  stays_from p (lexer.modify f).
Proof. intros Hf L H. apply Hf, H. Qed.

Lemma stays_bind (m : lexer.M A) (k : A -> lexer.M B) :
  stays_from p m -> (forall a, stays_from p (k a)) -> stays_from p (lexer.bind m k).
Proof.
  intros Hm Hk L H. unfold lexer.bind. specialize (Hm L H).
  destruct (m L) as [[a | |] L1]; cbn [snd] in *; [apply Hk, Hm | exact Hm ..].
Qed.

(** A position read from the state is at or after [p]. *)
Lemma stays_bind_script_ptr (k : nat -> lexer.M B) :
  (forall a, (p <= a)%nat -> stays_from p (k a)) ->
  stays_from p (lexer.bind (lexer.gets lexer.m_script_ptr) k).
Proof. intros Hk L H. rewrite bind_gets. apply Hk; exact H. Qed.

Lemma stays_restore (a : nat) (l : Z) : (p <= a)%nat -> stays_from p (lexer.restore a l).
Proof. intros Ha L H. exact Ha. Qed.

Lemma stays_advance (k : nat) : stays_from p (lexer.advance k).
Proof. intros L H. cbn. lia. Qed.

Lemma stays_next_line : stays_from p lexer.next_line.
Proof. intros L H. exact H. Qed.

Lemma stays_error (msg : String.string) : stays_from p (lexer.error msg).
Proof.
  intros L H. unfold lexer.error. cbn.
  destruct (has_flag _ _); [exact H |]. destruct (negb _); exact H.
Qed.

Lemma stays_warning (msg : String.string) : stays_from p (lexer.warning msg).
Proof. intros L H. unfold lexer.warning. cbn. destruct (has_flag _ _); exact H. Qed.

End stays_rules.

Create HintDb stays_db.
#[export] Hint Resolve stays_advance stays_next_line stays_error stays_warning : stays_db.

Ltac stays_step :=
  first
    [ solve [auto with stays_db]
    | apply stays_ret
    | apply stays_out_of_fuel
    | apply stays_restore; assumption
    | apply stays_bind_script_ptr; intros ? ?
    | apply stays_gets
    | apply stays_bind; [ | intros ? ]
    | match goal with
      | |- stays_from _ (if ?c then _ else _) => destruct c
      | |- stays_from _ (match ?x with _ => _ end) => destruct x
      | |- stays_from _ (let '(_, _) := ?x in _) => destruct x
      end ].

Ltac stays_unfold :=
  unfold lexer.peek, lexer.peek_prev, lexer.remaining, lexer.flag, lexer.script_fuel.

Lemma stays_skip_blanks (p fuel : nat) : stays_from p (lexer.skip_blanks fuel).
Proof.
  induction fuel as [| fuel IH]; cbn [lexer.skip_blanks]; stays_unfold; repeat stays_step.
Qed.

Lemma stays_skip_line_comment (p fuel : nat) : stays_from p (lexer.skip_line_comment fuel).
Proof.
  induction fuel as [| fuel IH]; cbn [lexer.skip_line_comment]; stays_unfold;
    repeat stays_step.
Qed.

Lemma stays_skip_block_comment (p fuel : nat) : stays_from p (lexer.skip_block_comment fuel).
Proof.
  induction fuel as [| fuel IH]; cbn [lexer.skip_block_comment]; stays_unfold;
    repeat stays_step.
Qed.
#[export] Hint Resolve stays_skip_blanks stays_skip_line_comment stays_skip_block_comment
  : stays_db.

Lemma stays_read_whitespace_loop (p fuel : nat) :
  stays_from p (lexer.read_whitespace_loop fuel).
Proof.
  induction fuel as [| fuel IH]; cbn [lexer.read_whitespace_loop]; stays_unfold;
    repeat stays_step.
Qed.
#[export] Hint Resolve stays_read_whitespace_loop : stays_db.

Lemma stays_internal_read_whitespace (p : nat) : stays_from p lexer.internal_read_whitespace.
Proof. unfold lexer.internal_read_whitespace. stays_unfold. repeat stays_step. Qed.

Lemma stays_append_cur (p : nat) (tok : token) : stays_from p (lexer.append_cur tok).
Proof. unfold lexer.append_cur. stays_unfold. repeat stays_step. Qed.

Lemma stays_append_while (p : nat) (q : ascii -> bool) (tok : token) :
  stays_from p (lexer.append_while q tok).
Proof. unfold lexer.append_while. stays_unfold. repeat stays_step. Qed.
#[export] Hint Resolve stays_internal_read_whitespace stays_append_cur stays_append_while
  : stays_db.

Lemma stays_append_count (p k : nat) (tok : token) : stays_from p (lexer.append_count k tok).
Proof.
  revert tok. induction k as [| k IH]; intros tok; cbn [lexer.append_count];
    repeat stays_step.
Qed.

Lemma stays_int_suffix (p k : nat) (fl : Z) : stays_from p (lexer.int_suffix k fl).
Proof.
  revert fl. induction k as [| k IH]; intros fl; cbn [lexer.int_suffix]; stays_unfold;
    repeat stays_step.
Qed.

Lemma stays_internal_check_string (p : nat) (s : String.string) :
  stays_from p (lexer.internal_check_string s).
Proof. unfold lexer.internal_check_string. repeat stays_step. Qed.
#[export] Hint Resolve stays_append_count stays_int_suffix stays_internal_check_string
  : stays_db.

(** The escape scanners step back once, after at least two steps
    forward. *)
Lemma stays_internal_read_escape_character (p : nat) :
  stays_from p lexer.internal_read_escape_character.
Proof.
  intros L H. unfold lexer.internal_read_escape_character.
  mstep. destruct (lexer.simple_escape _); [mstep; cbn; lia |].
  destruct (Ascii.eqb _ "x").
  - mstep. destruct (lexer.scan_hex_escape _ _) as [val n]. mstep.
    unfold lexer.retreat. mstep.
    destruct (255 <? val); mstep; rewrite ?bind_warning; mstep; cbn;
      rewrite ?(proj1 (proj2 (proj2 (warning_fields _ _)))); cbn; lia.
  - destruct (_ || _).
    + rewrite bind_error. cbv zeta.
      repeat match goal with |- context [if ?c then _ else _] => destruct c end;
        cbn; lia.
    + mstep. destruct (lexer.scan_dec_escape _ _) as [val n]. mstep.
      unfold lexer.retreat. mstep.
      destruct (255 <? val); mstep; rewrite ?bind_warning; mstep; cbn;
        rewrite ?(proj1 (proj2 (proj2 (warning_fields _ _)))); cbn; lia.
Qed.
#[export] Hint Resolve stays_internal_read_escape_character : stays_db.

Lemma stays_read_string_loop (p fuel : nat) (quote : ascii) (tok : token) :
  stays_from p (lexer.read_string_loop fuel quote tok).
Proof.
  revert tok. induction fuel as [| fuel IH]; intros tok; cbn [lexer.read_string_loop];
    stays_unfold; repeat stays_step.
Qed.
#[export] Hint Resolve stays_read_string_loop : stays_db.

Lemma stays_internal_read_name_ident (p : nat) (tok : token) :
  stays_from p (lexer.internal_read_name_ident tok).
Proof. unfold lexer.internal_read_name_ident. repeat stays_step. Qed.

Lemma stays_read_number_digits (p : nat) (tok : token) :
  stays_from p (lexer.read_number_digits tok).
Proof. unfold lexer.read_number_digits. stays_unfold. repeat stays_step. Qed.
#[export] Hint Resolve stays_internal_read_name_ident stays_read_number_digits : stays_db.

Lemma stays_internal_read_string (p : nat) (quote : ascii) (tok : token) :
  stays_from p (lexer.internal_read_string quote tok).
Proof. unfold lexer.internal_read_string. stays_unfold. repeat stays_step. Qed.

Lemma stays_internal_read_number (p : nat) (tok : token) :
  stays_from p (lexer.internal_read_number tok).
Proof. unfold lexer.internal_read_number. stays_unfold. repeat stays_step. Qed.
#[export] Hint Resolve stays_internal_read_string stays_internal_read_number : stays_db.

(** Once the head of a computation has moved the pointer by [d], the
    rest does not bring it back. *)
Lemma moves_after {A B} (m : lexer.M A) (k : A -> lexer.M B) (d : nat) (L : lexer) :
  (lexer.m_script_ptr L + d <= lexer.m_script_ptr (snd (m L)))%nat ->
  (forall p a, stays_from p (k a)) ->
  (lexer.m_script_ptr L + d <= lexer.m_script_ptr (snd (lexer.bind m k L)))%nat.
Proof.
  intros Hm Hk. unfold lexer.bind.
  destruct (m L) as [[a | |] L1]; cbn [snd] in *; [apply Hk, Hm | exact Hm ..].
Qed.

Lemma append_cur_moves (tok : token) (L : lexer) :
  (lexer.m_script_ptr L + 1 <= lexer.m_script_ptr (snd (lexer.append_cur tok L)))%nat.
Proof. cbn. lia. Qed.

Lemma internal_read_string_moves (quote : ascii) (tok : token) (L : lexer) :
  (lexer.m_script_ptr L + 1
   <= lexer.m_script_ptr (snd (lexer.internal_read_string quote tok L)))%nat.
Proof.
  unfold lexer.internal_read_string. apply moves_after; [cbn; lia |].
  intros p a. stays_unfold. repeat stays_step.
Qed.

Lemma internal_read_name_ident_moves (tok : token) (L : lexer) :
  (lexer.m_script_ptr L + 1
   <= lexer.m_script_ptr (snd (lexer.internal_read_name_ident tok L)))%nat.
Proof.
  unfold lexer.internal_read_name_ident. apply moves_after; [apply append_cur_moves |].
  intros p a. repeat stays_step.
Qed.

Lemma span_head (q : ascii -> bool) (rest : list ascii) :
  q (nth 0 rest NUL) = true -> q NUL = false -> (1 <= length (lexer.span q rest))%nat.
Proof.
  destruct rest as [| c rest]; cbn; [congruence |].
  intros -> _. cbn. lia.
Qed.

(** A number starts with a digit, or with a dot that a digit follows. *)
Lemma internal_read_number_moves (tok : token) (L : lexer) :
  lexer.is_digit_or_dot (nth 0 (rem L) NUL) = true ->
  (lexer.m_script_ptr L + 1
   <= lexer.m_script_ptr (snd (lexer.internal_read_number tok L)))%nat.
Proof.
  intros Hc. unfold lexer.internal_read_number.
  apply moves_after; [| intros p a; stays_unfold; repeat stays_step].
  unfold lexer.read_number_digits. mstep.
  destruct (_ && _).
  - destruct (_ || _); [| destruct (_ || _)]; mstep; cbn; lia.
  - rewrite bind_remaining. apply moves_after.
    + cbn. pose proof (span_head lexer.is_digit_or_dot (rem L) Hc eq_refl). unfold rem in *. lia.
    + intros p a. stays_unfold. repeat stays_step.
Qed.

(** A scan of white space that succeeds stops at a character above the
    space. *)
Lemma skip_blanks_above (fuel : nat) :
  forall L L', lexer.skip_blanks fuel L = (lexer.Ret true, L') ->
               32 < char_val (nth 0 (rem L') NUL).
Proof.
  induction fuel as [| fuel IH]; intros L L'; cbn [lexer.skip_blanks];
    [discriminate |].
  mstep. destruct (Z.leb_spec (char_val (nth 0 (rem L) NUL)) 32) as [Hle | Hgt].
  - destruct (Ascii.eqb _ NUL); [discriminate |].
    destruct (Ascii.eqb _ lexer.newline); unfold lexer.next_line; mstep; apply IH.
  - unfold lexer.ret. intros [= <-]. exact Hgt.
Qed.

Lemma read_whitespace_loop_above (fuel : nat) :
  forall L L', lexer.read_whitespace_loop fuel L = (lexer.Ret true, L') ->
               32 < char_val (nth 0 (rem L') NUL).
Proof.
  induction fuel as [| fuel IH]; intros L L'; cbn [lexer.read_whitespace_loop];
    [discriminate |].
  unfold lexer.script_fuel. mstep.
  destruct (lexer.skip_blanks (S (length (lexer.m_buffer L))) L) as [[more | |] L1] eqn:E1;
    [rewrite (bind_eq _ _ _ _ _ E1)
    | unfold lexer.bind; rewrite E1; discriminate ..].
  destruct more; cbn [negb]; [| discriminate].
  apply skip_blanks_above in E1. mstep.
  destruct (Ascii.eqb _ "/"); [mstep | unfold lexer.ret; intros [= <-]; exact E1].
  destruct (Ascii.eqb _ "/").
  - mstep.
    match goal with
    | |- context [lexer.bind (lexer.skip_line_comment ?n) _ ?L2] =>
        destruct (lexer.skip_line_comment n L2) as [[more | |] L3] eqn:E2;
          [rewrite (bind_eq _ _ _ _ _ E2)
          | unfold lexer.bind; rewrite E2; discriminate ..]
    end.
    destruct more; cbn [negb]; [| discriminate].
    unfold lexer.next_line. mstep.
    destruct (Ascii.eqb _ NUL); [discriminate | apply IH].
  - destruct (Ascii.eqb _ "*"); [| unfold lexer.ret; intros [= <-]; exact E1].
    mstep.
    match goal with
    | |- context [lexer.bind (lexer.skip_block_comment ?n) _ ?L2] =>
        destruct (lexer.skip_block_comment n L2) as [[more | |] L3] eqn:E2;
          [rewrite (bind_eq _ _ _ _ _ E2)
          | unfold lexer.bind; rewrite E2; discriminate ..]
    end.
    destruct more; cbn [negb]; [| discriminate].
    mstep. destruct (Ascii.eqb _ NUL); [discriminate |].
    mstep. destruct (Ascii.eqb _ NUL); [discriminate | apply IH].
Qed.

Lemma internal_read_whitespace_above (L L' : lexer) :
  lexer.internal_read_whitespace L = (lexer.Ret true, L') ->
  32 < char_val (nth 0 (rem L') NUL).
Proof.
  unfold lexer.internal_read_whitespace, lexer.script_fuel. mstep.
  apply read_whitespace_loop_above.
Qed.

Lemma char_index_above (c : ascii) : 32 < char_val c -> lexer.char_index c <> 0%nat.
Proof.
  unfold lexer.char_index, char_val, u32.
  pose proof (N_ascii_bounded c) as Hb.
  destruct (Z.ltb_spec (Z.of_N (N_of_ascii c)) 128) as [Hlt | Hge]; intros H; [| lia].
  rewrite Z.mod_small by lia. lia.
Qed.

(** With tables built by [set_punctuation_tables], a punctuation found
    at a character above the space has a text of one character at least. *)
Lemma internal_read_punctuation_moves (ps : list lexer.punctuation_def)
    (pt : lexer.punct_tables) (tok tk : token) (L L' : lexer) :
  ascii7 ps ->
  lexer.set_punctuation_tables ps = Some pt ->
  32 < char_val (nth 0 (rem L) NUL) ->
  lexer.internal_read_punctuation pt tok L = (lexer.Ret (true, tk), L') ->
  (lexer.m_script_ptr L + 1 <= lexer.m_script_ptr L')%nat.
Proof.
  intros H7 Ept Habove Hread.
  destruct (set_punctuation_tables_inv ps H7) as (pt' & Ept' & Hps & Hsize & Ht & Hn & Hinv).
  rewrite Ept in Ept'. injection Ept' as <-.
  unfold lexer.internal_read_punctuation in Hread. revert Hread. mstep.
  set (ci := lexer.char_index (nth 0 (rem L) NUL)).
  destruct (Nat.lt_ge_cases ci 256) as [Hci | Hci].
  2:{ assert (E : lexer.rd (lexer.m_punctuations_table pt) ci = -1).
      { unfold lexer.rd. apply nth_overflow. lia. }
      rewrite E.
      replace (lexer.find_punctuation (lexer.m_punctuations_size pt) pt (rem L) (-1))
        with (@lexer.Ret (option lexer.punctuation_def) None)
        by (destruct (lexer.m_punctuations_size pt); reflexivity).
      unfold lexer.ret. discriminate. }
  destruct (Hinv ci Hci) as (l & Hl & Hs & Hm).
  assert (Hlen : (length l <= length ps)%nat).
  { apply bounded_NoDup_length; [eapply sorted_NoDup; exact Hs |].
    apply Forall_forall. intros j Hj. apply list_elem_of_In, Hm in Hj. tauto. }
  destruct (find_punctuation_first ps pt (rem L) l (length ps) _ Hps Hl Hlen)
    as [(_ & E) | (l1 & j & l2 & -> & _ & Hj & E)]; rewrite Hsize, E.
  { unfold lexer.ret. discriminate. }
  assert (Hh : heads ps ci j) by (apply Hm, in_elt).
  destruct Hh as (q & Eq & Hq). rewrite Eq.
  mstep. unfold lexer.ret. intros [= _ <-]. cbn.
  destruct (c_str q) as [| c0 q'] eqn:Ec; [| cbn; lia].
  exfalso. unfold lexer.first_char in Hq. rewrite Ec in Hq. cbn in Hq.
  apply (char_index_above _ Habove). fold ci. rewrite <- Hq. reflexivity.
Qed.

Lemma error_never_true {B} (msg : String.string) (f : bool -> B) (L : lexer)
    (b : B) (L' : lexer) :
  lexer.bind (lexer.error msg) (fun x => lexer.ret (f x)) L = (lexer.Ret b, L') ->
  b = f false.
Proof.
  rewrite bind_error. cbv zeta.
  repeat match goal with |- context [if ?c then _ else _] => destruct c end;
    unfold lexer.ret; congruence.
Qed.

Lemma digit_or_dot_start (c c_next : ascii) :
  is_digit c || (Ascii.eqb c "." && is_digit c_next) = true ->
  lexer.is_digit_or_dot c = true.
Proof.
  unfold lexer.is_digit_or_dot. destruct (is_digit c); [reflexivity |].
  destruct (Ascii.eqb c "."); [reflexivity | discriminate].
Qed.

Lemma next_token_moves (ps : list lexer.punctuation_def) (pt : lexer.punct_tables)
    (L : lexer) (out tk : token) (L' : lexer) :
  ascii7 ps ->
  lexer.set_punctuation_tables ps = Some pt ->
  lexer.m_initialized L = true ->
  lexer.m_token_available L = false ->
  lexer.next_token pt out L = (lexer.Ret (true, tk), L') ->
  (lexer.m_script_ptr L < lexer.m_script_ptr L' /\
   lexer.m_script_ptr L < length (lexer.m_buffer L))%nat.
Proof.
  intros H7 Ept Hinit Havail.
  unfold lexer.next_token. mstep. rewrite Hinit. cbn [negb]. mstep.
  rewrite Havail. mstep.
  match goal with
  | |- lexer.bind lexer.internal_read_whitespace ?k ?L0 = _ -> _ =>
      pose proof (stays_internal_read_whitespace (lexer.m_script_ptr L) L0 (le_n _)) as Hw;
      pose proof (scans_internal_read_whitespace L0) as Hs;
      destruct (lexer.internal_read_whitespace L0) as [[ws | |] L1] eqn:Ews;
        [rewrite (bind_eq _ _ _ _ _ Ews)
        | unfold lexer.bind; rewrite Ews; discriminate ..]
  end.
  cbn [snd] in Hw, Hs. destruct ws; cbn [negb]; [| discriminate].
  apply internal_read_whitespace_above in Ews.
  assert (Hbuf : lexer.m_buffer L1 = lexer.m_buffer L) by (apply Hs).
  assert (Hin : (lexer.m_script_ptr L1 < length (lexer.m_buffer L))%nat).
  { rewrite <- Hbuf. destruct (Nat.lt_ge_cases (lexer.m_script_ptr L1) (length (lexer.m_buffer L1)))
      as [Hlt | Hge]; [exact Hlt |].
    unfold rem in Ews. rewrite skipn_all2 in Ews by exact Hge. vm_compute in Ews. discriminate Ews. }
  mstep.
  match goal with
  | |- context [lexer.with_whitespace_end_ptr ?w L1] =>
      set (L2 := lexer.with_whitespace_end_ptr w L1)
  end.
  assert (Hrem : rem L2 = rem L1) by reflexivity.
  assert (Hptr : lexer.m_script_ptr L2 = lexer.m_script_ptr L1) by reflexivity.
  rewrite <- Hrem in Ews. clearbody L2.
  assert (Hgoal : forall m : lexer.M (bool * token),
            (lexer.m_script_ptr L2 + 1 <= lexer.m_script_ptr (snd (m L2)))%nat ->
            m L2 = (lexer.Ret (true, tk), L') ->
            (lexer.m_script_ptr L < lexer.m_script_ptr L' /\
             lexer.m_script_ptr L < length (lexer.m_buffer L))%nat).
  { intros m Hm E. rewrite E in Hm. cbn [snd] in Hm. lia. }
  destruct (has_flag (lexer.m_flags L2) lexer.flags.only_strings).
  { destruct (Ascii.eqb _ "'" || Ascii.eqb _ lexer.dquote); apply Hgoal;
      [apply internal_read_string_moves | apply internal_read_name_ident_moves]. }
  destruct (is_digit _ || _) eqn:Ed.
  { apply Hgoal. apply moves_after.
    - apply internal_read_number_moves. eapply digit_or_dot_start. exact Ed.
    - intros p a. stays_unfold. repeat stays_step. }
  destruct (Ascii.eqb _ "'" || Ascii.eqb _ lexer.dquote);
    [apply Hgoal, internal_read_string_moves |].
  destruct (lexer.is_name_start _); [apply Hgoal, internal_read_name_ident_moves |].
  destruct (has_flag _ lexer.flags.allow_path_names && _);
    [apply Hgoal, internal_read_name_ident_moves |].
  match goal with
  | |- context [lexer.internal_read_punctuation pt ?t] =>
      destruct (lexer.internal_read_punctuation pt t L2) as [[[b tk1] | |] L3] eqn:Ep;
        [rewrite (bind_eq _ _ _ _ _ Ep)
        | unfold lexer.bind; rewrite Ep; discriminate ..]
  end.
  cbn [fst snd]. destruct b; cbn [negb].
  - unfold lexer.ret. intros [= -> ->].
    pose proof (internal_read_punctuation_moves ps pt _ _ _ _ H7 Ept Ews Ep). lia.
  - intros E. apply (error_never_true _ (fun b => (b, tk1))) in E. discriminate E.
Qed.


(** * The scanners come to an end *)

Section finishes_rules.
Variable b : nat.
Context {A B : Type}.

Lemma finishes_ret (a : A) : finishes b (lexer.ret a).
Proof. intros L _. discriminate. Qed.

Lemma finishes_gets (f : lexer -> A) : finishes b (lexer.gets f).
Proof. intros L _. discriminate. Qed.

Lemma finishes_modify (f : lexer -> lexer) : finishes b (lexer.modify f).
Proof. intros L _. discriminate. Qed.

Lemma finishes_bind (m : lexer.M A) (k : A -> lexer.M B) :
  finishes b m -> keeps scans m -> (forall a, finishes b (k a)) ->
  finishes b (lexer.bind m k).
Proof.
  intros Hm Hs Hk L Hb. unfold lexer.bind. specialize (Hm L Hb). specialize (Hs L).
  destruct (m L) as [[a | |] L1]; cbn [fst snd] in *;
    [| discriminate | exfalso; apply Hm; reflexivity].
  apply Hk. destruct Hs as (E & _). rewrite E. exact Hb.
Qed.

(** The bound that the loops over the script take is the length of the
    script and one more. *)
Lemma finishes_bind_script_fuel (k : nat -> lexer.M B) :
  finishes b (k (S b)) -> finishes b (lexer.bind lexer.script_fuel k).
Proof.
  intros Hk L Hb. unfold lexer.script_fuel. rewrite bind_gets, Hb. apply Hk, Hb.
Qed.

Lemma finishes_bind_modify (f : lexer -> lexer) (k : unit -> lexer.M B) :
  (forall L, lexer.m_buffer (f L) = lexer.m_buffer L) ->
  finishes b (k tt) -> finishes b (lexer.bind (lexer.modify f) k).
Proof. intros Hf Hk L Hb. rewrite bind_modify. apply Hk. rewrite Hf. exact Hb. Qed.

End finishes_rules.

Lemma finishes_error (b : nat) (msg : String.string) : finishes b (lexer.error msg).
Proof.
  intros L _. unfold lexer.error. cbn.
  destruct (has_flag _ _); [discriminate |]. destruct (negb _); discriminate.
Qed.

Lemma finishes_warning (b : nat) (msg : String.string) : finishes b (lexer.warning msg).
Proof. intros L _. unfold lexer.warning. cbn. destruct (has_flag _ _); discriminate. Qed.

Create HintDb finishes_db.
#[export] Hint Resolve finishes_error finishes_warning : finishes_db.

Ltac finishes_step :=
  first
    [ solve [auto with finishes_db]
    | apply finishes_ret
    | apply finishes_gets
    | apply finishes_modify
    | apply finishes_bind_script_fuel
    | apply finishes_bind_modify; [ intros ?; reflexivity | ]
    | apply finishes_bind; [ | solve [repeat keeps_step] | intros ? ]
    | match goal with
      | |- finishes _ (if ?c then _ else _) => destruct c
      | |- finishes _ (match ?x with _ => _ end) => destruct x
      | |- finishes _ (let '(_, _) := ?x in _) => destruct x
      end ].

Ltac finishes_unfold :=
  unfold lexer.peek, lexer.peek_prev, lexer.remaining, lexer.flag, lexer.advance,
    lexer.retreat, lexer.next_line, lexer.restore.

(** The outcome of a bind is the outcome of its head, or of what follows
    from the state the head leaves. *)
Lemma bind_finishes {A B} (m : lexer.M A) (k : A -> lexer.M B) (L : lexer) :
  fst (m L) <> lexer.OutOfFuel ->
  (forall a L1, m L = (lexer.Ret a, L1) -> fst (k a L1) <> lexer.OutOfFuel) ->
  fst (lexer.bind m k L) <> lexer.OutOfFuel.
Proof.
  intros Hm Hk. unfold lexer.bind.
  destruct (m L) as [[a | |] L1]; cbn [fst] in *;
    [| discriminate | exfalso; apply Hm; reflexivity].
  apply Hk. reflexivity.
Qed.

Lemma run_stays {A} (m : lexer.M A) (L : lexer) (o : lexer.outcome A) (L1 : lexer) :
  m L = (o, L1) -> stays_from (lexer.m_script_ptr L) m ->
  (lexer.m_script_ptr L <= lexer.m_script_ptr L1)%nat.
Proof. intros E H. specialize (H L (le_n _)). rewrite E in H. exact H. Qed.

Lemma run_buffer {A} (m : lexer.M A) (L : lexer) (o : lexer.outcome A) (L1 : lexer) :
  m L = (o, L1) -> keeps scans m -> lexer.m_buffer L1 = lexer.m_buffer L.
Proof. intros E H. specialize (H L). rewrite E in H. apply H. Qed.

(** A character that is not the NUL is a character of the script. *)
Lemma rem_nth_in (L : lexer) (k : nat) :
  nth k (rem L) NUL <> NUL ->
  (lexer.m_script_ptr L + k < length (lexer.m_buffer L))%nat.
Proof.
  intros H.
  destruct (Nat.lt_ge_cases (lexer.m_script_ptr L + k) (length (lexer.m_buffer L)))
    as [Hlt | Hge]; [exact Hlt |].
  exfalso. apply H. apply nth_overflow. unfold rem. rewrite length_skipn. lia.
Qed.

Lemma eqb_nul_in (L : lexer) (k : nat) :
  Ascii.eqb (nth k (rem L) NUL) NUL = false ->
  (lexer.m_script_ptr L + k < length (lexer.m_buffer L))%nat.
Proof. intros H. apply rem_nth_in. apply Ascii.eqb_neq. exact H. Qed.

Lemma above_in (L : lexer) :
  32 < char_val (nth 0 (rem L) NUL) ->
  (lexer.m_script_ptr L < length (lexer.m_buffer L))%nat.
Proof.
  intros H. rewrite <- (Nat.add_0_r (lexer.m_script_ptr L)). apply rem_nth_in.
  intros E. rewrite E in H. vm_compute in H. discriminate H.
Qed.

Lemma skip_blanks_finishes (b fuel : nat) :
  forall L, length (lexer.m_buffer L) = b ->
            (b - lexer.m_script_ptr L < fuel)%nat ->
            fst (lexer.skip_blanks fuel L) <> lexer.OutOfFuel.
Proof.
  induction fuel as [| fuel IH]; intros L Hb Hf; [lia |].
  cbn [lexer.skip_blanks]. rewrite bind_peek.
  destruct (char_val _ <=? 32); [| discriminate].
  destruct (Ascii.eqb _ NUL) eqn:En; [discriminate |].
  apply (eqb_nul_in L 0) in En.
  destruct (Ascii.eqb _ lexer.newline); unfold lexer.next_line; mstep;
    apply IH; cbn; lia.
Qed.

Lemma skip_line_comment_finishes (b fuel : nat) :
  forall L, length (lexer.m_buffer L) = b ->
            (b - lexer.m_script_ptr L < fuel)%nat ->
            fst (lexer.skip_line_comment fuel L) <> lexer.OutOfFuel.
Proof.
  induction fuel as [| fuel IH]; intros L Hb Hf; [lia |].
  cbn [lexer.skip_line_comment]. rewrite bind_advance, bind_peek.
  destruct (Ascii.eqb _ NUL) eqn:En; [discriminate |].
  apply eqb_nul_in in En. cbn in En.
  destruct (Ascii.eqb _ lexer.newline); [discriminate |].
  apply IH; cbn; lia.
Qed.

Lemma skip_block_comment_finishes (b fuel : nat) :
  forall L, length (lexer.m_buffer L) = b ->
            (b - lexer.m_script_ptr L < fuel)%nat ->
            fst (lexer.skip_block_comment fuel L) <> lexer.OutOfFuel.
Proof.
  induction fuel as [| fuel IH]; intros L Hb Hf; [lia |].
  cbn [lexer.skip_block_comment]. rewrite bind_advance, bind_peek.
  destruct (Ascii.eqb _ NUL) eqn:En; [discriminate |].
  apply eqb_nul_in in En. cbn in En.
  destruct (Ascii.eqb _ lexer.newline).
  { unfold lexer.next_line. rewrite bind_modify. apply IH; cbn; lia. }
  destruct (Ascii.eqb _ "/"); [| apply IH; cbn; lia].
  unfold lexer.peek_prev. rewrite bind_gets.
  destruct (Ascii.eqb _ "*"); [discriminate |].
  rewrite bind_peek.
  destruct (Ascii.eqb _ "*"); rewrite ?bind_warning, ?bind_ret.
  - apply IH.
    + rewrite (proj2 (proj2 (proj2 (warning_fields _ _)))). exact Hb.
    + rewrite (proj1 (proj2 (proj2 (warning_fields _ _)))). cbn. lia.
  - apply IH; cbn; lia.
Qed.

Lemma finishes_skip_blanks (b : nat) : finishes b (lexer.skip_blanks (S b)).
Proof. intros L Hb. apply (skip_blanks_finishes b); [exact Hb | lia]. Qed.

Lemma finishes_skip_line_comment (b : nat) : finishes b (lexer.skip_line_comment (S b)).
Proof. intros L Hb. apply (skip_line_comment_finishes b); [exact Hb | lia]. Qed.

Lemma finishes_skip_block_comment (b : nat) : finishes b (lexer.skip_block_comment (S b)).
Proof. intros L Hb. apply (skip_block_comment_finishes b); [exact Hb | lia]. Qed.
#[export] Hint Resolve finishes_skip_blanks finishes_skip_line_comment
  finishes_skip_block_comment : finishes_db.

Lemma read_whitespace_loop_finishes (b fuel : nat) :
  forall L, length (lexer.m_buffer L) = b ->
            (b - lexer.m_script_ptr L < fuel)%nat ->
            fst (lexer.read_whitespace_loop fuel L) <> lexer.OutOfFuel.
Proof.
  induction fuel as [| fuel IH]; intros L Hb Hf; [lia |].
  cbn [lexer.read_whitespace_loop]. unfold lexer.script_fuel. rewrite bind_gets, Hb.
  apply bind_finishes; [apply finishes_skip_blanks; exact Hb |].
  intros more L1 E1.
  pose proof (run_stays _ _ _ _ E1 (stays_skip_blanks _ _)) as Hp1.
  pose proof (run_buffer _ _ _ _ E1 (scans_skip_blanks _)) as Hb1.
  destruct more; cbn [negb]; [| discriminate].
  apply skip_blanks_above, above_in in E1. rewrite Hb1, Hb in E1.
  rewrite bind_peek. destruct (Ascii.eqb _ "/"); [| discriminate].
  rewrite bind_peek. destruct (Ascii.eqb _ "/"); [| destruct (Ascii.eqb _ "*")].
  - rewrite bind_advance.
    apply bind_finishes; [apply finishes_skip_line_comment; cbn; congruence |].
    intros more L3 E3.
    pose proof (run_stays _ _ _ _ E3 (stays_skip_line_comment _ _)) as Hp3.
    pose proof (run_buffer _ _ _ _ E3 (scans_skip_line_comment _)) as Hb3.
    cbn in Hp3, Hb3.
    destruct more; cbn [negb]; [| discriminate].
    unfold lexer.next_line. rewrite bind_modify, bind_advance, bind_peek.
    destruct (Ascii.eqb _ NUL); [discriminate |].
    apply IH; cbn; [congruence | lia].
  - rewrite bind_advance.
    apply bind_finishes; [apply finishes_skip_block_comment; cbn; congruence |].
    intros more L3 E3.
    pose proof (run_stays _ _ _ _ E3 (stays_skip_block_comment _ _)) as Hp3.
    pose proof (run_buffer _ _ _ _ E3 (scans_skip_block_comment _)) as Hb3.
    cbn in Hp3, Hb3.
    destruct more; cbn [negb]; [| discriminate].
    rewrite bind_advance, bind_peek.
    destruct (Ascii.eqb _ NUL); [discriminate |].
    rewrite bind_advance, bind_peek.
    destruct (Ascii.eqb _ NUL); [discriminate |].
    apply IH; cbn; [congruence | lia].
  - discriminate.
Qed.

Lemma finishes_internal_read_whitespace (b : nat) :
  finishes b lexer.internal_read_whitespace.
Proof.
  unfold lexer.internal_read_whitespace. apply finishes_bind_script_fuel.
  intros L Hb. apply (read_whitespace_loop_finishes b); [exact Hb | lia].
Qed.
#[export] Hint Resolve finishes_internal_read_whitespace : finishes_db.

Lemma finishes_append_cur (b : nat) (tok : token) : finishes b (lexer.append_cur tok).
Proof. unfold lexer.append_cur. finishes_unfold. repeat finishes_step. Qed.

Lemma finishes_append_while (b : nat) (q : ascii -> bool) (tok : token) :
  finishes b (lexer.append_while q tok).
Proof. unfold lexer.append_while. finishes_unfold. repeat finishes_step. Qed.
#[export] Hint Resolve finishes_append_cur finishes_append_while : finishes_db.

Lemma finishes_append_count (b k : nat) (tok : token) :
  finishes b (lexer.append_count k tok).
Proof.
  revert tok. induction k as [| k IH]; intros tok; cbn [lexer.append_count];
    repeat finishes_step.
Qed.

Lemma finishes_int_suffix (b k : nat) (fl : Z) : finishes b (lexer.int_suffix k fl).
Proof.
  revert fl. induction k as [| k IH]; intros fl; cbn [lexer.int_suffix]; finishes_unfold;
    repeat finishes_step.
Qed.

Lemma finishes_internal_check_string (b : nat) (s : String.string) :
  finishes b (lexer.internal_check_string s).
Proof. unfold lexer.internal_check_string. repeat finishes_step. Qed.
#[export] Hint Resolve finishes_append_count finishes_int_suffix
  finishes_internal_check_string : finishes_db.

Lemma finishes_internal_read_escape_character (b : nat) :
  finishes b lexer.internal_read_escape_character.
Proof.
  unfold lexer.internal_read_escape_character. finishes_unfold. repeat finishes_step.
Qed.

Lemma finishes_internal_read_name_ident (b : nat) (tok : token) :
  finishes b (lexer.internal_read_name_ident tok).
Proof. unfold lexer.internal_read_name_ident. finishes_unfold. repeat finishes_step. Qed.

Lemma finishes_read_number_digits (b : nat) (tok : token) :
  finishes b (lexer.read_number_digits tok).
Proof. unfold lexer.read_number_digits. finishes_unfold. repeat finishes_step. Qed.
#[export] Hint Resolve finishes_internal_read_escape_character
  finishes_internal_read_name_ident finishes_read_number_digits : finishes_db.

Lemma finishes_internal_read_number (b : nat) (tok : token) :
  finishes b (lexer.internal_read_number tok).
Proof. unfold lexer.internal_read_number. finishes_unfold. repeat finishes_step. Qed.
#[export] Hint Resolve finishes_internal_read_number : finishes_db.

(** An escape sequence takes the backslash at least. *)
Lemma internal_read_escape_character_moves (L : lexer) :
  (lexer.m_script_ptr L + 1
   <= lexer.m_script_ptr (snd (lexer.internal_read_escape_character L)))%nat.
Proof.
  unfold lexer.internal_read_escape_character.
  mstep. destruct (lexer.simple_escape _); [mstep; cbn; lia |].
  destruct (Ascii.eqb _ "x").
  - mstep. destruct (lexer.scan_hex_escape _ _) as [val n]. mstep.
    unfold lexer.retreat. mstep.
    destruct (255 <? val); mstep; rewrite ?bind_warning; mstep; cbn;
      rewrite ?(proj1 (proj2 (proj2 (warning_fields _ _)))); cbn; lia.
  - destruct (_ || _).
    + rewrite bind_error. cbv zeta.
      repeat match goal with |- context [if ?c then _ else _] => destruct c end;
        cbn; lia.
    + mstep. destruct (lexer.scan_dec_escape _ _) as [val n]. mstep.
      unfold lexer.retreat. mstep.
      destruct (255 <? val); mstep; rewrite ?bind_warning; mstep; cbn;
        rewrite ?(proj1 (proj2 (proj2 (warning_fields _ _)))); cbn; lia.
Qed.

Lemma error_ret_finishes {B} (msg : String.string) (f : bool -> B) (L : lexer) :
  fst (lexer.bind (lexer.error msg) (fun x => lexer.ret (f x)) L) <> lexer.OutOfFuel.
Proof.
  apply bind_finishes; [apply (finishes_error _ msg L eq_refl) | intros; discriminate].
Qed.

Lemma read_string_loop_finishes (b fuel : nat) (quote : ascii) :
  forall (tok : token) (L : lexer),
    length (lexer.m_buffer L) = b ->
    (b - lexer.m_script_ptr L < fuel)%nat ->
    fst (lexer.read_string_loop fuel quote tok L) <> lexer.OutOfFuel.
Proof.
  induction fuel as [| fuel IH]; intros tok L Hb Hf; [lia |].
  cbn [lexer.read_string_loop]. rewrite bind_peek, bind_flag.
  destruct (Ascii.eqb _ "\" && negb _) eqn:Eesc.
  { (* an escape character *)
    apply andb_true_iff in Eesc. destruct Eesc as [Ec _].
    assert (Hin : (lexer.m_script_ptr L + 0 < length (lexer.m_buffer L))%nat).
    { apply rem_nth_in. apply Ascii.eqb_eq in Ec. rewrite Ec. discriminate. }
    apply bind_finishes; [exact (finishes_internal_read_escape_character b L Hb) |].
    intros r L1 E1.
    pose proof (internal_read_escape_character_moves L) as Hp1. rewrite E1 in Hp1.
    pose proof (run_buffer _ _ _ _ E1 scans_internal_read_escape_character) as Hb1.
    cbn [snd] in Hp1.
    destruct (negb (fst r)); [discriminate |].
    apply IH; [congruence | lia]. }
  destruct (Ascii.eqb _ quote).
  { (* a trailing quote *)
    rewrite bind_advance, !bind_flag.
    destruct (has_flag _ lexer.flags.no_string_concat && _); [discriminate |].
    rewrite !bind_gets.
    apply bind_finishes; [refine (finishes_internal_read_whitespace b _ _); cbn; exact Hb |].
    intros ws L2 E2.
    pose proof (run_stays _ _ _ _ E2 (stays_internal_read_whitespace _)) as Hp2.
    pose proof (run_buffer _ _ _ _ E2 scans_internal_read_whitespace) as Hb2.
    cbn in Hp2, Hb2.
    destruct ws; cbn [negb]; [| unfold lexer.restore; rewrite bind_modify; discriminate].
    apply internal_read_whitespace_above, above_in in E2. rewrite Hb2, Hb in E2.
    assert (Hgo : fst (lexer.bind (lexer.peek 0)
                         (fun c => if negb (Ascii.eqb c quote)
                                   then lexer.bind (lexer.restore
                                          (lexer.m_script_ptr
                                             (lexer.with_script_ptr (lexer.m_script_ptr L + 1) L))
                                          (lexer.m_line_num
                                             (lexer.with_script_ptr (lexer.m_script_ptr L + 1) L)))
                                          (fun _ => lexer.ret (true, tok))
                                   else lexer.bind (lexer.advance 1)
                                          (fun _ => lexer.read_string_loop fuel quote tok)) L2)
                  <> lexer.OutOfFuel).
    { rewrite bind_peek. destruct (negb (Ascii.eqb _ quote)).
      - unfold lexer.restore. rewrite bind_modify. discriminate.
      - rewrite bind_advance. apply IH; cbn; [congruence | lia]. }
    destruct (has_flag _ lexer.flags.no_string_concat);
      [| rewrite bind_ret; exact Hgo].
    rewrite bind_assoc, bind_peek.
    destruct (negb (Ascii.eqb _ "\")).
    { unfold lexer.restore. rewrite bind_assoc, bind_modify, bind_ret. discriminate. }
    rewrite bind_assoc, bind_advance, bind_assoc.
    apply bind_finishes; [refine (finishes_internal_read_whitespace b _ _); cbn; congruence |].
    intros ws2 L4 E4.
    pose proof (run_stays _ _ _ _ E4 (stays_internal_read_whitespace _)) as Hp4.
    pose proof (run_buffer _ _ _ _ E4 scans_internal_read_whitespace) as Hb4.
    cbn in Hp4, Hb4.
    rewrite bind_assoc, bind_peek.
    destruct (negb ws2 || _) eqn:Ef.
    { rewrite bind_assoc.
      apply bind_finishes; [apply (finishes_error _ _ L4 eq_refl) |].
      intros x L5 _. rewrite bind_ret. discriminate. }
    rewrite bind_ret.
    apply orb_false_iff in Ef. destruct Ef as [Ews2 _].
    destruct ws2; [| discriminate].
    apply internal_read_whitespace_above, above_in in E4. rewrite Hb4, Hb2, Hb in E4.
    rewrite bind_peek. destruct (negb (Ascii.eqb _ quote)).
    - unfold lexer.restore. rewrite bind_modify. discriminate.
    - rewrite bind_advance. apply IH; cbn; [congruence | lia]. }
  destruct (Ascii.eqb _ NUL) eqn:En; [apply error_ret_finishes |].
  apply (eqb_nul_in L 0) in En.
  destruct (Ascii.eqb _ lexer.newline); [apply error_ret_finishes |].
  rewrite bind_advance. apply IH; cbn; lia.
Qed.

Lemma finishes_read_string_loop (b : nat) (quote : ascii) (tok : token) :
  finishes b (lexer.read_string_loop (S b) quote tok).
Proof. intros L Hb. apply (read_string_loop_finishes b); [exact Hb | lia]. Qed.
#[export] Hint Resolve finishes_read_string_loop : finishes_db.

Lemma finishes_internal_read_string (b : nat) (quote : ascii) (tok : token) :
  finishes b (lexer.internal_read_string quote tok).
Proof. unfold lexer.internal_read_string. finishes_unfold. repeat finishes_step. Qed.
#[export] Hint Resolve finishes_internal_read_string : finishes_db.

(** With tables built by [set_punctuation_tables] the walk along a chain
    ends within the number of entries. *)
Lemma finishes_internal_read_punctuation (ps : list lexer.punctuation_def)
    (pt : lexer.punct_tables) (b : nat) (tok : token) :
  ascii7 ps ->
  lexer.set_punctuation_tables ps = Some pt ->
  finishes b (lexer.internal_read_punctuation pt tok).
Proof.
  intros H7 Ept L _.
  destruct (set_punctuation_tables_inv ps H7) as (pt' & Ept' & Hps & Hsize & Ht & Hn & Hinv).
  rewrite Ept in Ept'. injection Ept' as <-.
  unfold lexer.internal_read_punctuation. mstep.
  set (ci := lexer.char_index (nth 0 (rem L) NUL)).
  destruct (Nat.lt_ge_cases ci 256) as [Hci | Hci].
  2:{ assert (E : lexer.rd (lexer.m_punctuations_table pt) ci = -1).
      { unfold lexer.rd. apply nth_overflow. lia. }
      rewrite E.
      replace (lexer.find_punctuation (lexer.m_punctuations_size pt) pt (rem L) (-1))
        with (@lexer.Ret (option lexer.punctuation_def) None)
        by (destruct (lexer.m_punctuations_size pt); reflexivity).
      discriminate. }
  destruct (Hinv ci Hci) as (l & Hl & Hs & Hm).
  assert (Hlen : (length l <= length ps)%nat).
  { apply bounded_NoDup_length; [eapply sorted_NoDup; exact Hs |].
    apply Forall_forall. intros j Hj. apply list_elem_of_In, Hm in Hj. tauto. }
  destruct (find_punctuation_first ps pt (rem L) l (length ps) _ Hps Hl Hlen)
    as [(_ & E) | (l1 & j & l2 & -> & _ & Hj & E)]; rewrite Hsize, E.
  - discriminate.
  - mstep. discriminate.
Qed.

Section with_tables.
Variable ps : list lexer.punctuation_def.
Variable pt : lexer.punct_tables.
Hypothesis ps_ascii7 : ascii7 ps.
Hypothesis pt_built : lexer.set_punctuation_tables ps = Some pt.

Lemma finishes_next_token (b : nat) (out : token) : finishes b (lexer.next_token pt out).
Proof.
  pose proof (fun tok => finishes_internal_read_punctuation ps pt b tok ps_ascii7 pt_built)
    as Hpunct.
  unfold lexer.next_token. finishes_unfold. repeat finishes_step.
Qed.

(** What a call of [next_token] that returns a token leaves: the script
    and the initialised mark stay, no token is pushed back any more, and
    the pointer has moved unless the token was a pushed-back one. *)
Lemma next_token_measure (out tk : token) (L L1 : lexer) :
  lexer.next_token pt out L = (lexer.Ret (true, tk), L1) ->
  lexer.m_buffer L1 = lexer.m_buffer L /\
  lexer.m_token_available L1 = false /\
  (if lexer.m_token_available L
   then lexer.m_script_ptr L1 = lexer.m_script_ptr L
   else (lexer.m_script_ptr L < lexer.m_script_ptr L1 /\
         lexer.m_script_ptr L < length (lexer.m_buffer L))%nat).
Proof.
  intros E.
  pose proof (steps_next_token pt out L) as Hs. rewrite E in Hs. cbn [snd] in Hs.
  destruct Hs as (Hbuf & _).
  split; [exact Hbuf |].
  destruct (lexer.m_initialized L) eqn:Hinit.
  2:{ exfalso. revert E. unfold lexer.next_token. mstep. rewrite Hinit. cbn [negb].
      intros E. apply (error_never_true _ (fun b => (b, out))) in E. discriminate E. }
  destruct (lexer.m_token_available L) eqn:Havail.
  - revert E. unfold lexer.next_token. mstep. rewrite Hinit. cbn [negb]. mstep.
    rewrite Havail. mstep. unfold lexer.ret. intros [= _ <-]. split; reflexivity.
  - split.
    + pose proof (next_token_marks pt out L Hinit Havail) as (_ & _ & M3 & _).
      rewrite E in M3. exact M3.
    + exact (next_token_moves ps pt L out tk L1 ps_ascii7 pt_built Hinit Havail E).
Qed.

Lemma tokens_left_less (b : nat) (out tk : token) (L L1 : lexer) :
  length (lexer.m_buffer L) = b ->
  lexer.next_token pt out L = (lexer.Ret (true, tk), L1) ->
  length (lexer.m_buffer L1) = b /\ (tokens_left b L1 < tokens_left b L)%nat.
Proof.
  intros Hb E. destruct (next_token_measure out tk L L1 E) as (Hbuf & Ha & Hp).
  split; [congruence |]. unfold tokens_left. rewrite Ha.
  destruct (lexer.m_token_available L); lia.
Qed.

Lemma skip_until_string_loop_finishes (b fuel : nat) (s : list ascii) :
  forall (tok : token) (L : lexer),
    length (lexer.m_buffer L) = b -> (tokens_left b L < fuel)%nat ->
    fst (lexer.skip_until_string_loop pt fuel s tok L) <> lexer.OutOfFuel.
Proof.
  induction fuel as [| fuel IH]; intros tok L Hb Hf; [lia |].
  cbn [lexer.skip_until_string_loop].
  apply bind_finishes; [exact (finishes_next_token b tok L Hb) |].
  intros [ok tk] L1 E. cbn [fst snd]. destruct ok; cbn [negb]; [| discriminate].
  destruct (tokens_left_less b tok tk L L1 Hb E) as (Hb1 & Hlt).
  destruct (token.eq_str tk s); [discriminate |].
  apply IH; [exact Hb1 | lia].
Qed.

Lemma skip_rest_of_line_loop_finishes (b fuel : nat) :
  forall (tok : token) (L : lexer),
    length (lexer.m_buffer L) = b -> (tokens_left b L < fuel)%nat ->
    fst (lexer.skip_rest_of_line_loop pt fuel tok L) <> lexer.OutOfFuel.
Proof.
  induction fuel as [| fuel IH]; intros tok L Hb Hf; [lia |].
  cbn [lexer.skip_rest_of_line_loop].
  apply bind_finishes; [exact (finishes_next_token b tok L Hb) |].
  intros [ok tk] L1 E. cbn [fst snd]. destruct ok; cbn [negb]; [| discriminate].
  destruct (tokens_left_less b tok tk L L1 Hb E) as (Hb1 & Hlt).
  destruct (token.get_lines_crossed tk =? 0); cbn [negb].
  - apply IH; [exact Hb1 | lia].
  - unfold lexer.unread. rewrite bind_modify. discriminate.
Qed.

Lemma skip_bracketed_section_loop_finishes (b fuel : nat) :
  forall (depth : Z) (tok : token) (L : lexer),
    length (lexer.m_buffer L) = b -> (tokens_left b L < fuel)%nat ->
    fst (lexer.skip_bracketed_section_loop pt fuel depth tok L) <> lexer.OutOfFuel.
Proof.
  induction fuel as [| fuel IH]; intros depth tok L Hb Hf; [lia |].
  cbn [lexer.skip_bracketed_section_loop].
  apply bind_finishes; [exact (finishes_next_token b tok L Hb) |].
  intros [ok tk] L1 E. cbn [fst snd]. destruct ok; cbn [negb]; [| discriminate].
  destruct (tokens_left_less b tok tk L L1 Hb E) as (Hb1 & Hlt).
  cbv zeta. destruct (negb (_ =? 0)); [| discriminate].
  apply IH; [exact Hb1 | lia].
Qed.

Lemma scan_rest_of_line_loop_finishes (b fuel : nat) :
  forall (tok : token) (out : list ascii) (L : lexer),
    length (lexer.m_buffer L) = b -> (tokens_left b L < fuel)%nat ->
    fst (lexer.scan_rest_of_line_loop pt fuel tok out L) <> lexer.OutOfFuel.
Proof.
  induction fuel as [| fuel IH]; intros tok out L Hb Hf; [lia |].
  cbn [lexer.scan_rest_of_line_loop].
  apply bind_finishes; [exact (finishes_next_token b tok L Hb) |].
  intros [ok tk] L1 E. cbn [fst snd]. destruct ok; cbn [negb]; [| discriminate].
  destruct (tokens_left_less b tok tk L L1 Hb E) as (Hb1 & Hlt).
  destruct (token.get_lines_crossed tk =? 0); cbn [negb].
  - apply IH; [exact Hb1 | lia].
  - unfold lexer.unread. rewrite bind_modify. discriminate.
Qed.

Lemma tokens_left_bound (L : lexer) :
  (tokens_left (length (lexer.m_buffer L)) L < S (S (length (lexer.m_buffer L))))%nat.
Proof. unfold tokens_left. destruct (lexer.m_token_available L); lia. Qed.

End with_tables.





(** * The rest of a line *)

Section with_tables.
Variable pt : lexer.punct_tables.

Lemma next_token_initialized (out tk : token) (L L1 : lexer) :
  lexer.next_token pt out L = (lexer.Ret (true, tk), L1) -> lexer.m_initialized L = true.
Proof.
  intros E. destruct (lexer.m_initialized L) eqn:Hinit; [reflexivity |].
  exfalso. revert E. unfold lexer.next_token. mstep. rewrite Hinit. cbn [negb].
  intros E. apply (error_never_true _ (fun b => (b, out))) in E. discriminate E.
Qed.

(** The token that [next_token] reads from the script does not depend on
    the token it is given to write to. *)
Lemma next_token_any_out (out out' tk : token) (L L1 : lexer) :
  lexer.m_token_available L = false ->
  lexer.next_token pt out L = (lexer.Ret (true, tk), L1) ->
  lexer.next_token pt out' L = (lexer.Ret (true, tk), L1).
Proof.
  intros Havail E. pose proof (next_token_initialized _ _ _ _ E) as Hinit.
  revert E. unfold lexer.next_token. mstep. rewrite Hinit. cbn [negb]. mstep.
  rewrite Havail. mstep.
  match goal with
  | |- lexer.bind lexer.internal_read_whitespace _ ?L0 = _ -> _ =>
      destruct (lexer.internal_read_whitespace L0) as [[ws | |] L2] eqn:Ews;
        [rewrite !(bind_eq _ _ _ _ _ Ews)
        | unfold lexer.bind; rewrite Ews; discriminate ..]
  end.
  destruct ws; cbn [negb]; [| discriminate].
  unfold token.clear. exact (fun E => E).
Qed.

Lemma skip_rest_of_line_loop_stops (fuel : nat) :
  forall (tok : token) (L L' : lexer),
    lexer.m_token_available L = false ->
    lexer.skip_rest_of_line_loop pt fuel tok L = (lexer.Ret true, L') ->
    lexer.m_token_available L' = false /\
    forall out, exists tk L'',
      lexer.next_token pt out L' = (lexer.Ret (true, tk), L'') /\
      token.get_lines_crossed tk <> 0.
Proof.
  induction fuel as [| fuel IH]; intros tok L L' Havail; [discriminate |].
  cbn [lexer.skip_rest_of_line_loop].
  destruct (lexer.next_token pt tok L) as [[[ok tk] | |] L1] eqn:E;
    [rewrite (bind_eq _ _ _ _ _ E) | unfold lexer.bind; rewrite E; discriminate ..].
  cbn [fst snd]. destruct ok; cbn [negb]; [| discriminate].
  pose proof (next_token_initialized _ _ _ _ E) as Hinit.
  pose proof (next_token_marks pt tok L Hinit Havail) as (_ & _ & M3 & _).
  rewrite E in M3. cbn [snd] in M3.
  destruct (Z.eqb_spec (token.get_lines_crossed tk) 0) as [Hz | Hnz]; cbn [negb].
  - apply IH. exact M3.
  - pose proof (unread_same_input pt tok L Hinit Havail) as Hs.
    rewrite E in Hs. unfold lexer.unread, lexer.modify in Hs. cbn [snd] in Hs.
    unfold lexer.unread. rewrite bind_modify. unfold lexer.ret. intros [= <-].
    split; [exact M3 |]. intros out.
    destruct (next_token_respects pt out _ _ Hs) as [Ef _].
    rewrite (next_token_any_out tok out tk L L1 Havail E) in Ef. cbn [fst] in Ef.
    destruct (lexer.next_token pt out (lexer.with_line_num _ _)) as [o L''].
    cbn [fst] in Ef. subst o.
    exists tk, L''. split; [reflexivity | exact Hnz].
Qed.

Lemma scan_rest_of_line_loop_state (fuel : nat) :
  forall (tok : token) (out : list ascii) (L : lexer),
    snd (lexer.scan_rest_of_line_loop pt fuel tok out L)
    = snd (lexer.skip_rest_of_line_loop pt fuel tok L).
Proof.
  induction fuel as [| fuel IH]; intros tok out L; [reflexivity |].
  cbn [lexer.scan_rest_of_line_loop lexer.skip_rest_of_line_loop].
  unfold lexer.bind at 1 3.
  destruct (lexer.next_token pt tok L) as [[[ok tk] | |] L1]; [| reflexivity ..].
  cbn [fst snd]. destruct ok; cbn [negb]; [| reflexivity].
  destruct (token.get_lines_crossed tk =? 0); cbn [negb]; [apply IH | reflexivity].
Qed.

End with_tables.

(** X26. [skip_rest_of_line] and [scan_rest_of_line] stop before the
    first token of a later line. When no token is pushed back,
    [scan_rest_of_line] leaves the lexer in the state in which
    [skip_rest_of_line] leaves it, and when [skip_rest_of_line] returns
    true the token that [next_token] reads next is the one that stopped
    it: a token with lines crossed before it. *)
Theorem rest_of_line_stops_before_the_next_line (pt : lexer.punct_tables) (L : lexer) :
  lexer.m_token_available L = false ->
  snd (lexer.scan_rest_of_line pt L) = snd (lexer.skip_rest_of_line pt L) /\
  forall L',
    lexer.skip_rest_of_line pt L = (lexer.Ret true, L') ->
    lexer.m_token_available L' = false /\
    forall out, exists tk L'',
      lexer.next_token pt out L' = (lexer.Ret (true, tk), L'') /\
      token.get_lines_crossed tk <> 0.
Proof.
  intros Havail. split.
  - unfold lexer.scan_rest_of_line, lexer.skip_rest_of_line, lexer.token_fuel.
    rewrite !bind_gets. apply scan_rest_of_line_loop_state.
  - intros L'. unfold lexer.skip_rest_of_line, lexer.token_fuel. rewrite bind_gets.
    apply skip_rest_of_line_loop_stops. exact Havail.
Qed.

Lemma rest_of_line_stops_before_the_next_line_witness :
  exists L',
    lexer.skip_rest_of_line default_tables (lexer.from_memory (chars "a b" ++ [lexer.newline] ++ chars "c") 0)
    = (lexer.Ret true, L') /\
    exists tk L'',
      lexer.next_token default_tables token.default L' = (lexer.Ret (true, tk), L'') /\
      token.get_lines_crossed tk <> 0.
Proof.
  assert (Hn : exists L',
             lexer.skip_rest_of_line default_tables
               (lexer.from_memory (chars "a b" ++ [lexer.newline] ++ chars "c") 0)
             = (lexer.Ret true, L')).
  { eexists. vm_compute. reflexivity. }
  destruct Hn as (L' & Hn). exists L'. split; [exact Hn |].
  destruct (rest_of_line_stops_before_the_next_line default_tables
              (lexer.from_memory (chars "a b" ++ [lexer.newline] ++ chars "c") 0) eq_refl)
    as [_ H].
  exact (proj2 (H L' Hn) token.default).
Defined.
(** * Identifiers *)

(** White space without comments: the scan stops at the first character
    above the space. *)
Lemma read_whitespace_blanks (L : lexer) (blanks rest : list ascii) :
  rem L = blanks ++ rest ->
  Forall blank blanks ->
  32 < char_val (nth 0 rest NUL) ->
  nth 0 rest NUL <> "/"%char ->
  lexer.internal_read_whitespace L
  = (lexer.Ret true,
     lexer.with_line_num (lines_after blanks (lexer.m_line_num L))
       (lexer.with_script_ptr (lexer.m_script_ptr L + length blanks) L)).
Proof.
  intros Hrem Hb Hc Hslash.
  assert (Hlen : (length blanks <= length (lexer.m_buffer L))%nat).
  { pose proof (rem_length L) as H. rewrite Hrem, length_app in H. lia. }
  assert (Hnul : nth 0 rest NUL <> NUL).
  { intros E. rewrite E in Hc. vm_compute in Hc. discriminate Hc. }
  unfold lexer.internal_read_whitespace, lexer.script_fuel. mstep.
  cbn [lexer.read_whitespace_loop]. unfold lexer.script_fuel. mstep.
  erewrite bind_eq; cycle 1.
  { apply (skip_blanks_run blanks _ L rest Hrem Hb); [lia | lia]. }
  apply Ascii.eqb_neq in Hnul. rewrite Hnul. cbn [negb]. mstep.
  set (L1 := lexer.with_line_num _ _).
  assert (Hrem1 : rem L1 = rest).
  { unfold L1. erewrite rem_ext; [rewrite rem_advance, Hrem, drop_app_length; reflexivity | ..];
      reflexivity. }
  rewrite Hrem1. apply Ascii.eqb_neq in Hslash. rewrite Hslash. reflexivity.
Qed.

Lemma read_name_ident_token (L : lexer) (tok : token) (c0 : ascii) (cs rest : list ascii) :
  rem L = (c0 :: cs) ++ rest ->
  c0 <> NUL ->
  Forall (fun c => lexer.name_char (lexer.m_flags L) c = true) cs ->
  lexer.name_char (lexer.m_flags L) (nth 0 rest NUL) = false ->
  token.m_string tok = [] ->
  exists tk,
    lexer.internal_read_name_ident tok L
    = (lexer.Ret (true, tk),
       lexer.with_script_ptr (lexer.m_script_ptr L + length (c0 :: cs)) L) /\
    token.m_string tk = c0 :: cs /\
    token.m_type tk = token.identifier /\
    token.m_flags tk
    = (if token.list_ascii_eqb (c0 :: cs) (chars "true")
          || token.list_ascii_eqb (c0 :: cs) (chars "false")
       then token.flags.boolean else 0) /\
    token.m_line_num tk = token.m_line_num tok /\
    token.m_lines_crossed tk = token.m_lines_crossed tok /\
    token.m_values_valid tk = false.
Proof.
  intros Hrem Hc0 Hcs Hstop Hempty.
  unfold lexer.internal_read_name_ident. mstep.
  rewrite Hrem. cbn [app nth]. rewrite skipn_cons, drop_0.
  rewrite (span_stop _ cs rest Hcs Hstop).
  rewrite ?with_script_ptr_twice, ?script_ptr_with_script_ptr.
  set (tk := lexer.append_run cs (token.append c0 (token.set_type token.identifier tok))).
  assert (Hnul : Forall (fun c => c <> NUL) cs).
  { eapply Forall_impl; [exact Hcs |]. intros c. apply name_char_no_nul. }
  destruct (append_run_fields cs (token.append c0 (token.set_type token.identifier tok)) Hnul)
    as (Es & _ & Et & El & Ec).
  assert (Es' : token.m_string tk = c0 :: cs).
  { unfold tk. rewrite Es. unfold token.append.
    destruct (Ascii.eqb_spec c0 NUL) as [E | E]; [contradiction |].
    simpl. rewrite Hempty. reflexivity. }
  assert (Et' : token.m_type tk = token.identifier).
  { unfold tk. rewrite Et. unfold token.append.
    destruct (Ascii.eqb_spec c0 NUL) as [E | E]; [contradiction |]. reflexivity. }
  assert (El' : token.m_line_num tk = token.m_line_num tok).
  { unfold tk. rewrite El. unfold token.append.
    destruct (Ascii.eqb_spec c0 NUL) as [E | E]; [contradiction |]. reflexivity. }
  assert (Ec' : token.m_lines_crossed tk = token.m_lines_crossed tok).
  { unfold tk. rewrite Ec. unfold token.append.
    destruct (Ascii.eqb_spec c0 NUL) as [E | E]; [contradiction |]. reflexivity. }
  replace (lexer.m_script_ptr L + 1 + length cs)%nat
    with (lexer.m_script_ptr L + length (c0 :: cs))%nat by (simpl; lia).
  unfold token.eq_str. rewrite Es'.
  change (c_str (chars "true")) with (chars "true").
  change (c_str (chars "false")) with (chars "false").
  destruct (_ || _); eexists; (split; [reflexivity |]); cbn;
    repeat split; first [assumption | reflexivity].
Qed.

Lemma name_start_facts (c : ascii) :
  lexer.is_name_start c = true ->
  32 < char_val c /\ c <> "/"%char /\ c <> NUL /\ is_digit c = false /\
  Ascii.eqb c "." = false /\ Ascii.eqb c "'" = false /\ Ascii.eqb c lexer.dquote = false.
Proof.
  destruct c as [[] [] [] [] [] [] [] []]; vm_compute; intros H;
    try discriminate H; repeat split; congruence.
Qed.

(** [next_token] on blanks followed by an identifier. *)
Lemma next_token_identifier (pt : lexer.punct_tables) (L : lexer) (out : token)
    (blanks : list ascii) (c0 : ascii) (cs rest : list ascii) :
  lexer.m_initialized L = true ->
  lexer.m_token_available L = false ->
  has_flag (lexer.m_flags L) lexer.flags.only_strings = false ->
  rem L = blanks ++ (c0 :: cs) ++ rest ->
  Forall blank blanks ->
  lexer.is_name_start c0 = true ->
  Forall (fun c => lexer.name_char (lexer.m_flags L) c = true) cs ->
  lexer.name_char (lexer.m_flags L) (nth 0 rest NUL) = false ->
  exists tk L',
    lexer.next_token pt out L = (lexer.Ret (true, tk), L') /\
    (token.m_string tk = c0 :: cs /\
     token.m_type tk = token.identifier /\
     token.m_flags tk
     = (if token.list_ascii_eqb (c0 :: cs) (chars "true")
           || token.list_ascii_eqb (c0 :: cs) (chars "false")
        then token.flags.boolean else 0) /\
     token.m_line_num tk = lines_after blanks (lexer.m_line_num L) /\
     token.m_lines_crossed tk
     = u32 (lines_after blanks (lexer.m_line_num L) - lexer.m_line_num L) /\
     token.m_values_valid tk = false) /\
    (lexer.m_script_ptr L'
     = (lexer.m_script_ptr L + length blanks + length (c0 :: cs))%nat /\
     lexer.m_line_num L' = lines_after blanks (lexer.m_line_num L) /\
     lexer.m_error_count L' = lexer.m_error_count L /\
     lexer.m_warn_count L' = lexer.m_warn_count L) /\
    (lexer.m_buffer L' = lexer.m_buffer L /\
     lexer.m_flags L' = lexer.m_flags L /\
     lexer.m_whitespace_start_ptr L' = Some (lexer.m_script_ptr L) /\
     lexer.m_whitespace_end_ptr L' = Some (lexer.m_script_ptr L + length blanks)%nat).
Proof.
  intros Hinit Havail Honly Hrem Hb Hstart Hcs Hstop.
  destruct (name_start_facts c0 Hstart) as (Habove & Hslash & Hnul & Hdig & Hdot & Hq & Hdq).
  unfold lexer.next_token. mstep. rewrite Hinit. cbn [negb]. mstep.
  rewrite Havail. mstep.
  set (L1 := lexer.with_whitespace_start_ptr _ _).
  assert (Hrem1 : rem L1 = blanks ++ (c0 :: cs) ++ rest) by (rewrite <- Hrem; reflexivity).
  erewrite bind_eq; cycle 1.
  { apply (read_whitespace_blanks L1 blanks ((c0 :: cs) ++ rest) Hrem1 Hb);
      [exact Habove | exact Hslash]. }
  cbn [negb]. mstep.
  set (L2 := lexer.with_whitespace_end_ptr _ _).
  assert (Hrem2 : rem L2 = (c0 :: cs) ++ rest).
  { unfold L2. erewrite rem_ext; [rewrite rem_advance, Hrem1, drop_app_length; reflexivity | ..];
      reflexivity. }
  rewrite Hrem2. cbn [app nth].
  change (lexer.m_flags L2) with (lexer.m_flags L).
  rewrite Honly, Hdig, Hdot, Hq, Hdq, Hstart. cbn [orb andb].
  set (tok0 := token.set_lines_crossed _ _).
  destruct (read_name_ident_token L2 tok0 c0 cs rest Hrem2 Hnul Hcs Hstop eq_refl)
    as (tk & E & Es & Et & Ef & El & Ec & Ev).
  exists tk, (lexer.with_script_ptr (lexer.m_script_ptr L2 + length (c0 :: cs)) L2).
  split; [exact E |]. split.
  { split; [exact Es |]. split; [exact Et |]. split; [exact Ef |].
    split; [rewrite El; reflexivity |]. split; [rewrite Ec; reflexivity | exact Ev]. }
  split; cbn; repeat split; reflexivity.
Qed.

(** X27. An identifier after white space. When no token is pushed back
    and the script goes on with blanks (characters at or below the space,
    no comment), then a letter or an underscore followed by name
    characters, then a character that is not a name character,
    [next_token] returns the run as a token of type identifier, flagged
    boolean exactly when it is [true] or [false]. The token records the
    line it stands on and the number of newlines in the blanks as lines
    crossed; the pointer is left after the run and nothing is counted. *)
Theorem identifier_after_blanks (pt : lexer.punct_tables) (L : lexer) (out : token)
    (blanks : list ascii) (c0 : ascii) (cs rest : list ascii) :
  lexer.m_initialized L = true ->
  lexer.m_token_available L = false ->
  has_flag (lexer.m_flags L) lexer.flags.only_strings = false ->
  rem L = blanks ++ (c0 :: cs) ++ rest ->
  Forall blank blanks ->
  lexer.is_name_start c0 = true ->
  Forall (fun c => lexer.name_char (lexer.m_flags L) c = true) cs ->
  lexer.name_char (lexer.m_flags L) (nth 0 rest NUL) = false ->
  exists tk L',
    lexer.next_token pt out L = (lexer.Ret (true, tk), L') /\
    token.m_string tk = c0 :: cs /\
    token.m_type tk = token.identifier /\
    token.m_flags tk
    = (if token.list_ascii_eqb (c0 :: cs) (chars "true")
          || token.list_ascii_eqb (c0 :: cs) (chars "false")
       then token.flags.boolean else 0) /\
    token.m_line_num tk = lines_after blanks (lexer.m_line_num L) /\
    token.m_lines_crossed tk
    = u32 (lines_after blanks (lexer.m_line_num L) - lexer.m_line_num L) /\
    lexer.m_script_ptr L' = (lexer.m_script_ptr L + length blanks + length (c0 :: cs))%nat /\
    lexer.m_line_num L' = lines_after blanks (lexer.m_line_num L) /\
    lexer.m_error_count L' = lexer.m_error_count L /\
    lexer.m_warn_count L' = lexer.m_warn_count L.
Proof.
  intros Hinit Havail Honly Hrem Hb Hstart Hcs Hstop.
  destruct (next_token_identifier pt L out blanks c0 cs rest
              Hinit Havail Honly Hrem Hb Hstart Hcs Hstop)
    as (tk & L' & E & (Es & Et & Ef & El & Ec & _) & (Hp & Hl & He & Hw) & _).
  exists tk, L'. repeat split; assumption.
Qed.

Lemma identifier_after_blanks_witness :
  exists tk L',
    lexer.next_token default_tables token.default
      (lexer.from_memory (" "%char :: lexer.newline :: chars "true;") 0)
    = (lexer.Ret (true, tk), L') /\
    token.m_string tk = chars "true" /\
    token.m_flags tk = token.flags.boolean /\
    token.m_lines_crossed tk = 1.
Proof.
  destruct (identifier_after_blanks default_tables
              (lexer.from_memory (" "%char :: lexer.newline :: chars "true;") 0)
              token.default [" "%char; lexer.newline] "t"%char (chars "rue") (chars ";")
              eq_refl eq_refl eq_refl eq_refl)
    as (tk & L' & E & Es & _ & Ef & _ & Ec & _).
  - repeat constructor; vm_compute; congruence.
  - reflexivity.
  - repeat constructor.
  - reflexivity.
  - exists tk, L'. split; [exact E |]. split; [exact Es |]. split; [exact Ef | exact Ec].
Defined.

(** * Scanning values *)

Lemma list_ascii_eqb_false (a b : list ascii) : a <> b -> token.list_ascii_eqb a b = false.
Proof.
  intros H. destruct (token.list_ascii_eqb a b) eqn:E; [| reflexivity].
  apply list_ascii_eqb_spec in E. contradiction.
Qed.

Lemma boolean_value (tk : token) (name : list ascii) :
  token.m_string tk = name ->
  token.m_flags tk = token.flags.boolean ->
  token.m_values_valid tk = false ->
  name = chars "true" \/ name = chars "false" ->
  exists tk1,
    token.as_uint64 tk
    = Some ((if token.list_ascii_eqb name (chars "true") then 1 else 0), tk1) /\
    token.as_bool tk1 = Some (token.list_ascii_eqb name (chars "true"), tk1).
Proof.
  intros Es Ef Ev Hname.
  unfold token.as_uint64, token.as_bool, token.get_value_u64, token.is_boolean,
    token.update_cached_values.
  rewrite Ef, Ev, Es.
  replace (has_flag token.flags.boolean token.flags.boolean) with true by reflexivity.
  rewrite andb_false_r. cbn [negb].
  destruct Hname as [-> | ->].
  - replace (token.compute_values (chars "true") token.flags.boolean)
      with (Some (1, dbl.of_Z 1)) by (vm_compute; reflexivity).
    eexists. split; [reflexivity |]. cbn. rewrite ?Ef.
    replace (has_flag token.flags.boolean token.flags.boolean) with true by reflexivity.
    rewrite andb_false_r. reflexivity.
  - replace (token.compute_values (chars "false") token.flags.boolean)
      with (Some (0, dbl.of_Z 0)) by (vm_compute; reflexivity).
    eexists. split; [reflexivity |]. cbn. rewrite ?Ef.
    replace (has_flag token.flags.boolean token.flags.boolean) with true by reflexivity.
    rewrite andb_false_r. reflexivity.
Qed.

(** X28. [scan_bool] on an identifier. In the setting of a script that
    goes on with blanks and an identifier, [scan_bool] returns true for
    [true] and false for [false], leaves the pointer after the word and
    counts nothing; for any other identifier it counts one error and
    returns false, or throws when errors are fatal. *)
Theorem scan_bool_reads_true_and_false (pt : lexer.punct_tables) (L : lexer)
    (blanks : list ascii) (c0 : ascii) (cs rest : list ascii) :
  lexer.m_initialized L = true ->
  lexer.m_token_available L = false ->
  has_flag (lexer.m_flags L) lexer.flags.only_strings = false ->
  rem L = blanks ++ (c0 :: cs) ++ rest ->
  Forall blank blanks ->
  lexer.is_name_start c0 = true ->
  Forall (fun c => lexer.name_char (lexer.m_flags L) c = true) cs ->
  lexer.name_char (lexer.m_flags L) (nth 0 rest NUL) = false ->
  (c0 :: cs = chars "true" \/ c0 :: cs = chars "false" ->
   exists L',
     lexer.scan_bool pt L
     = (lexer.Ret (Some (token.list_ascii_eqb (c0 :: cs) (chars "true"))), L') /\
     lexer.m_script_ptr L'
     = (lexer.m_script_ptr L + length blanks + length (c0 :: cs))%nat /\
     lexer.m_error_count L' = lexer.m_error_count L /\
     lexer.m_warn_count L' = lexer.m_warn_count L) /\
  (c0 :: cs <> chars "true" -> c0 :: cs <> chars "false" ->
   lexer.m_error_count (snd (lexer.scan_bool pt L)) = u32 (lexer.m_error_count L + 1) /\
   (fst (lexer.scan_bool pt L) = lexer.Ret (Some false) \/
    fst (lexer.scan_bool pt L) = lexer.Thrown)).
Proof.
  intros Hinit Havail Honly Hrem Hb Hstart Hcs Hstop.
  destruct (next_token_identifier pt L token.default blanks c0 cs rest
              Hinit Havail Honly Hrem Hb Hstart Hcs Hstop)
    as (tk & L' & E & (Es & Et & Ef & El & Ec & Ev) & (Hp & Hl & He & Hw) & (_ & Hfl & _)).
  unfold lexer.scan_bool. rewrite (bind_eq _ _ _ _ _ E). cbn [fst snd negb].
  split.
  - intros Hname.
    assert (Ef' : token.m_flags tk = token.flags.boolean).
    { rewrite Ef. destruct Hname as [-> | ->]; reflexivity. }
    destruct (boolean_value tk (c0 :: cs) Es Ef' Ev Hname) as (tk1 & Eu & Eb).
    unfold token.is_boolean. rewrite Ef'.
    replace (has_flag token.flags.boolean token.flags.boolean) with true by reflexivity.
    cbn [negb andb]. rewrite Eu.
    replace (1 <? (if token.list_ascii_eqb (c0 :: cs) (chars "true") then 1 else 0))
      with false by (destruct (token.list_ascii_eqb _ _); reflexivity).
    rewrite bind_ret, Eb. exists L'. repeat split; assumption.
  - intros Ht Hf.
    rewrite (list_ascii_eqb_false _ _ Ht), (list_ascii_eqb_false _ _ Hf) in Ef.
    cbn [orb] in Ef.
    unfold token.is_boolean, token.is_number. rewrite Ef, Et.
    replace (has_flag 0 token.flags.boolean) with false by reflexivity.
    cbn [negb andb token.type_eqb]. rewrite bind_error. cbv zeta.
    destruct (has_flag (lexer.m_flags L') lexer.flags.no_errors);
      [cbn; split; [congruence | left; reflexivity] |].
    destruct (has_flag (lexer.m_flags L') lexer.flags.no_fatal_errors); cbn;
      (split; [congruence | auto]).
Qed.

Lemma scan_bool_reads_true_and_false_witness :
  exists L',
    lexer.scan_bool default_tables (lexer.from_memory (chars "  true;") 0)
    = (lexer.Ret (Some true), L').
Proof.
  destruct (scan_bool_reads_true_and_false default_tables
              (lexer.from_memory (chars "  true;") 0)
              (chars "  ") "t"%char (chars "rue") (chars ";")
              eq_refl eq_refl eq_refl eq_refl) as [H _].
  - repeat constructor; vm_compute; congruence.
  - reflexivity.
  - repeat constructor.
  - reflexivity.
  - destruct (H (or_introl eq_refl)) as (L' & E & _). exists L'. exact E.
Defined.

(** X29. [scan_string] returns the text of a string. On a script that
    goes on with a double-quoted string of plain characters, with nothing
    to concatenate after it, [scan_string] returns what is between the
    quotes, leaves the pointer after the closing quote and counts
    nothing; on blanks and an identifier it counts one error and returns
    the empty string, or throws when errors are fatal. *)
Theorem scan_string_returns_the_text (pt : lexer.punct_tables) (L : lexer) :
  lexer.m_initialized L = true ->
  lexer.m_token_available L = false ->
  has_flag (lexer.m_flags L) lexer.flags.only_strings = false ->
  (forall body rest,
     has_flag (lexer.m_flags L) lexer.flags.no_string_concat = false ->
     rem L = lexer.dquote :: body ++ lexer.dquote :: rest ->
     Forall (plain_char lexer.dquote) body ->
     ends_string lexer.dquote rest ->
     exists L',
       lexer.scan_string pt L = (lexer.Ret body, L') /\
       rem L' = rest /\
       lexer.m_error_count L' = lexer.m_error_count L /\
       lexer.m_warn_count L' = lexer.m_warn_count L) /\
  (forall blanks c0 cs rest,
     rem L = blanks ++ (c0 :: cs) ++ rest ->
     Forall blank blanks ->
     lexer.is_name_start c0 = true ->
     Forall (fun c => lexer.name_char (lexer.m_flags L) c = true) cs ->
     lexer.name_char (lexer.m_flags L) (nth 0 rest NUL) = false ->
     lexer.m_error_count (snd (lexer.scan_string pt L)) = u32 (lexer.m_error_count L + 1) /\
     (fst (lexer.scan_string pt L) = lexer.Ret [] \/
      fst (lexer.scan_string pt L) = lexer.Thrown)).
Proof.
  intros Hinit Havail Honly. split.
  - intros body rest Hconcat Hrem Hbody Hend.
    destruct (next_token_at_dquote pt L token.default Hinit Havail Honly)
      as (tok0 & L2 & Hrem2 & Hf2 & Hl2 & He2 & Hw2 & Hs0 & Hnext).
    { rewrite Hrem. reflexivity. }
    rewrite <- Hrem2 in Hrem. rewrite <- Hf2 in Hconcat.
    destruct (read_string_simple L2 tok0 body rest Hconcat Hrem Hbody Hend)
      as (L' & Hread & Hr & Hl & He & Hw).
    assert (Hnul : Forall (fun c => c <> NUL) body).
    { eapply Forall_impl; [exact Hbody |]. intros c (_ & _ & H & _). exact H. }
    destruct (append_run_fields body (token.set_type token.string tok0) Hnul)
      as (Es & _ & Et & _).
    rewrite Hread in Hnext.
    unfold lexer.scan_string. rewrite (bind_eq _ _ _ _ _ Hnext). cbn [fst snd negb].
    unfold token.get_type. rewrite Et. cbn [token.set_type token.m_type token.type_eqb negb andb].
    exists L'. split.
    + unfold lexer.ret, token.move_to. cbn [fst]. rewrite Es.
      cbn [token.m_string token.set_type]. rewrite Hs0. reflexivity.
    + split; [exact Hr |]. split; congruence.
  - intros blanks c0 cs rest Hrem Hb Hstart Hcs Hstop.
    destruct (next_token_identifier pt L token.default blanks c0 cs rest
                Hinit Havail Honly Hrem Hb Hstart Hcs Hstop)
      as (tk & L' & E & (Es & Et & _) & (Hp & Hl & He & Hw) & _).
    unfold lexer.scan_string. rewrite (bind_eq _ _ _ _ _ E). cbn [fst snd negb].
    unfold token.get_type. rewrite Et. cbn [token.type_eqb negb andb].
    rewrite bind_error. cbv zeta.
    destruct (has_flag (lexer.m_flags L') lexer.flags.no_errors);
      [cbn; split; [congruence | left; reflexivity] |].
    destruct (has_flag (lexer.m_flags L') lexer.flags.no_fatal_errors); cbn;
      (split; [congruence | auto]).
Qed.

Lemma scan_string_returns_the_text_witness :
  exists L',
    lexer.scan_string default_tables
      (lexer.from_memory (lexer.dquote :: chars "a b" ++ lexer.dquote :: chars ";") 0)
    = (lexer.Ret (chars "a b"), L').
Proof.
  destruct (scan_string_returns_the_text default_tables
              (lexer.from_memory (lexer.dquote :: chars "a b" ++ lexer.dquote :: chars ";") 0)
              eq_refl eq_refl eq_refl) as [H _].
  destruct (H (chars "a b") (chars ";") eq_refl eq_refl) as (L' & E & _).
  - repeat constructor; discriminate.
  - right. vm_compute. repeat split; congruence.
  - exists L'. exact E.
Defined.

(** X30. After [next_token] has read a token that follows blanks,
    [get_last_whitespace] returns those blanks: the characters between
    the position before the call and the first character of the token. *)
Theorem last_whitespace_is_what_was_skipped (pt : lexer.punct_tables) (L : lexer)
    (out : token) (blanks : list ascii) (c0 : ascii) (cs rest : list ascii) :
  lexer.m_initialized L = true ->
  lexer.m_token_available L = false ->
  has_flag (lexer.m_flags L) lexer.flags.only_strings = false ->
  rem L = blanks ++ (c0 :: cs) ++ rest ->
  Forall blank blanks ->
  lexer.is_name_start c0 = true ->
  Forall (fun c => lexer.name_char (lexer.m_flags L) c = true) cs ->
  lexer.name_char (lexer.m_flags L) (nth 0 rest NUL) = false ->
  exists tk L',
    lexer.next_token pt out L = (lexer.Ret (true, tk), L') /\
    lexer.get_last_whitespace L' = Some blanks /\
    blanks ++ token.as_string tk ++ rem L' = rem L.
Proof.
  intros Hinit Havail Honly Hrem Hb Hstart Hcs Hstop.
  destruct (next_token_identifier pt L out blanks c0 cs rest
              Hinit Havail Honly Hrem Hb Hstart Hcs Hstop)
    as (tk & L' & E & (Es & _) & (Hp & _) & (Hbuf & _ & Hws & Hwe)).
  exists tk, L'. split; [exact E |]. split.
  - unfold lexer.get_last_whitespace. rewrite Hws, Hwe, Hbuf. f_equal.
    replace (lexer.m_script_ptr L + length blanks - lexer.m_script_ptr L)%nat
      with (length blanks) by lia.
    change (drop (lexer.m_script_ptr L) (lexer.m_buffer L)) with (rem L).
    rewrite Hrem. apply take_app_length.
  - unfold token.as_string. rewrite Es.
    assert (Er : rem L' = rest).
    { unfold rem. rewrite Hp, Hbuf, <- Nat.add_assoc, <- drop_drop.
      change (drop (lexer.m_script_ptr L) (lexer.m_buffer L)) with (rem L).
      rewrite Hrem, <- length_app, app_assoc, drop_app_length. reflexivity. }
    rewrite Er, Hrem. reflexivity.
Qed.

Lemma last_whitespace_is_what_was_skipped_witness :
  exists tk L',
    lexer.next_token default_tables token.default
      (lexer.from_memory (chars "  ab;") 0) = (lexer.Ret (true, tk), L') /\
    lexer.get_last_whitespace L' = Some (chars "  ").
Proof.
  destruct (last_whitespace_is_what_was_skipped default_tables
              (lexer.from_memory (chars "  ab;") 0) token.default
              (chars "  ") "a"%char (chars "b") (chars ";")
              eq_refl eq_refl eq_refl eq_refl) as (tk & L' & E & Hw & _).
  - repeat constructor; vm_compute; congruence.
  - reflexivity.
  - repeat constructor.
  - reflexivity.
  - exists tk, L'. split; [exact E | exact Hw].
Defined.
